(** * fix_unwrap_or.py: the unwrap_or codemod, embedded and verified

    The script holds a fixed catalogue [PATTERNS] of regular-expression
    rewrite rules, applies every rule in catalogue order to the text of each
    [*.rs] file under [crates/zjj/src], writes back the files whose text
    changed and prints a summary.

    Texts are lists of 8-bit characters.  The regular expressions of the
    catalogue only use escaped literal characters, the two capturing groups
    [([^)]+)] and [(\d+)], and the one-character negative lookahead
    [(?![.])]; the embedding has one atom for each of these. *)

From Stdlib Require Import String Ascii DecimalString Bool Arith NArith Lia List.
Import ListNotations.

Local Open Scope list_scope.

(* ================================================================= *)
(** ** Texts *)

(** A Python [str] is a sequence of Unicode code points. *)
Abbreviation char := N (only parsing).

Abbreviation text := (list N) (only parsing).

(** Character literals: ["."%c] is the code point of the dot. *)
Definition char_of_bytes (l : list Byte.byte) : option N :=
  match l with
  | [b] => Some (Byte.to_N b)
  | _ => None
  end.

Definition bytes_of_char (c : N) : option (list Byte.byte) :=
  match Byte.of_N c with
  | Some b => Some [b]
  | None => None
  end.

Declare Scope cp_scope.
Delimit Scope cp_scope with c.
String Notation N char_of_bytes bytes_of_char : cp_scope.

(** The text of an ASCII literal of the script. *)
Definition lit (s : string) : text := map N_of_ascii (list_ascii_of_string s).

(** The double quote character, which occurs in four patterns. *)
Definition dq : char := 34%N.

Definition text_eqb (a b : text) : bool :=
  if list_eq_dec N.eq_dec a b then true else false.

(** [strip_prefix p s]: the rest of [s] after the literal [p], if [s]
    starts with [p]. *)
Fixpoint strip_prefix (p s : text) : option text :=
  match p with
  | [] => Some s
  | a :: p' =>
      match s with
      | [] => None
      | b :: s' => if N.eqb a b then strip_prefix p' s' else None
      end
  end.

(** [span cls s]: the longest prefix of [s] made of characters of the class
    [cls], and what follows it. *)
Fixpoint span (cls : char -> bool) (s : text) : text * text :=
  match s with
  | [] => ([], [])
  | c :: s' =>
      if cls c then let (g, r) := span cls s' in (c :: g, r) else ([], s)
  end.

(* ================================================================= *)
(** ** Regular expressions of the catalogue *)

(** The code points of the digit zero of every decimal digit script: the
    characters of general category [Nd] come in runs of ten, zero first.
    This is the table of Unicode 14.0, the database of CPython 3.11. *)
Definition decimal_zeros : list N :=
  [48; 1632; 1776; 1984; 2406; 2534; 2662; 2790; 2918; 3046; 3174; 3302;
   3430; 3558; 3664; 3792; 3872; 4160; 4240; 6112; 6160; 6470; 6608; 6784;
   6800; 6992; 7088; 7232; 7248; 42528; 43216; 43264; 43472; 43504; 43600;
   44016; 65296; 66720; 68912; 69734; 69872; 69942; 70096; 70384; 70736;
   70864; 71248; 71360; 71472; 71904; 72016; 72784; 73040; 73120; 92768;
   92864; 93008; 120782; 120792; 120802; 120812; 120822; 123200; 123632;
   125264; 130032]%N.

(** Character classes: [[^)]], [\d] and [[.]].  The patterns are [str]
    patterns compiled without flags, so [\d] is every Unicode decimal digit,
    not only [0] to [9]. *)
Definition not_close_paren (c : char) : bool := negb (N.eqb c ")"%c).
Definition digit (c : char) : bool :=
  existsb (fun z => N.leb z c && N.leb c (z + 9)) decimal_zeros.
Definition dot (c : char) : bool := N.eqb c "."%c.

Inductive atom : Type :=
| Chars (l : text)                    (* literal characters, escapes removed *)
| Group (cls : char -> bool)         (* [(cls+)], capturing and greedy *)
| NotFollowedBy (cls : char -> bool) (* [(?![...])] *).

Definition regex := list atom.

(** [match_here p s]: match [p] at the start of [s]; the captured groups
    (group 1 first) and the number of characters consumed.

    A group takes the longest run of its class and is never shortened
    afterwards: in every pattern of the catalogue the group is followed by a
    literal character outside its class ([)] after [[^)]+], [.] or [)] after
    [\d+]), so a shorter run is followed by a character of the class and
    backtracking cannot succeed. *)
Fixpoint match_here (p : regex) (s : text) : option (list text * nat) :=
  match p with
  | [] => Some ([], 0)
  | Chars l :: p' =>
      match strip_prefix l s with
      | Some s' =>
          match match_here p' s' with
          | Some (gs, n) => Some (gs, length l + n)
          | None => None
          end
      | None => None
      end
  | Group cls :: p' =>
      match span cls s with
      | ([], _) => None
      | (g, s') =>
          match match_here p' s' with
          | Some (gs, n) => Some (g :: gs, length g + n)
          | None => None
          end
      end
  | NotFollowedBy cls :: p' =>
      match s with
      | c :: _ => if cls c then None else match_here p' s
      | [] => match_here p' s
      end
  end.

(** Match objects: [m_groups] holds group 0 (the matched text) first. *)
Record Match : Type := mkMatch {
  m_start : nat;
  m_end : nat;
  m_groups : list text
}.

Definition group (m : Match) (i : nat) : text := nth i (m_groups m) [].

(** Replacement templates: literal pieces and back-references [\i]. *)
Inductive piece : Type :=
| TLit (l : text)
| TRef (i : nat).

Definition template := list piece.

Definition expand (t : template) (m : Match) : text :=
  flat_map (fun p => match p with TLit l => l | TRef i => group m i end) t.

(** [match_at p pos s]: the match object of [p] at the suffix [s], which
    starts at offset [pos] of the whole text. *)
Definition match_at (p : regex) (pos : nat) (s : text) : option Match :=
  match match_here p s with
  | Some (gs, n) => Some (mkMatch pos (pos + n) (firstn n s :: gs))
  | None => None
  end.

(* ================================================================= *)
(** ** The scanner behind [re.sub], [re.finditer] and [re.findall]

    The scanner tries the pattern at each offset from left to right; after a
    match it resumes at the end of the match.  [skip] counts the characters
    of the current match that are still to be passed over.  Every pattern of
    the catalogue consumes at least its leading character, so the special
    treatment the library gives to empty matches never applies. *)

(** [scan pm pos skip s]: the match objects found in the suffix [s], which
    starts at offset [pos]; [pm pos s] is the match at that offset, if any. *)
Fixpoint scan (pm : nat -> text -> option Match) (pos skip : nat) (s : text)
  : list Match :=
  match s with
  | [] => []
  | _ :: t =>
      match skip with
      | S k => scan pm (S pos) k t
      | O =>
          match pm pos s with
          | Some mt => mt :: scan pm (S pos) (pred (m_end mt - pos)) t
          | None => scan pm (S pos) 0 t
          end
      end
  end.

(** Substitution of all non-overlapping matches by what a callable makes
    of each match object. *)
Fixpoint sub_scan_at (pm : nat -> text -> option Match) (f : Match -> text)
  (pos skip : nat) (s : text) : text :=
  match s with
  | [] => []
  | c :: t =>
      match skip with
      | S k => sub_scan_at pm f (S pos) k t
      | O =>
          match pm pos s with
          | Some mt => f mt ++ sub_scan_at pm f (S pos) (pred (m_end mt - pos)) t
          | None => c :: sub_scan_at pm f (S pos) 0 t
          end
      end
  end.

(** The same for a replacement that does not depend on the offset: [m s] is
    the length of the match at the suffix [s] and its replacement. *)
Fixpoint sub_scan (m : text -> option (nat * text)) (skip : nat) (s : text)
  : text :=
  match s with
  | [] => []
  | c :: t =>
      match skip with
      | S k => sub_scan m k t
      | O =>
          match m s with
          | Some (n, r) => r ++ sub_scan m (pred n) t
          | None => c :: sub_scan m 0 t
          end
      end
  end.

(** A template's replacement at a suffix (a template only reads groups). *)
Definition replaced_by (p : regex) (f : Match -> text) (s : text)
  : option (nat * text) :=
  match match_at p 0 s with
  | Some mt => Some (m_end mt, f mt)
  | None => None
  end.

Definition re_finditer (p : regex) (s : text) : list Match :=
  scan (match_at p) 0 0 s.

(** [re.findall]: with no group the matched texts, with groups the first
    group (the script only takes the length of the result). *)
Definition re_findall (p : regex) (s : text) : list text :=
  map (fun mt => match m_groups mt with
                 | [g0] => g0
                 | _ => group mt 1
                 end) (re_finditer p s).

(** [re.sub] with a template, and with a callable. *)
Definition re_sub (p : regex) (t : template) (s : text) : text :=
  sub_scan (replaced_by p (expand t)) 0 s.

Definition re_sub_fn (p : regex) (f : Match -> text) (s : text) : text :=
  sub_scan_at (match_at p) f 0 0 s.

(** [re.search]: is there a match anywhere in [s]? *)
Fixpoint re_search (p : regex) (s : text) : bool :=
  match match_here p s with
  | Some _ => true
  | None => match s with [] => false | _ :: t => re_search p t end
  end.

(* ================================================================= *)
(** ** The catalogue *)

(** A catalogue entry is a pair (pattern, template) or a triple (pattern,
    callable, flag). *)
Inductive rule : Type :=
| Rule2 (pattern : regex) (replacement : template)
| Rule3 (pattern : regex) (replacement : Match -> text) (is_function : bool).

(** [\.unwrap_or\(ARG\)(?![.])] and its replacement [.map_or(ARG, |v| v)]. *)
Definition unwrap_or_pat (arg : text) : regex :=
  [Chars (lit ".unwrap_or(" ++ arg ++ lit ")"); NotFollowedBy dot].

Definition map_or_tpl (arg : text) : template :=
  [TLit (lit ".map_or(" ++ arg ++ lit ", |v| v)")].

Definition unwrap_or_rule (arg : text) : rule :=
  Rule2 (unwrap_or_pat arg) (map_or_tpl arg).

Definition try_exists_pat : regex :=
  [Chars (lit ".try_exists("); Group not_close_paren;
   Chars (lit ").await.unwrap_or(false)")].

Definition try_exists_tpl : template :=
  [TLit (lit ".try_exists("); TRef 1; TLit (lit ").await.map_or(false, |v| v)")].

Definition unwrap_or_default_pat : regex :=
  [Chars (lit ".await.unwrap_or_default()"); NotFollowedBy dot].

Definition unwrap_or_default_tpl : template :=
  [TLit (lit ".await.map_or_else(|_| Vec::new(), |v| v)")].

Definition get_slice_pat : regex :=
  [Chars (lit ".get("); Group digit; Chars (lit ".."); Group digit;
   Chars (lit ").unwrap_or(&[])")].

Definition get_slice_fn (m : Match) : text :=
  lit "{match .get(" ++ group m 1 ++ lit ".." ++ group m 2
    ++ lit ") { Some(slice) => slice, None => &[], }".

Definition PATTERNS : list rule :=
  [ Rule2 try_exists_pat try_exists_tpl;
    unwrap_or_rule (lit "0");
    unwrap_or_rule (lit "false");
    unwrap_or_rule [dq; dq];
    unwrap_or_rule (dq :: lit "unknown" ++ [dq]);
    unwrap_or_rule (dq :: lit "open" ++ [dq]);
    unwrap_or_rule (dq :: lit "-" ++ [dq]);
    unwrap_or_rule (lit "60");
    unwrap_or_rule (lit "300");
    unwrap_or_rule (lit "30");
    unwrap_or_rule (lit "1");
    unwrap_or_rule (lit "i64::MAX");
    unwrap_or_rule (lit "u64::MAX");
    Rule2 unwrap_or_default_pat unwrap_or_default_tpl;
    Rule3 get_slice_pat get_slice_fn true ].

Definition rule_pattern (r : rule) : regex :=
  match r with
  | Rule2 p _ => p
  | Rule3 p _ _ => p
  end.

(* ================================================================= *)
(** ** fix_file, on the text *)

(** One step of the callback loop: splice the replacement over the span of
    the match. *)
Definition splice (replacement : Match -> text) (st : text * nat)
  (mt : Match) : text * nat :=
  let (content, fixes) := st in
  (firstn (m_start mt) content ++ replacement mt ++ skipn (m_end mt) content,
   fixes + 1).

(** The body of the loop over [PATTERNS]. *)
Definition apply_rule (original_content : text) (st : text * nat)
  (pattern_tuple : rule) : text * nat :=
  let (content, fixes) := st in
  match pattern_tuple with
  | Rule3 pattern replacement true =>
      let matches := re_finditer pattern content in
      fold_left (splice replacement) (rev matches) (content, fixes)
  | Rule3 pattern replacement false =>
      let new_content := re_sub_fn pattern replacement content in
      if text_eqb new_content content then (content, fixes)
      else (new_content,
            fixes + length (re_findall pattern original_content))
  | Rule2 pattern replacement =>
      let new_content := re_sub pattern replacement content in
      if text_eqb new_content content then (content, fixes)
      else (new_content,
            fixes + length (re_findall pattern original_content))
  end.

(** The text and the fix count after all rules. *)
Definition fix_content (original_content : text) : text * nat :=
  fold_left (apply_rule original_content) PATTERNS (original_content, 0).

(* ================================================================= *)
(** ** The file system, standard output and the two functions *)

(** A path is the text [str(path)] gives. *)
Abbreviation path := (list N) (only parsing).

(** What the script sees of the machine: which paths exist, what
    [rglob("*.rs")] yields, the characters each file holds ([None] when the
    file cannot be opened or decoded, so that [read_text] raises), whether
    [write_text] succeeds, the line separator of the platform ([os.linesep]),
    the lines printed so far and the writes done so far (latest first). *)
Record world : Type := mkWorld {
  w_exists : path -> bool;
  w_rglob : path -> list path;
  w_text : path -> option text;
  w_writable : path -> bool;
  w_linesep : text;
  w_stdout : list text;
  w_writes : list path
}.

Definition newline : char := 10%N.
Definition carriage_return : char := 13%N.

(** [read_text] opens the file in text mode with universal newlines: the
    line endings CR LF and CR come back as LF. *)
Fixpoint universal_newlines (s : text) : text :=
  match s with
  | [] => []
  | c :: t =>
      if N.eqb c carriage_return then
        newline :: match t with
                   | d :: t' =>
                       if N.eqb d newline then universal_newlines t'
                       else universal_newlines t
                   | [] => []
                   end
      else c :: universal_newlines t
  end.

Definition read_text (filepath : path) (w : world) : option text :=
  option_map universal_newlines (w_text w filepath).

(** [write_text] opens the file in text mode too: every LF is written as the
    line separator of the platform. *)
Definition to_linesep (linesep content : text) : text :=
  flat_map (fun c => if N.eqb c newline then linesep else [c]) content.

Definition print (line : text) (w : world) : world :=
  mkWorld (w_exists w) (w_rglob w) (w_text w) (w_writable w) (w_linesep w)
          (line :: w_stdout w) (w_writes w).

Definition write_text (filepath : path) (content : text) (w : world) : world :=
  mkWorld (w_exists w) (w_rglob w)
          (fun q => if text_eqb q filepath
                    then Some (to_linesep (w_linesep w) content)
                    else w_text w q)
          (w_writable w) (w_linesep w) (w_stdout w) (filepath :: w_writes w).

(** The exceptions of the two file operations; the script catches none. *)
Inductive exn : Type :=
| ReadError (filepath : path)
| WriteError (filepath : path).

(** How a call ends: it returns, an exception leaves it, or [sys.exit]. *)
Inductive outcome (A : Type) : Type :=
| Returns (a : A) (w : world)
| Raises (e : exn) (w : world)
| Exits (status : nat) (w : world).

Arguments Returns {A} a w.
Arguments Raises {A} e w.
Arguments Exits {A} status w.

Definition decimal (n : nat) : text :=
  lit (NilEmpty.string_of_uint (Nat.to_uint n)).

Definition fixed_line (fixes : nat) (filepath : path) : text :=
  lit "Fixed " ++ decimal fixes ++ lit " violations in " ++ filepath.

Definition fix_file (filepath : path) (w : world) : outcome nat :=
  match read_text filepath w with
  | None => Raises (ReadError filepath) w
  | Some original_content =>
      let (content, fixes) := fix_content original_content in
      if text_eqb content original_content then Returns 0 w
      else if w_writable w filepath then
        Returns fixes
          (print (fixed_line fixes filepath) (write_text filepath content w))
      else Raises (WriteError filepath) w
  end.

Definition src_dir : path := lit "crates/zjj/src".

Definition error_line : text := lit "Error: " ++ src_dir ++ lit " does not exist".

Definition total_line (total_fixes : nat) : text :=
  newline :: lit "Total fixes: " ++ decimal total_fixes.

(** The loop of [main] over the files found. *)
Fixpoint fix_all (rs_files : list path) (total_fixes : nat) (w : world)
  : outcome nat :=
  match rs_files with
  | [] => Returns total_fixes w
  | rs_file :: rest =>
      match fix_file rs_file w with
      | Returns n w' => fix_all rest (total_fixes + n) w'
      | Raises e w' => Raises e w'
      | Exits c w' => Exits c w'
      end
  end.

Definition main (w : world) : outcome unit :=
  if negb (w_exists w src_dir) then Exits 1 (print error_line w)
  else
    match fix_all (w_rglob w src_dir) 0 w with
    | Returns total_fixes w' => Returns tt (print (total_line total_fixes) w')
    | Raises e w' => Raises e w'
    | Exits c w' => Exits c w'
    end.

(** The exit status of the process when [main] is run as the script: 0 when
    [main] returns, the argument of [sys.exit] when it is called, and 1 when
    an exception leaves [main]: the interpreter prints the traceback and
    ends the process with status 1. *)
Definition exit_status (o : outcome unit) : nat :=
  match o with
  | Returns _ _ => 0
  | Exits c _ => c
  | Raises _ _ => 1
  end.

(* ================================================================= *)
(** ** Notions used by the statements *)

(** A matcher is quiet on [s] when it matches at no offset of [s]. *)
Definition quiet (m : text -> option (nat * text)) (s : text) : Prop :=
  forall k, m (skipn k s) = None.

(** Matchers of patterns that consume at least one character. *)
Definition consuming (m : text -> option (nat * text)) : Prop :=
  forall s n a, m s = Some (n, a) -> 1 <= n <= length s.

Definition consuming_at (pm : nat -> text -> option Match) : Prop :=
  forall pos s mt,
    pm pos s = Some mt ->
    m_start mt = pos /\ pos < m_end mt /\ m_end mt <= pos + length s.

(** What a rule puts in the place of a match. *)
Definition rule_replacement (r : rule) : Match -> text :=
  match r with
  | Rule2 _ t => expand t
  | Rule3 _ f _ => f
  end.

(** [rewrites p f pos s s']: the text [s], which starts at offset [pos],
    becomes [s'] when some substrings of [s], each of them a match of [p] at
    its offset, are replaced by what [f] makes of the match object; all
    other characters are carried over, in order. *)
Inductive rewrites (p : regex) (f : Match -> text)
  : nat -> text -> text -> Prop :=
| rw_nil pos : rewrites p f pos [] []
| rw_keep pos c s s' :
    rewrites p f (S pos) s s' -> rewrites p f pos (c :: s) (c :: s')
| rw_match pos M s s' gs :
    match_here p (M ++ s) = Some (gs, length M) ->
    rewrites p f (pos + length M) s s' ->
    rewrites p f pos (M ++ s)
      (f (mkMatch pos (pos + length M) (M :: gs)) ++ s').

(** The state of the loop of [fix_file] when it reaches the rule of index
    [i], what that rule then adds to [fixes], and how many matches of its
    pattern the text holds at that moment. *)
Definition state_before (original_content : text) (i : nat) : text * nat :=
  fold_left (apply_rule original_content) (firstn i PATTERNS)
            (original_content, 0).

Definition accumulated (original_content : text) (i : nat) : nat :=
  snd (state_before original_content (S i))
  - snd (state_before original_content i).

Definition performed (original_content : text) (i : nat) : nat :=
  match nth_error PATTERNS i with
  | Some r =>
      length (re_finditer (rule_pattern r)
                          (fst (state_before original_content i)))
  | None => 0
  end.

(** Every file the walk meets can be read and written. *)
Definition accessible (w : world) (files : list path) : Prop :=
  forall f, In f files -> w_text w f <> None /\ w_writable w f = true.

(** Patterns that open with a literal character. *)
Definition leads (p : regex) : bool :=
  match p with
  | Chars (_ :: _) :: _ => true
  | _ => false
  end.

(** [clash a b]: [a] and [b] differ at an offset both have. *)
Fixpoint clash (a b : text) : bool :=
  match a, b with
  | x :: a', y :: b' => if N.eqb x y then clash a' b' else true
  | _, _ => false
  end.

(** Matchers whose matches and replacements all start with a dot. *)
Definition dotted (m : text -> option (nat * text)) : Prop :=
  forall s n r,
    m s = Some (n, r) ->
    hd_error s = Some "."%c /\ hd_error r = Some "."%c.

(** No replacement of [m], followed by the substitution of what follows
    its match, can stand where [u] stands. *)
Definition avoids (m : text -> option (nat * text)) (u : text) : Prop :=
  forall s n r x,
    m s = Some (n, r) -> u ++ x <> r ++ sub_scan m 0 (skipn n s).

(** The guarded literal patterns [L(?![.])] and their matchers. *)
Definition guarded_pat (L : text) : regex := [Chars L; NotFollowedBy dot].

Definition glit (L R : text) : text -> option (nat * text) :=
  replaced_by (guarded_pat L) (expand [TLit R]).

Definition starts_dot (l : text) : bool :=
  match l with
  | c :: _ => dot c
  | [] => false
  end.

(** A match of [L] cannot begin inside a replacement [R'] nor run into one:
    [L] clashes with every suffix of [R'], and every proper suffix of [L]
    clashes with [R']. *)
Definition pair_ok (L R' : text) : bool :=
  forallb (fun k => clash (skipn k L) R') (seq 1 (length L - 1))
  && forallb (fun k => clash L (skipn k R')) (seq 0 (length R')).

(** Does [p] match at the start of [s]? *)
Definition matches_here (p : regex) (s : text) : bool :=
  match match_here p s with
  | Some _ => true
  | None => false
  end.

(** The literal parts of the first rule. *)
Definition te_head : text := lit ".try_exists(".
Definition te_tail : text := lit ").await.unwrap_or(false)".
Definition te_done : text := lit ").await.map_or(false, |v| v)".

(** A replacement [R'] makes no match of the first rule: from its first
    closing parenthesis on, [R'] either stops or departs from [te_tail];
    [R'] cannot stand at a dot of [te_tail]; [te_head] cannot start inside
    [R']. *)
Definition te_ok (R' : text) : bool :=
  match snd (span not_close_paren R') with
  | [_] => true
  | r1 => clash te_tail r1
  end
  && forallb (fun k => negb (starts_dot (skipn k te_tail))
                       || clash (skipn k te_tail) R')
             (seq 0 (length te_tail))
  && forallb (fun i => clash te_head (skipn i R')) (seq 0 (length R')).

(** The literal parts of the callback rule's pattern. *)
Definition gs_head : text := lit ".get(".
Definition gs_tail : text := lit ").unwrap_or(&[])".

(** Replacements whose second character cannot follow a dot inside a match
    of the callback rule's pattern. *)
Definition second_char_ok (m : text -> option (nat * text)) : Prop :=
  forall s n r,
    m s = Some (n, r) ->
    exists a c r', r = a :: c :: r'
                   /\ dot c = false /\ digit c = false /\ c <> "u"%c.

(** A replacement [R'] makes no match of the callback rule's pattern. *)
Definition gs_ok (R' : text) : bool :=
  match R' with
  | _ :: c :: _ => negb (dot c) && negb (digit c) && negb (N.eqb c "u"%c)
  | _ => false
  end
  && forallb (fun i => clash gs_head (skipn i R')) (seq 0 (length R')).

(** The thirteen guarded literal rules of the catalogue, as pairs of the
    literal matched and the literal put in its place. *)
Definition guarded_rule (LR : text * text) : rule :=
  Rule2 (guarded_pat (fst LR)) [TLit (snd LR)].

Definition unwrap_or_args : list text :=
  [ lit "0"; lit "false"; [dq; dq]; dq :: lit "unknown" ++ [dq];
    dq :: lit "open" ++ [dq]; dq :: lit "-" ++ [dq]; lit "60"; lit "300";
    lit "30"; lit "1"; lit "i64::MAX"; lit "u64::MAX" ].

Definition guarded_literals : list (text * text) :=
  map (fun arg => (lit ".unwrap_or(" ++ arg ++ lit ")",
                   lit ".map_or(" ++ arg ++ lit ", |v| v)")) unwrap_or_args
  ++ [(lit ".await.unwrap_or_default()",
       lit ".await.map_or_else(|_| Vec::new(), |v| v)")].

(** The checks on the literals of the catalogue that the preservation
    lemmas ask for. *)
Definition catalogue_ok : bool :=
  forallb (fun LR =>
             starts_dot (fst LR) && starts_dot (snd LR)
             && te_ok (snd LR) && gs_ok (snd LR)
             && forallb (fun LR' => pair_ok (fst LR') (snd LR))
                        guarded_literals)
          guarded_literals.

(** No rule's pattern matches in [s] at an offset other than [p0]. *)
Definition no_match_except (s : text) (p0 : nat) : bool :=
  forallb (fun r =>
             forallb (fun i => (i =? p0)
                               || negb (matches_here (rule_pattern r)
                                                     (skipn i s)))
                     (seq 0 (length s)))
          PATTERNS.

(** [L] has at least two characters; no proper suffix of [L] starts another
    occurrence of [L], nor is a lone dot. *)
Definition chain_ok (L : text) : bool :=
  (1 <? length L)
  && forallb (fun j => clash (skipn j L) L
                    && match strip_prefix (skipn j L) ["."%c] with
                       | None => true
                       | Some _ => false
                       end)
          (seq 1 (length L - 1)).

(** A machine whose only readable file is [filepath]. *)
Definition single_file (root_exists : bool) (filepath : path)
  (content : text) : world :=
  mkWorld (fun _ => root_exists) (fun _ => [filepath])
          (fun q => if text_eqb q filepath then Some content else None)
          (fun _ => true) [newline] [] [].

(** Matchers whose replacement is longer than what it replaces. *)
Definition growing (m : text -> option (nat * text)) : Prop :=
  forall s n r, m s = Some (n, r) -> n < length r.

Definition growing_at (p : regex) (f : Match -> text) : Prop :=
  forall s gs n pos,
    match_here p s = Some (gs, n) ->
    n < length (f (mkMatch pos (pos + n) (firstn n s :: gs))).

Definition rule_grows (r : rule) : Prop :=
  match r with
  | Rule2 p t => leads p = true /\ growing (replaced_by p (expand t))
  | Rule3 p f _ => leads p = true /\ growing_at p f
  end.

(** Does the text [u] occur in [s]? *)
Fixpoint occurs (u s : text) : bool :=
  match strip_prefix u s with
  | Some _ => true
  | None =>
      match s with
      | [] => false
      | _ :: t => occurs u t
      end
  end.

(** Would [fix_file] change the file [f] of [w]? *)
Definition changed (w : world) (f : path) : bool :=
  match read_text f w with
  | Some content => negb (text_eqb (fst (fix_content content)) content)
  | None => false
  end.

(** Does [fix_file] raise on the file [f] of [w]?  It does when the file
    cannot be read, and when its text changes and it cannot be written. *)
Definition fails (w : world) (f : path) : bool :=
  match read_text f w with
  | None => true
  | Some _ => changed w f && negb (w_writable w f)
  end.

(** The world a call leaves behind, however it ends. *)
Definition world_of {A} (o : outcome A) : world :=
  match o with
  | Returns _ w => w
  | Raises _ w => w
  | Exits _ w => w
  end.

(** What [fix_file] returns for [f] in the world [w]. *)
Definition file_count (w : world) (f : path) : nat :=
  match read_text f w with
  | Some content =>
      if text_eqb (fst (fix_content content)) content then 0
      else snd (fix_content content)
  | None => 0
  end.

(** The matcher of a rule: the length of its match at the start of a text
    and what the rule puts in its place. *)
Definition rule_matcher (r : rule) : text -> option (nat * text) :=
  replaced_by (rule_pattern r) (rule_replacement r).

(** The text after the rules [rs], one after the other. *)
Definition run_rules (rs : list rule) (content : text) : text :=
  fold_left (fun c r => sub_scan (rule_matcher r) 0 c) rs content.

(** A replacement that reads the groups of the match object only. *)
Definition reads_groups (f : Match -> text) : Prop :=
  forall a b a' b' gs, f (mkMatch a b gs) = f (mkMatch a' b' gs).

(** [carries m W W']: wherever [W] stands in a text, the substitution of [m]
    puts [W'] in its place, rewrites what comes before without looking
    further than [W], and rewrites what comes after as if it stood alone. *)
Definition carries (m : text -> option (nat * text)) (W W' : text) : Prop :=
  forall pre, exists pre', forall post,
    sub_scan m 0 (pre ++ W ++ post) = pre' ++ W' ++ sub_scan m 0 post.

(** No occurrence of the literal [L] can overlap a segment [W]: no suffix
    of [L] fits the start of [W], and [L] fits at no offset of [W]. *)
Definition clear_of (L W : text) : bool :=
  forallb (fun k => clash (skipn k L) W) (seq 0 (length L))
  && forallb (fun i => clash L (skipn i W)) (seq 0 (length W)).

(** No match of the first rule's pattern can overlap [W]: [W] has a closing
    parenthesis, and from the first one on it departs from [te_tail]; no
    proper suffix of [te_tail] fits the start of [W]; [te_head] fits at no
    offset of [W]. *)
Definition te_clear (W : text) : bool :=
  clash te_tail (snd (span not_close_paren W))
  && forallb (fun k => clash (skipn k te_tail) W) (seq 1 (length te_tail - 1))
  && forallb (fun i => clash te_head (skipn i W)) (seq 0 (length W)).

(** The characters a match of the callback rule's pattern is made of. *)
Definition gs_char (c : char) : bool :=
  digit c || existsb (N.eqb c) (gs_head ++ lit "." ++ gs_tail).

(** No match of the callback rule's pattern can overlap [W]: the first
    character of [W] is none of a match, and [gs_head] fits at no offset
    of [W]. *)
Definition gs_clear (W : text) : bool :=
  match W with
  | c :: _ => negb (gs_char c)
  | [] => false
  end
  && forallb (fun i => clash gs_head (skipn i W)) (seq 0 (length W)).

(** [L] ends with its only closing parenthesis. *)
Definition ends_paren (L : text) : bool :=
  match rev L with
  | c :: r => N.eqb c ")"%c && forallb not_close_paren r
  | [] => false
  end.

(** The literal [L] can overlap neither end of a rewritten occurrence of
    the first rule: no suffix of [L] fits the start of [te_head], and [L]
    fits at no offset of [te_done]. *)
Definition done_clear (L : text) : bool :=
  forallb (fun k => clash (skipn k L) te_head) (seq 0 (length L))
  && forallb (fun j => clash L (skipn j te_done)) (seq 0 (length te_done))
  && ends_paren L.

(** The literal parts of the callback rule's replacement. *)
Definition slice_open : text := lit "{match .get(".
Definition slice_close : text :=
  lit ") { Some(slice) => slice, None => &[], }".

(** [chained_here L s]: [s] starts with the literal [L] and a match of the
    callback rule's pattern follows it at once. *)
Definition chained_here (L s : text) : bool :=
  match strip_prefix L s with
  | Some t => matches_here get_slice_pat t
  | None => false
  end.

(** Does [g] hold of a suffix of [s]? *)
Fixpoint anywhere (g : text -> bool) (s : text) : bool :=
  g s || match s with
         | [] => false
         | _ :: t => anywhere g t
         end.

(** Somewhere in [s] a slice access follows at once an occurrence of the
    literal of a guarded rule. *)
Definition chained_slice (s : text) : bool :=
  existsb (fun LR => anywhere (chained_here (fst LR)) s) guarded_literals.

(** The second character of [L] is none that follows a dot inside the
    callback rule's replacement, and [L] has no opening brace. *)
Definition brace_ok (L : text) : bool :=
  match L with
  | _ :: c :: _ => negb (N.eqb c "g"%c) && negb (dot c) && negb (digit c)
  | _ => false
  end
  && forallb (fun c => negb (N.eqb c "{"%c)) L.

(* ================================================================= *)
(** * Properties *)

(** ** Texts and literals *)

Lemma text_eqb_refl (a : text) : text_eqb a a = true.
Proof. unfold text_eqb. destruct (list_eq_dec N.eq_dec a a); congruence. Qed.

Lemma text_eqb_eq (a b : text) : text_eqb a b = true <-> a = b.
Proof.
  unfold text_eqb. destruct (list_eq_dec N.eq_dec a b); split; congruence.
Qed.

Lemma text_eqb_neq (a b : text) : text_eqb a b = false <-> a <> b.
Proof.
  unfold text_eqb. destruct (list_eq_dec N.eq_dec a b); split; congruence.
Qed.

Lemma strip_prefix_app (p r : text) : strip_prefix p (p ++ r) = Some r.
Proof.
  induction p as [|a p IH]; simpl; [reflexivity|].
  rewrite N.eqb_refl. exact IH.
Qed.

Lemma strip_prefix_inv (p s r : text) :
  strip_prefix p s = Some r -> s = p ++ r.
Proof.
  revert s. induction p as [|a p IH]; simpl; intros s H.
  - congruence.
  - destruct s as [|b s]; [discriminate|].
    destruct (N.eqb a b) eqn:E; [|discriminate].
    apply N.eqb_eq in E. subst b. f_equal. auto.
Qed.

Lemma span_app (cls : char -> bool) (s : text) :
  fst (span cls s) ++ snd (span cls s) = s.
Proof.
  induction s as [|c s IH]; simpl; [reflexivity|].
  destruct (cls c); simpl; [|reflexivity].
  destruct (span cls s) as [g r]. simpl in *. congruence.
Qed.

Lemma span_all (cls : char -> bool) (s : text) :
  forallb cls (fst (span cls s)) = true.
Proof.
  induction s as [|c s IH]; simpl; [reflexivity|].
  destruct (cls c) eqn:E; simpl; [|reflexivity].
  destruct (span cls s) as [g r]. simpl in *. now rewrite E.
Qed.

(** A run of the class followed by a character outside it is what [span]
    takes. *)
Lemma span_run (cls : char -> bool) (g : text) (c : char) (r : text) :
  forallb cls g = true -> cls c = false ->
  span cls (g ++ c :: r) = (g, c :: r).
Proof.
  intros Hg Hc. induction g as [|a g IH]; simpl in *.
  - now rewrite Hc.
  - apply andb_true_iff in Hg as [Ha Hg]. rewrite Ha, (IH Hg). reflexivity.
Qed.

(** [match_here] never consumes more than there is. *)
Lemma match_here_le (p : regex) (s : text) gs n :
  match_here p s = Some (gs, n) -> n <= length s.
Proof.
  revert s gs n. induction p as [|a p IH]; simpl; intros s gs n H.
  - inversion H. lia.
  - destruct a as [l|cls|cls].
    + destruct (strip_prefix l s) as [s'|] eqn:E; [|discriminate].
      destruct (match_here p s') as [[gs' n']|] eqn:E'; [|discriminate].
      inversion H; subst. apply strip_prefix_inv in E. subst s.
      rewrite length_app. apply IH in E'. lia.
    + pose proof (span_app cls s) as Hs.
      destruct (span cls s) as [g s'] eqn:E. simpl in Hs.
      destruct g as [|c g]; [discriminate|].
      destruct (match_here p s') as [[gs' n']|] eqn:E'; [|discriminate].
      inversion H; subst. rewrite length_app. apply IH in E'.
      simpl in *. lia.
    + destruct s as [|c s]; [eauto|].
      destruct (cls c); [discriminate|eauto].
Qed.

(** ** The scanner *)

Section ScanFacts.

Variable pm : nat -> text -> option Match.
Variable f : Match -> text.

Lemma scan_skip pos k s :
  scan pm pos k s = scan pm (pos + k) 0 (skipn k s).
Proof.
  revert pos k. induction s as [|c t IH]; intros pos k.
  - now destruct k.
  - destruct k as [|k].
    + now rewrite Nat.add_0_r.
    + simpl. rewrite IH. f_equal. lia.
Qed.

Lemma sub_scan_at_skip pos k s :
  sub_scan_at pm f pos k s = sub_scan_at pm f (pos + k) 0 (skipn k s).
Proof.
  revert pos k. induction s as [|c t IH]; intros pos k.
  - now destruct k.
  - destruct k as [|k].
    + now rewrite Nat.add_0_r.
    + simpl. rewrite IH. f_equal. lia.
Qed.

Lemma scan_match pos s mt :
  consuming_at pm -> pm pos s = Some mt ->
  scan pm pos 0 s = mt :: scan pm (m_end mt) 0 (skipn (m_end mt - pos) s).
Proof.
  intros Hm E. destruct (Hm _ _ _ E) as (H0 & H1 & H2).
  destruct s as [|c t]; [simpl in H2; lia|].
  simpl. rewrite E, scan_skip.
  destruct (m_end mt - pos) as [|n] eqn:En; [lia|].
  simpl. do 2 f_equal. lia.
Qed.

Lemma sub_scan_at_match pos s mt :
  consuming_at pm -> pm pos s = Some mt ->
  sub_scan_at pm f pos 0 s
  = f mt ++ sub_scan_at pm f (m_end mt) 0 (skipn (m_end mt - pos) s).
Proof.
  intros Hm E. destruct (Hm _ _ _ E) as (H0 & H1 & H2).
  destruct s as [|c t]; [simpl in H2; lia|].
  simpl. rewrite E, sub_scan_at_skip.
  destruct (m_end mt - pos) as [|n] eqn:En; [lia|].
  simpl. do 2 f_equal. lia.
Qed.

Lemma scan_copy pos c t :
  pm pos (c :: t) = None -> scan pm pos 0 (c :: t) = scan pm (S pos) 0 t.
Proof. intros E. simpl. now rewrite E. Qed.

Lemma sub_scan_at_copy pos c t :
  pm pos (c :: t) = None ->
  sub_scan_at pm f pos 0 (c :: t) = c :: sub_scan_at pm f (S pos) 0 t.
Proof. intros E. simpl. now rewrite E. Qed.

End ScanFacts.

Section QuietFacts.

Variable m : text -> option (nat * text).

Lemma quiet_nil_cons c t : quiet m (c :: t) -> m (c :: t) = None /\ quiet m t.
Proof.
  intros H. split; [exact (H 0)|]. intros k. exact (H (S k)).
Qed.

Lemma quiet_cons c t : m (c :: t) = None -> quiet m t -> quiet m (c :: t).
Proof. intros H0 H [|k]; [exact H0|exact (H k)]. Qed.

Lemma quiet_skipn k s : quiet m s -> quiet m (skipn k s).
Proof. intros H j. rewrite skipn_skipn. apply H. Qed.

End QuietFacts.

Section SubFacts.

Variable m : text -> option (nat * text).

Lemma sub_scan_skip k s : sub_scan m k s = sub_scan m 0 (skipn k s).
Proof.
  revert k. induction s as [|c t IH]; intros k.
  - now destruct k.
  - destruct k as [|k]; [reflexivity|]. simpl. apply IH.
Qed.

Lemma sub_scan_match s n r :
  consuming m -> m s = Some (n, r) ->
  sub_scan m 0 s = r ++ sub_scan m 0 (skipn n s).
Proof.
  intros Hm E. destruct (Hm _ _ _ E) as [H1 H2].
  destruct s as [|c t]; [simpl in H2; lia|].
  simpl. rewrite E, sub_scan_skip. destruct n as [|n]; [lia|]. reflexivity.
Qed.

Lemma sub_scan_copy c t :
  m (c :: t) = None -> sub_scan m 0 (c :: t) = c :: sub_scan m 0 t.
Proof. intros E. simpl. now rewrite E. Qed.

Lemma quiet_sub s : quiet m s -> sub_scan m 0 s = s.
Proof.
  induction s as [|c t IH]; intros H; [reflexivity|].
  apply quiet_nil_cons in H as [H0 H]. rewrite sub_scan_copy; auto.
  f_equal; auto.
Qed.

End SubFacts.

(** ** Patterns as matchers *)

Lemma match_at_none p pos s : match_at p pos s = None <-> match_here p s = None.
Proof.
  unfold match_at. destruct (match_here p s) as [[gs n]|]; split; congruence.
Qed.

Lemma replaced_by_none p f s :
  replaced_by p f s = None <-> match_here p s = None.
Proof.
  unfold replaced_by, match_at.
  destruct (match_here p s) as [[gs n]|]; split; congruence.
Qed.

Lemma replaced_by_some p f s n r :
  replaced_by p f s = Some (n, r) <->
  exists gs, match_here p s = Some (gs, n)
             /\ r = f (mkMatch 0 n (firstn n s :: gs)).
Proof.
  unfold replaced_by, match_at.
  destruct (match_here p s) as [[gs k]|]; simpl; split.
  - intros H. inversion H; subst. eauto.
  - intros [gs' [H ->]]. inversion H; subst. reflexivity.
  - discriminate.
  - intros [gs' [H _]]. discriminate.
Qed.

Lemma re_search_none p s :
  re_search p s = false <-> forall k, match_here p (skipn k s) = None.
Proof.
  split.
  - induction s as [|c t IH]; simpl; intros H.
    + destruct (match_here p []) eqn:E; [discriminate|].
      intros [|k]; exact E.
    + destruct (match_here p (c :: t)) eqn:E; [discriminate|].
      intros [|k]; [exact E|]. apply (IH H).
  - induction s as [|c t IH]; simpl; intros H.
    + pose proof (H 0) as H0. simpl in H0. now rewrite H0.
    + pose proof (H 0) as H0. simpl in H0. rewrite H0.
      apply IH. intros k. exact (H (S k)).
Qed.

Lemma quiet_replaced_by p f s :
  re_search p s = false <-> quiet (replaced_by p f) s.
Proof.
  rewrite re_search_none. unfold quiet.
  split; intros H k; apply (replaced_by_none p f), H.
Qed.

Lemma re_sub_quiet p t s : re_search p s = false -> re_sub p t s = s.
Proof. intros H. apply quiet_sub, quiet_replaced_by, H. Qed.

Lemma scan_quiet p s pos :
  (forall k, match_here p (skipn k s) = None) ->
  scan (match_at p) pos 0 s = [].
Proof.
  revert pos. induction s as [|c t IH]; intros pos H; [reflexivity|].
  rewrite scan_copy by (apply match_at_none, (H 0)).
  apply IH. intros k. exact (H (S k)).
Qed.

Lemma sub_scan_at_quiet p f s pos :
  (forall k, match_here p (skipn k s) = None) ->
  sub_scan_at (match_at p) f pos 0 s = s.
Proof.
  revert pos. induction s as [|c t IH]; intros pos H; [reflexivity|].
  rewrite sub_scan_at_copy by (apply match_at_none, (H 0)).
  f_equal. apply IH. intros k. exact (H (S k)).
Qed.

Lemma re_finditer_quiet p s : re_search p s = false -> re_finditer p s = [].
Proof. rewrite re_search_none. apply scan_quiet. Qed.

Lemma re_sub_fn_quiet p f s : re_search p s = false -> re_sub_fn p f s = s.
Proof. rewrite re_search_none. apply sub_scan_at_quiet. Qed.

(** A rule whose pattern matches nowhere leaves text and count alone. *)
Lemma apply_rule_quiet original content fixes r :
  re_search (rule_pattern r) content = false ->
  apply_rule original (content, fixes) r = (content, fixes).
Proof.
  intros H. destruct r as [p t|p f [|]]; simpl in *.
  - now rewrite re_sub_quiet, text_eqb_refl.
  - now rewrite re_finditer_quiet.
  - now rewrite re_sub_fn_quiet, text_eqb_refl.
Qed.

Lemma fold_apply_rule_quiet original content fixes rs :
  (forall r, In r rs -> re_search (rule_pattern r) content = false) ->
  fold_left (apply_rule original) rs (content, fixes) = (content, fixes).
Proof.
  induction rs as [|r rs IH]; intros H; [reflexivity|].
  cbn [fold_left]. rewrite apply_rule_quiet by (apply H; now left).
  apply IH. intros r' Hr'. apply H. now right.
Qed.

(** ** Files without any match *)

(** C6: a file whose text, as [read_text] gives it, matches no rule's
    pattern is not written, no line is printed for it, and [fix_file]
    returns 0: the world (the characters of every file, the write log, the
    standard output) comes back as it was. *)
Theorem fix_file_no_match (filepath : path) (w : world) (content : text) :
  read_text filepath w = Some content ->
  (forall r, In r PATTERNS -> re_search (rule_pattern r) content = false) ->
  fix_content content = (content, 0) /\ fix_file filepath w = Returns 0 w.
Proof.
  intros Hread Hq.
  assert (Hc : fix_content content = (content, 0))
    by (apply fold_apply_rule_quiet, Hq).
  split; [exact Hc|].
  unfold fix_file. now rewrite Hread, Hc, text_eqb_refl.
Qed.

(** ** Inversion and construction of matches, atom by atom *)

Lemma match_here_Chars_inv l p s gs n :
  match_here (Chars l :: p) s = Some (gs, n) ->
  exists s' n', s = l ++ s' /\ match_here p s' = Some (gs, n')
                /\ n = length l + n'.
Proof.
  simpl. destruct (strip_prefix l s) as [s'|] eqn:E; [|discriminate].
  destruct (match_here p s') as [[gs' n']|] eqn:E'; [|discriminate].
  intros H. inversion H; subst. apply strip_prefix_inv in E.
  exists s', n'. auto.
Qed.

Lemma match_here_Group_inv cls p s gs n :
  match_here (Group cls :: p) s = Some (gs, n) ->
  exists g s' gs' n',
    g <> [] /\ forallb cls g = true /\ span cls s = (g, s') /\ s = g ++ s'
    /\ match_here p s' = Some (gs', n') /\ gs = g :: gs'
    /\ n = length g + n'.
Proof.
  simpl. pose proof (span_app cls s) as Hs. pose proof (span_all cls s) as Ha.
  destruct (span cls s) as [g s'] eqn:E. simpl in Hs, Ha.
  destruct g as [|c g]; [discriminate|].
  destruct (match_here p s') as [[gs' n']|] eqn:E'; [|discriminate].
  intros H. inversion H; subst.
  exists (c :: g), s', gs', n'. repeat split; auto. discriminate.
Qed.

Lemma match_here_NotFollowedBy_inv cls p s gs n :
  match_here (NotFollowedBy cls :: p) s = Some (gs, n) ->
  match_here p s = Some (gs, n)
  /\ match s with [] => True | c :: _ => cls c = false end.
Proof.
  simpl. destruct s as [|c s]; [auto|].
  destruct (cls c); [discriminate|auto].
Qed.

Lemma match_here_Chars_app l p s :
  match_here (Chars l :: p) (l ++ s) =
  match match_here p s with
  | Some (gs, n) => Some (gs, length l + n)
  | None => None
  end.
Proof. simpl. now rewrite strip_prefix_app. Qed.

Lemma match_here_Group_run cls p g c r :
  g <> [] -> forallb cls g = true -> cls c = false ->
  match_here (Group cls :: p) (g ++ c :: r) =
  match match_here p (c :: r) with
  | Some (gs, n) => Some (g :: gs, length g + n)
  | None => None
  end.
Proof.
  intros Hne Hg Hc. simpl. rewrite (span_run cls g c r Hg Hc).
  destruct g; [congruence|reflexivity].
Qed.

Lemma digit_not (c : char) (g : text) :
  digit c = false -> forallb digit g = true -> count_occ N.eq_dec g c = 0.
Proof.
  intros Hc Hg. apply count_occ_not_In. intros Hin.
  rewrite forallb_forall in Hg. apply Hg in Hin. congruence.
Qed.

(** ** The callback rule's replacement text *)

(** C10: the callback rule matches exactly the texts
    [.get(A..B).unwrap_or(&[])] with [A] and [B] non-empty runs of digits,
    and for each such match the replacement is
    [{match .get(A..B) { Some(slice) => slice, None => &[], }]: it starts
    with an opening brace instead of the dot of the call, has two opening
    braces and one closing brace. *)
Theorem get_slice_replacement :
  (forall (A B rest : text) (pos : nat),
     A <> [] -> B <> [] ->
     forallb digit A = true -> forallb digit B = true ->
     exists mt,
       match_at get_slice_pat pos
         (lit ".get(" ++ A ++ lit ".." ++ B ++ lit ").unwrap_or(&[])" ++ rest)
       = Some mt
       /\ group mt 1 = A /\ group mt 2 = B)
  /\
  (forall (s : text) (pos : nat) (mt : Match),
     match_at get_slice_pat pos s = Some mt ->
     exists A B rest,
       A <> [] /\ B <> []
       /\ forallb digit A = true /\ forallb digit B = true
       /\ s = lit ".get(" ++ A ++ lit ".." ++ B
                ++ lit ").unwrap_or(&[])" ++ rest
       /\ group mt 0 = lit ".get(" ++ A ++ lit ".." ++ B
                         ++ lit ").unwrap_or(&[])"
       /\ group mt 1 = A /\ group mt 2 = B
       /\ get_slice_fn mt =
            lit "{match .get(" ++ A ++ lit ".." ++ B
              ++ lit ") { Some(slice) => slice, None => &[], }"
       /\ hd_error (get_slice_fn mt) = Some "{"%c
       /\ count_occ N.eq_dec (get_slice_fn mt) "{"%c = 2
       /\ count_occ N.eq_dec (get_slice_fn mt) "}"%c = 1).
Proof.
  split.
  - intros A B rest pos HA HB HdA HdB.
    unfold match_at, get_slice_pat.
    rewrite match_here_Chars_app.
    change (lit ".." ++ B ++ lit ").unwrap_or(&[])" ++ rest)
      with ("."%c :: ("."%c :: B ++ lit ").unwrap_or(&[])" ++ rest)).
    rewrite match_here_Group_run by (assumption || reflexivity).
    change ("."%c :: "."%c :: B ++ lit ").unwrap_or(&[])" ++ rest)
      with (lit ".." ++ B ++ lit ").unwrap_or(&[])" ++ rest).
    rewrite match_here_Chars_app.
    change (lit ").unwrap_or(&[])" ++ rest)
      with (")"%c :: (lit ".unwrap_or(&[])" ++ rest)).
    rewrite match_here_Group_run by (assumption || reflexivity).
    change (")"%c :: (lit ".unwrap_or(&[])" ++ rest))
      with (lit ").unwrap_or(&[])" ++ rest).
    rewrite match_here_Chars_app. simpl match_here.
    eexists. split; [reflexivity|]. split; reflexivity.
  - intros s pos mt H. unfold match_at in H.
    destruct (match_here get_slice_pat s) as [[gs n]|] eqn:E; [|discriminate].
    inversion H; subst mt; clear H. unfold get_slice_pat in E.
    apply match_here_Chars_inv in E as (s1 & n1 & -> & E & ->).
    apply match_here_Group_inv in E
      as (A & s2 & gs2 & n2 & HA & HdA & _ & -> & E & -> & ->).
    apply match_here_Chars_inv in E as (s3 & n3 & -> & E & ->).
    apply match_here_Group_inv in E
      as (B & s4 & gs4 & n4 & HB & HdB & _ & -> & E & -> & ->).
    apply match_here_Chars_inv in E as (rest & n5 & -> & E & ->).
    simpl in E. inversion E; subst gs4 n5; clear E.
    exists A, B, rest. repeat (split; [assumption|]).
    split; [reflexivity|]. split.
    { unfold group. cbn [m_groups nth].
      replace (length (lit ".get(") + (length A + (length (lit "..")
                 + (length B + (length (lit ").unwrap_or(&[])") + 0)))))
        with (length (lit ".get(" ++ A ++ lit ".." ++ B
                        ++ lit ").unwrap_or(&[])") + 0)
        by (rewrite !length_app; lia).
      rewrite !app_assoc. rewrite firstn_app_2. simpl firstn.
      now rewrite app_nil_r, <- !app_assoc. }
    split; [reflexivity|]. split; [reflexivity|].
    split; [reflexivity|]. split; [reflexivity|].
    unfold get_slice_fn, group. cbn [m_groups nth].
    rewrite !count_occ_app.
    rewrite (digit_not "{"%c A), (digit_not "{"%c B),
      (digit_not "}"%c A), (digit_not "}"%c B)
      by (assumption || reflexivity).
    split; reflexivity.
Qed.

(** ** The entry point *)

(** [fix_file], case by case. *)
Lemma fix_file_run (f : path) (w : world) :
  fix_file f w =
  match read_text f w with
  | None => Raises (ReadError f) w
  | Some content =>
      if changed w f then
        if w_writable w f then
          Returns (snd (fix_content content))
            (print (fixed_line (snd (fix_content content)) f)
               (write_text f (fst (fix_content content)) w))
        else Raises (WriteError f) w
      else Returns 0 w
  end.
Proof.
  unfold fix_file, changed.
  destruct (read_text f w) as [content|]; [|reflexivity].
  destruct (fix_content content) as [c n]. cbn [fst snd].
  destruct (text_eqb c content); reflexivity.
Qed.

Lemma fix_file_fails (f : path) (w : world) :
  if fails w f then exists e, fix_file f w = Raises e w
  else exists n w', fix_file f w = Returns n w'.
Proof.
  rewrite fix_file_run. unfold fails.
  destruct (read_text f w) as [content|]; [|eauto].
  destruct (changed w f); cbn [andb]; [|eauto].
  destruct (w_writable w f); cbn [negb]; eauto.
Qed.

(** What one call of [fix_file] leaves of the world. *)
Lemma fix_file_world (f : path) (w : world) :
  world_of (fix_file f w) = w
  \/ exists content,
       read_text f w = Some content /\ changed w f = true
       /\ world_of (fix_file f w)
          = print (fixed_line (snd (fix_content content)) f)
              (write_text f (fst (fix_content content)) w).
Proof.
  rewrite fix_file_run. destruct (read_text f w) as [content|] eqn:E;
    [|now left].
  destruct (changed w f) eqn:C; [|now left].
  destruct (w_writable w f); [|now left].
  right. exists content. auto.
Qed.

Lemma fix_file_frame (f : path) (w : world) :
  w_exists (world_of (fix_file f w)) = w_exists w
  /\ w_rglob (world_of (fix_file f w)) = w_rglob w
  /\ w_writable (world_of (fix_file f w)) = w_writable w
  /\ w_linesep (world_of (fix_file f w)) = w_linesep w
  /\ (forall q, q <> f -> w_text (world_of (fix_file f w)) q = w_text w q)
  /\ (forall q, w_text w q = None -> w_text (world_of (fix_file f w)) q = None)
  /\ (forall q, In q (w_writes (world_of (fix_file f w))) ->
        In q (w_writes w) \/ q = f)
  /\ length (w_stdout (world_of (fix_file f w))) + length (w_writes w)
     = length (w_writes (world_of (fix_file f w))) + length (w_stdout w).
Proof.
  destruct (fix_file_world f w) as [->|(content & E & _ & ->)].
  - split; [reflexivity|]. split; [reflexivity|]. split; [reflexivity|].
    split; [reflexivity|]. split; [reflexivity|]. split; [auto|].
    split; [auto|]. lia.
  - cbn [print write_text w_exists w_rglob w_writable w_linesep w_text
         w_writes w_stdout].
    split; [reflexivity|]. split; [reflexivity|]. split; [reflexivity|].
    split; [reflexivity|]. split; [|split; [|split]].
    + intros q Hq. apply text_eqb_neq in Hq. now rewrite Hq.
    + intros q Hq. destruct (text_eqb q f) eqn:Q; [|exact Hq].
      apply text_eqb_eq in Q. subst q. unfold read_text in E.
      rewrite Hq in E. discriminate.
    + intros q [<-|Hq]; auto.
    + simpl. lia.
Qed.

Lemma fix_file_never_exits (f : path) (w : world) c w' :
  fix_file f w <> Exits c w'.
Proof.
  rewrite fix_file_run. destruct (read_text f w); [|discriminate].
  destruct (changed w f); [|discriminate].
  destruct (w_writable w f); discriminate.
Qed.

Lemma fix_all_never_exits (files : list path) (total : nat) (w : world) c w' :
  fix_all files total w <> Exits c w'.
Proof.
  revert total w. induction files as [|f files IH]; intros total w; simpl.
  - discriminate.
  - destruct (fix_file f w) as [n w1|e w1|c1 w1] eqn:E.
    + apply IH.
    + discriminate.
    + now apply fix_file_never_exits in E.
Qed.

(** What [fix_file] reads and decides for a file depends on the
    characters of that file and on whether it can be written. *)
Lemma same_file (w w1 : world) (q : path) :
  w_text w1 q = w_text w q -> w_writable w1 = w_writable w ->
  read_text q w1 = read_text q w /\ changed w1 q = changed w q
  /\ fails w1 q = fails w q.
Proof.
  intros H Hw. unfold fails, changed, read_text. now rewrite H, Hw.
Qed.

(** With every file met once, the loop of [main] runs to its end exactly
    when no file fails. *)
Lemma fix_all_outcome (files : list path) : forall (total : nat) (w : world),
  NoDup files ->
  if existsb (fails w) files
  then exists e w', fix_all files total w = Raises e w'
  else exists total' w', fix_all files total w = Returns total' w'.
Proof.
  induction files as [|f rest IH]; intros total w Hnd; [simpl; eauto|].
  inversion Hnd as [|f' rest' Hf Hnd']; subst f' rest'.
  cbn [existsb fix_all]. pose proof (fix_file_fails f w) as Hff.
  destruct (fails w f); cbn [orb].
  - destruct Hff as (e & ->). eauto.
  - destruct Hff as (n & w1 & E). rewrite E.
    destruct (fix_file_frame f w) as (_ & _ & A3 & _ & A5 & _).
    rewrite E in A3, A5. cbn [world_of] in A3, A5.
    assert (X : existsb (fails w1) rest = existsb (fails w) rest).
    { clear -Hf A3 A5. induction rest as [|q rest IH]; [reflexivity|].
      cbn [existsb]. rewrite IH by (intros H; apply Hf; now right).
      f_equal. apply same_file; [|exact A3].
      apply A5. intros ->. apply Hf. now left. }
    rewrite <- X. apply IH, Hnd'.
Qed.

(** C8, as the code has it: the script ends with status 1 not only when
    the root directory is missing (the error line is then printed and
    nothing else happens) but also when reading or writing a file raises;
    it ends with status 0 exactly when the root exists and no file fails,
    whatever the total (zero included), after printing the total. *)
Theorem main_exit_status (w : world) :
  NoDup (w_rglob w src_dir) ->
  (exit_status (main w) = 1
   <-> w_exists w src_dir = false
       \/ existsb (fails w) (w_rglob w src_dir) = true)
  /\ (exit_status (main w) = 0
      <-> w_exists w src_dir = true
          /\ existsb (fails w) (w_rglob w src_dir) = false)
  /\ (w_exists w src_dir = false -> main w = Exits 1 (print error_line w))
  /\ (w_exists w src_dir = true ->
      existsb (fails w) (w_rglob w src_dir) = false ->
      exists total w',
        fix_all (w_rglob w src_dir) 0 w = Returns total w'
        /\ main w = Returns tt (print (total_line total) w'))
  /\ (w_exists w src_dir = true ->
      existsb (fails w) (w_rglob w src_dir) = true ->
      exists e w',
        fix_all (w_rglob w src_dir) 0 w = Raises e w'
        /\ main w = Raises e w').
Proof.
  intros Hnd. pose proof (fix_all_outcome (w_rglob w src_dir) 0 w Hnd) as Ho.
  unfold main. destruct (w_exists w src_dir) eqn:Hroot; cbn [negb].
  - destruct (existsb (fails w) (w_rglob w src_dir)).
    + destruct Ho as (e & w' & ->). cbn [exit_status].
      split; [split; auto|].
      split; [split; [discriminate|intros [_ H]; discriminate H]|].
      split; [discriminate|].
      split; [intros _ H; discriminate H|].
      intros _ _. exists e, w'. auto.
    + destruct Ho as (t & w' & ->). cbn [exit_status].
      split; [split; [discriminate|intros [H|H]; discriminate H]|].
      split; [split; auto|]. split; [discriminate|].
      split; [|intros _ H; discriminate H].
      intros _ _. exists t, w'. auto.
  - cbn [exit_status].
    split; [split; auto|].
    split; [split; [discriminate|intros [H _]; discriminate H]|].
    split; [reflexivity|].
    split; intros H; discriminate H.
Qed.

(** C8, the counterexample: the root directory exists and the one file
    found cannot be read; [read_text] raises, nothing is printed, and the
    process ends with status 1. *)
Lemma unreadable_file_exit_status :
  let w := mkWorld (fun _ => true) (fun _ => [lit "a.rs"]) (fun _ => None)
                   (fun _ => true) [newline] [] [] in
  w_exists w src_dir = true
  /\ main w = Raises (ReadError (lit "a.rs")) w
  /\ exit_status (main w) = 1.
Proof. repeat split. Qed.

(** ** Counting on the original text *)

(** C3 (what the code does instead): on the text
    [a.try_exists(p).await.unwrap_or(false); b.unwrap_or(false);] the third
    rule ([.unwrap_or(false)]) finds one match in the text as it stands when
    the rule is applied, and performs that one replacement, but adds 2 to
    the count, the number of its matches in the original text; [fix_file]
    reports 3 fixes for 2 replacements. *)
Theorem count_from_original_text :
  let original := lit "a.try_exists(p).await.unwrap_or(false); b.unwrap_or(false);" in
  fst (state_before original 2)
    = lit "a.try_exists(p).await.map_or(false, |v| v); b.unwrap_or(false);"
  /\ performed original 2 = 1
  /\ accumulated original 2 = 2
  /\ fix_content original
     = (lit "a.try_exists(p).await.map_or(false, |v| v); b.map_or(false, |v| v);",
        3).
Proof. vm_compute. repeat split. Qed.

(** ** Spans found by the scanner *)

Lemma leads_consumes p s gs n :
  leads p = true -> match_here p s = Some (gs, n) -> 1 <= n.
Proof.
  destruct p as [|[[|c l]|cls|cls] p]; try discriminate. intros _ H.
  apply match_here_Chars_inv in H as (s' & n' & _ & _ & ->). simpl. lia.
Qed.

Lemma match_at_consuming p : leads p = true -> consuming_at (match_at p).
Proof.
  intros Hp pos s mt H. unfold match_at in H.
  destruct (match_here p s) as [[gs n]|] eqn:E; [|discriminate].
  inversion H; subst mt; simpl.
  pose proof (leads_consumes _ _ _ _ Hp E).
  pose proof (match_here_le _ _ _ _ E). lia.
Qed.

Lemma replaced_by_consuming p f : leads p = true -> consuming (replaced_by p f).
Proof.
  intros Hp s n r H. apply replaced_by_some in H as (gs & E & _).
  pose proof (leads_consumes _ _ _ _ Hp E).
  pose proof (match_here_le _ _ _ _ E). lia.
Qed.

Section SpliceFacts.

Variable pm : nat -> text -> option Match.
Variable f : Match -> text.
Hypothesis Hpm : consuming_at pm.

Lemma scan_bounds_le n : forall s, length s <= n -> forall pos mt,
  In mt (scan pm pos 0 s) ->
  pos <= m_start mt /\ m_start mt < m_end mt /\ m_end mt <= pos + length s.
Proof.
  induction n as [|n IH]; intros [|c t] Hn pos mt Hin;
    try (simpl in Hin; contradiction); [simpl length in Hn; lia|].
  destruct (pm pos (c :: t)) as [mt0|] eqn:E.
  - rewrite (scan_match _ _ _ _ Hpm E) in Hin.
    destruct (Hpm _ _ _ E) as (H0 & H1 & H2).
    destruct Hin as [<-|Hin]; [lia|].
    apply IH in Hin.
    + rewrite length_skipn in Hin. lia.
    + rewrite length_skipn. simpl length in *. lia.
  - rewrite scan_copy in Hin by exact E.
    apply IH in Hin; simpl length in *; lia.
Qed.

Lemma scan_bounds s pos mt :
  In mt (scan pm pos 0 s) ->
  pos <= m_start mt /\ m_start mt < m_end mt /\ m_end mt <= pos + length s.
Proof. apply (scan_bounds_le (length s)). lia. Qed.

(** Matches come out in increasing order and do not overlap. *)
Lemma scan_later_le n : forall s, length s <= n -> forall pos l1 mt l2,
  scan pm pos 0 s = l1 ++ mt :: l2 ->
  forall y, In y l2 -> m_end mt <= m_start y.
Proof.
  induction n as [|n IH]; intros [|c t] Hn pos l1 mt l2 Hs y Hy;
    try (simpl in Hs; destruct l1; discriminate); [simpl length in Hn; lia|].
  destruct (pm pos (c :: t)) as [mt0|] eqn:E.
  - rewrite (scan_match _ _ _ _ Hpm E) in Hs.
    destruct (Hpm _ _ _ E) as (H0 & H1 & H2).
    destruct l1 as [|x l1]; simpl in Hs; inversion Hs; subst.
    + apply scan_bounds in Hy. lia.
    + eapply IH; [|eassumption|exact Hy].
      rewrite length_skipn. simpl length in *. lia.
  - rewrite scan_copy in Hs by exact E.
    eapply IH; [|eassumption|exact Hy]. simpl length in *. lia.
Qed.

Lemma scan_later s pos l1 mt l2 :
  scan pm pos 0 s = l1 ++ mt :: l2 ->
  forall y, In y l2 -> m_end mt <= m_start y.
Proof. apply (scan_later_le (length s)). lia. Qed.

(** Splicing the matches from the last to the first gives the substitution
    of all of them. *)
Lemma splice_scan_le n : forall s, length s <= n -> forall pre fixes,
  fold_left (splice f) (rev (scan pm (length pre) 0 s)) (pre ++ s, fixes)
  = (pre ++ sub_scan_at pm f (length pre) 0 s,
     fixes + length (scan pm (length pre) 0 s)).
Proof.
  induction n as [|n IH]; intros [|c t] Hn pre fixes;
    try (simpl; f_equal; lia); [simpl length in Hn; lia|].
  destruct (pm (length pre) (c :: t)) as [mt|] eqn:E.
  - rewrite (scan_match _ _ _ _ Hpm E), (sub_scan_at_match _ _ _ _ _ Hpm E).
    destruct (Hpm _ _ _ E) as (H0 & H1 & H2).
    set (k := m_end mt - length pre) in *.
    set (s := c :: t) in *.
    assert (Hk : length (firstn k s) = k)
      by (rewrite length_firstn; unfold k; lia).
    assert (Hlen : length (pre ++ firstn k s) = m_end mt)
      by (rewrite length_app, Hk; unfold k; lia).
    simpl rev. rewrite fold_left_app.
    replace (pre ++ s) with ((pre ++ firstn k s) ++ skipn k s)
      by (now rewrite <- app_assoc, firstn_skipn).
    rewrite <- Hlen at 1.
    rewrite IH by (rewrite length_skipn; unfold s in *; simpl length in *; lia).
    rewrite Hlen. cbn [fold_left splice]. f_equal; [|simpl; lia].
    rewrite H0. f_equal.
    + rewrite <- app_assoc. rewrite firstn_app, Nat.sub_diag, firstn_all.
      simpl. now rewrite app_nil_r.
    + f_equal. rewrite <- Hlen at 1. rewrite skipn_app, Nat.sub_diag, skipn_all.
      reflexivity.
  - rewrite scan_copy, sub_scan_at_copy by exact E.
    replace (pre ++ c :: t) with ((pre ++ [c]) ++ t)
      by (now rewrite <- app_assoc).
    replace (S (length pre)) with (length (pre ++ [c]))
      by (rewrite length_app; simpl; lia).
    rewrite IH by (simpl length in Hn; lia).
    now rewrite <- app_assoc.
Qed.

Lemma splice_scan s fixes :
  fold_left (splice f) (rev (scan pm 0 0 s)) (s, fixes)
  = (sub_scan_at pm f 0 0 s, fixes + length (scan pm 0 0 s)).
Proof. apply (splice_scan_le (length s) s (le_n _) []). Qed.

(** Splices at or after offset [b] leave the first [b] characters alone. *)
Lemma splice_keeps_prefix b l : forall st,
  (forall y, In y l -> b <= m_start y) ->
  b <= length (fst st) ->
  firstn b (fst (fold_left (splice f) l st)) = firstn b (fst st)
  /\ b <= length (fst (fold_left (splice f) l st)).
Proof.
  induction l as [|y l IH]; intros [content fixes] Hl Hb; [auto|].
  cbn [fold_left]. simpl in Hb.
  assert (Hy : b <= m_start y) by (apply Hl; now left).
  assert (Hf : b <= length (firstn (m_start y) content))
    by (rewrite length_firstn; lia).
  destruct (IH (splice f (content, fixes) y)) as [H1 H2].
  - intros z Hz. apply Hl. now right.
  - simpl. rewrite length_app. lia.
  - split; [|exact H2]. rewrite H1. simpl.
    rewrite firstn_app. replace (b - length (firstn (m_start y) content)) with 0 by lia.
    simpl. rewrite app_nil_r, firstn_firstn. f_equal. lia.
Qed.

End SpliceFacts.

(** Group 0 of a match found by the scanner is the text of its span. *)
Lemma scan_group0_le p n : leads p = true ->
  forall s, length s <= n -> forall pos mt,
  In mt (scan (match_at p) pos 0 s) ->
  group mt 0 = firstn (m_end mt - m_start mt) (skipn (m_start mt - pos) s).
Proof.
  intros Hp. pose proof (match_at_consuming p Hp) as Hpm.
  induction n as [|n IH]; intros [|c t] Hn pos mt Hin;
    try (simpl in Hin; contradiction); [simpl length in Hn; lia|].
  destruct (match_at p pos (c :: t)) as [mt0|] eqn:E.
  - rewrite (scan_match _ _ _ _ Hpm E) in Hin.
    destruct (Hpm _ _ _ E) as (H0 & H1 & H2).
    destruct Hin as [<-|Hin].
    + unfold match_at in E.
      destruct (match_here p (c :: t)) as [[gs k]|]; [|discriminate].
      inversion E; subst mt0. unfold group. cbn [m_groups m_start m_end nth].
      rewrite Nat.sub_diag. simpl skipn. f_equal. lia.
    + pose proof (scan_bounds _ Hpm _ _ _ Hin) as (B1 & B2 & B3).
      apply IH in Hin; [|rewrite length_skipn; simpl length in *; lia].
      rewrite Hin, skipn_skipn. do 2 f_equal. lia.
  - rewrite scan_copy in Hin by exact E.
    pose proof (scan_bounds _ Hpm _ _ _ Hin) as (B1 & B2 & B3).
    apply IH in Hin; [|simpl length in *; lia].
    rewrite Hin. f_equal.
    replace (m_start mt - pos) with (S (m_start mt - S pos)) by lia.
    reflexivity.
Qed.

(** ** The callback rule's loop *)

(** C5: the loop of the callback rule rewrites every match of the pattern
    (its result is the substitution of all of them, one fix counted for
    each); it takes the matches from the last to the first, and when it
    comes to a match [mt], after the matches [later] in the text, the text up
    to the end of [mt] is still the one the scanner saw: the span of [mt]
    holds the matched text, and the replacement goes exactly there. *)
Theorem callback_splices_in_reverse (original content : text) (fixes : nat) :
  apply_rule original (content, fixes) (Rule3 get_slice_pat get_slice_fn true)
  = (re_sub_fn get_slice_pat get_slice_fn content,
     fixes + length (re_finditer get_slice_pat content))
  /\ forall earlier mt later,
       re_finditer get_slice_pat content = earlier ++ mt :: later ->
       let st := fold_left (splice get_slice_fn) (rev later) (content, fixes) in
       (forall y, In y later -> m_end mt <= m_start y)
       /\ (forall y, In y earlier -> m_end y <= m_start mt)
       /\ fold_left (splice get_slice_fn)
            (rev (re_finditer get_slice_pat content)) (content, fixes)
          = fold_left (splice get_slice_fn) (rev earlier)
              (splice get_slice_fn st mt)
       /\ firstn (m_end mt) (fst st) = firstn (m_end mt) content
       /\ skipn (m_start mt) (firstn (m_end mt) (fst st)) = group mt 0
       /\ fst (splice get_slice_fn st mt)
          = firstn (m_start mt) content ++ get_slice_fn mt
              ++ skipn (m_end mt) (fst st).
Proof.
  assert (Hp : leads get_slice_pat = true) by reflexivity.
  pose proof (match_at_consuming _ Hp) as Hpm.
  split.
  - cbn [apply_rule]. unfold re_finditer, re_sub_fn. apply splice_scan, Hpm.
  - intros earlier mt later Hs st. unfold re_finditer in Hs.
    assert (Hin : In mt (scan (match_at get_slice_pat) 0 0 content))
      by (rewrite Hs; apply in_elt).
    pose proof (scan_bounds _ Hpm _ _ _ Hin) as (B1 & B2 & B3).
    assert (Hlater : forall y, In y later -> m_end mt <= m_start y)
      by (eapply scan_later; eassumption).
    destruct (splice_keeps_prefix get_slice_fn (m_end mt) (rev later)
                (content, fixes)) as [K1 K2].
    { intros y Hy. apply Hlater. now apply in_rev. }
    { simpl. lia. }
    fold st in K1, K2. simpl fst in K1.
    split; [exact Hlater|]. split.
    { intros y Hy. apply in_split in Hy as (e1 & e2 & ->).
      rewrite <- app_assoc in Hs. simpl in Hs.
      eapply scan_later; [exact Hpm|exact Hs|]. apply in_elt. }
    split.
    { unfold re_finditer. rewrite Hs, rev_app_distr. simpl rev.
      rewrite <- app_assoc, fold_left_app. reflexivity. }
    split; [exact K1|]. split.
    { rewrite K1, (scan_group0_le _ _ Hp content (le_n _) 0 mt Hin).
      rewrite Nat.sub_0_r. apply skipn_firstn_comm. }
    destruct st as [c n] eqn:Est. simpl in *. f_equal.
    replace (firstn (m_start mt) c)
      with (firstn (m_start mt) (firstn (m_end mt) c))
      by (rewrite firstn_firstn; f_equal; lia).
    rewrite K1, firstn_firstn. f_equal. lia.
Qed.

(** ** What a rule may change *)

Lemma rewrites_refl p f s : forall pos, rewrites p f pos s s.
Proof. induction s; intros pos; constructor; auto. Qed.

Lemma match_here_split p s gs n :
  match_here p s = Some (gs, n) ->
  match_here p (firstn n s ++ skipn n s) = Some (gs, length (firstn n s))
  /\ length (firstn n s) = n.
Proof.
  intros H. pose proof (match_here_le _ _ _ _ H) as Hn.
  rewrite firstn_skipn, length_firstn, H.
  split; [do 2 f_equal|]; lia.
Qed.

Lemma sub_scan_at_rewrites_le p f n : leads p = true ->
  forall s, length s <= n -> forall pos,
  rewrites p f pos s (sub_scan_at (match_at p) f pos 0 s).
Proof.
  intros Hp. pose proof (match_at_consuming p Hp) as Hm.
  induction n as [|n IH]; intros [|c t] Hn pos; try constructor;
    [simpl length in Hn; lia|].
  destruct (match_at p pos (c :: t)) as [mt|] eqn:E.
  - rewrite (sub_scan_at_match _ _ _ _ _ Hm E).
    destruct (Hm _ _ _ E) as (H0 & H1 & H2).
    unfold match_at in E.
    destruct (match_here p (c :: t)) as [[gs k]|] eqn:E'; [|discriminate].
    inversion E; subst mt; cbn [m_start m_end] in *.
    replace (pos + k - pos) with k by lia.
    destruct (match_here_split _ _ _ _ E') as [Hsp Hk].
    assert (R : rewrites p f (pos + length (firstn k (c :: t)))
                  (skipn k (c :: t))
                  (sub_scan_at (match_at p) f (pos + k) 0 (skipn k (c :: t)))).
    { rewrite Hk. apply IH. rewrite length_skipn. simpl length in *. lia. }
    pose proof (rw_match p f pos _ _ _ gs Hsp R) as Q.
    rewrite Hk, firstn_skipn in Q. exact Q.
  - rewrite sub_scan_at_copy by exact E. constructor. apply IH.
    simpl length in Hn. lia.
Qed.

Lemma re_sub_fn_rewrites p f s :
  leads p = true -> rewrites p f 0 s (re_sub_fn p f s).
Proof. intros Hp. now apply (sub_scan_at_rewrites_le p _ (length s)). Qed.

(** A template reads the groups of the match object only, so [re.sub] with
    a template is [re.sub] with the callable that expands it. *)
Lemma sub_scan_template p t s : forall pos,
  sub_scan (replaced_by p (expand t)) 0 s
  = sub_scan_at (match_at p) (expand t) pos 0 s.
Proof.
  assert (G : forall k s pos,
            sub_scan (replaced_by p (expand t)) k s
            = sub_scan_at (match_at p) (expand t) pos k s).
  { intros k s0. revert k. induction s0 as [|c u IH]; intros k pos;
      [reflexivity|].
    destruct k as [|k]; [|simpl; apply IH].
    cbn [sub_scan sub_scan_at]. unfold replaced_by, match_at.
    destruct (match_here p (c :: u)) as [[gs n]|].
    - cbn [m_end]. replace (pos + n - pos) with n by lia.
      rewrite Nat.add_0_l. f_equal. apply IH.
    - f_equal. apply IH. }
  intros pos. apply G.
Qed.

Lemma re_sub_rewrites p t s :
  leads p = true -> rewrites p (expand t) 0 s (re_sub p t s).
Proof.
  intros Hp. unfold re_sub. rewrite (sub_scan_template p t s 0).
  now apply re_sub_fn_rewrites.
Qed.

Lemma apply_rule_rewrites original content fixes r :
  leads (rule_pattern r) = true ->
  rewrites (rule_pattern r) (rule_replacement r) 0 content
           (fst (apply_rule original (content, fixes) r)).
Proof.
  intros Hp.
  destruct r as [p t|p f [|]]; cbn [apply_rule rule_pattern rule_replacement]
    in *.
  - destruct (text_eqb (re_sub p t content) content);
      [apply rewrites_refl|now apply re_sub_rewrites].
  - unfold re_finditer.
    rewrite (splice_scan _ _ (match_at_consuming p Hp)).
    now apply re_sub_fn_rewrites.
  - destruct (text_eqb (re_sub_fn p f content) content);
      [apply rewrites_refl|now apply re_sub_fn_rewrites].
Qed.

Lemma firstn_succ_nth {A} (l : list A) : forall i a,
  nth_error l i = Some a -> firstn (S i) l = firstn i l ++ [a].
Proof.
  induction l as [|b l IH]; intros [|i] a H; try discriminate.
  - inversion H. reflexivity.
  - simpl in H. cbn [firstn app]. f_equal. now apply IH.
Qed.

Lemma state_before_S original i r :
  nth_error PATTERNS i = Some r ->
  state_before original (S i)
  = apply_rule original (state_before original i) r.
Proof.
  intros H. unfold state_before.
  now rewrite (firstn_succ_nth _ _ _ H), fold_left_app.
Qed.

Lemma PATTERNS_lead r : In r PATTERNS -> leads (rule_pattern r) = true.
Proof.
  intros H.
  assert (F : forallb (fun r => leads (rule_pattern r)) PATTERNS = true)
    by reflexivity.
  rewrite forallb_forall in F. now apply F.
Qed.

(** C7, as the code has it: the text handed to [write_text] comes from the
    text [read_text] gave by the fifteen steps of the loop; at each step the
    text as it stands is changed only at matches of that step's pattern,
    each replaced by what the rule makes of it, and every other character
    is carried over.  In the file the text is stored with the line separator
    of the platform in the place of every line feed, and it was read with
    CR LF and CR as line feeds. *)
Theorem output_differs_only_in_matches (content : text) :
  state_before content 0 = (content, 0)
  /\ state_before content (length PATTERNS) = fix_content content
  /\ (forall i r,
        nth_error PATTERNS i = Some r ->
        rewrites (rule_pattern r) (rule_replacement r) 0
          (fst (state_before content i))
          (fst (state_before content (S i))))
  /\ (forall filepath w n w' stored,
        w_text w filepath = Some stored ->
        content = universal_newlines stored ->
        fix_file filepath w = Returns n w' ->
        (fst (fix_content content) = content /\ w' = w)
        \/ (fst (fix_content content) <> content
            /\ w_text w' filepath
               = Some (to_linesep (w_linesep w) (fst (fix_content content))))).
Proof.
  split; [reflexivity|]. split; [reflexivity|]. split.
  - intros i r Hi. rewrite (state_before_S content i r Hi).
    destruct (state_before content i) as [c n]. cbn [fst].
    apply apply_rule_rewrites, PATTERNS_lead.
    now apply nth_error_In in Hi.
  - intros filepath w n w' stored Hst -> . unfold fix_file, read_text.
    rewrite Hst. cbn [option_map].
    destruct (fix_content (universal_newlines stored)) as [c k]. cbn [fst].
    destruct (text_eqb c (universal_newlines stored)) eqn:E.
    + apply text_eqb_eq in E. subst c. intros H. inversion H; subst. now left.
    + apply text_eqb_neq in E. destruct (w_writable w filepath); [|discriminate].
      intros H. inversion H; subst. right. split; [exact E|].
      cbn [print write_text w_text]. now rewrite text_eqb_refl.
Qed.

(** C7, the counterexample: the file [a], CR, LF, [b.unwrap_or(0);], CR,
    LF is read as [a], LF, [b.unwrap_or(0);], LF; its one match spans the
    offsets 3 to 16; on a platform whose line separator is LF the file then
    holds [a], LF, [b.map_or(0, |v| v);], LF: the two carriage returns,
    which no pattern matched, are gone. *)
Lemma crlf_rewritten_outside_matches :
  let stored := lit "a" ++ [carriage_return; newline]
                  ++ lit "b.unwrap_or(0);" ++ [carriage_return; newline] in
  let w := single_file true (lit "a.rs") stored in
  read_text (lit "a.rs") w
  = Some (lit "a" ++ [newline] ++ lit "b.unwrap_or(0);" ++ [newline])
  /\ map (fun mt => (m_start mt, m_end mt))
       (flat_map (fun r => re_finditer (rule_pattern r)
                             (lit "a" ++ [newline] ++ lit "b.unwrap_or(0);"
                                ++ [newline]))
                 PATTERNS)
     = [(3, 16)]
  /\ nth_error stored 1 = Some carriage_return
  /\ w_text (world_of (fix_file (lit "a.rs") w)) (lit "a.rs")
     = Some (lit "a" ++ [newline] ++ lit "b.map_or(0, |v| v);" ++ [newline])
  /\ fix_file (lit "a.rs") w
     = Returns 1
         (print (fixed_line 1 (lit "a.rs"))
            (write_text (lit "a.rs")
               (lit "a" ++ [newline] ++ lit "b.map_or(0, |v| v);" ++ [newline])
               w)).
Proof. vm_compute. repeat split. Qed.

(** ** Following a substitution character by character *)

Lemma clash_app a : forall b x y, clash a b = true -> a ++ x <> b ++ y.
Proof.
  induction a as [|c a IH]; intros [|d b] x y; simpl; try discriminate.
  destruct (N.eqb_spec c d) as [->|Hne]; intros H E.
  - inversion E. eapply IH; eassumption.
  - inversion E. contradiction.
Qed.

Lemma clash_sym a : forall b, clash a b = clash b a.
Proof.
  induction a as [|c a IH]; intros [|d b]; simpl; auto.
  rewrite (N.eqb_sym d c). destruct (N.eqb c d); auto.
Qed.

Lemma clash_strip L x y : clash L x = true -> strip_prefix L (x ++ y) = None.
Proof.
  intros H. destruct (strip_prefix L (x ++ y)) as [t|] eqn:E; [|reflexivity].
  apply strip_prefix_inv in E. symmetry in E.
  now apply clash_app in E.
Qed.

Section Lockstep.

Variable m : text -> option (nat * text).
Hypothesis Hm : consuming m.


Lemma sub_scan_hd s : dotted m -> hd_error (sub_scan m 0 s) = hd_error s.
Proof.
  intros Hd. destruct s as [|c t]; [reflexivity|].
  destruct (m (c :: t)) as [[n r]|] eqn:E.
  - rewrite (sub_scan_match _ _ _ _ Hm E).
    destruct (Hd _ _ _ E) as [H1 H2]. rewrite H1.
    destruct r; [discriminate|exact H2].
  - now rewrite sub_scan_copy.
Qed.

(** If the output starts with [u] and no replacement can stand anywhere in
    [u], the input starts with [u] too, and the rest of the output is the
    substitution of the rest of the input. *)
Lemma lockstep u : forall s t',
  sub_scan m 0 s = u ++ t' ->
  (forall k, k < length u -> avoids m (skipn k u)) ->
  exists t, s = u ++ t /\ t' = sub_scan m 0 t.
Proof.
  induction u as [|a u IH]; intros s t' Hs Hu.
  - exists s. auto.
  - destruct s as [|c s1]; [discriminate|].
    destruct (m (c :: s1)) as [[n r]|] eqn:E.
    + exfalso. rewrite (sub_scan_match _ _ _ _ Hm E) in Hs.
      symmetry in Hs. revert Hs. apply (Hu 0 (Nat.lt_0_succ _) _ _ _ _ E).
    + rewrite sub_scan_copy in Hs by exact E. inversion Hs; subst.
      assert (Hu' : forall k, k < length u -> avoids m (skipn k u))
        by (intros k Hk; apply (Hu (S k)); simpl; lia).
      destruct (IH s1 t' H1 Hu') as (t & -> & ->).
      exists t. auto.
Qed.

(** The same from an offset where the scanner found no match. *)
Lemma lockstep0 u s t' :
  m s = None ->
  sub_scan m 0 s = u ++ t' ->
  (forall k, 1 <= k < length u -> avoids m (skipn k u)) ->
  exists t, s = u ++ t /\ t' = sub_scan m 0 t.
Proof.
  intros E Hs Hu. destruct u as [|a u]; [exists s; auto|].
  destruct s as [|c s1]; [discriminate|].
  rewrite sub_scan_copy in Hs by exact E. inversion Hs; subst.
  assert (Hu' : forall k, k < length u -> avoids m (skipn k u))
    by (intros k Hk; apply (Hu (S k)); simpl; lia).
  destruct (lockstep u s1 t' H1 Hu') as (t & -> & ->).
  exists t. auto.
Qed.

(** Quietness of a pattern [g] carries over to the output when [g] matches
    neither from an unmatched offset nor from inside a replacement. *)
Lemma quiet_preserved_le (g : text -> bool) n :
  (forall s, m s = None -> g s = false -> g (sub_scan m 0 s) = false) ->
  (forall s k r i y, m s = Some (k, r) -> i < length r ->
                     g (skipn i r ++ y) = false) ->
  g [] = false ->
  forall s, length s <= n ->
  (forall i, m (skipn i s) = None -> g (skipn i s) = false) ->
  forall j, g (skipn j (sub_scan m 0 s)) = false.
Proof.
  intros Hcopy Hrepl Hnil.
  induction n as [|n IH]; intros [|c t] Hn Hq j;
    try (simpl; now rewrite skipn_nil); [simpl length in Hn; lia|].
  destruct (m (c :: t)) as [[k r]|] eqn:E.
  - rewrite (sub_scan_match _ _ _ _ Hm E). destruct (Hm _ _ _ E) as [H1 H2].
    rewrite skipn_app. destruct (Nat.lt_ge_cases j (length r)) as [Hj|Hj].
    + replace (j - length r) with 0 by lia. simpl skipn at 2.
      eapply Hrepl; eassumption.
    + rewrite skipn_all2 by exact Hj. simpl app. apply IH.
      * rewrite length_skipn. simpl length in *. lia.
      * intros i. rewrite skipn_skipn. apply Hq.
  - rewrite sub_scan_copy by exact E. destruct j as [|j].
    + simpl skipn. rewrite <- sub_scan_copy by exact E.
      apply Hcopy; [exact E|]. exact (Hq 0 E).
    + simpl skipn. apply IH; [simpl length in Hn; lia|].
      intros i. exact (Hq (S i)).
Qed.

End Lockstep.

(** ** Guarded literal rules *)

Lemma matches_here_false p s :
  matches_here p s = false <-> match_here p s = None.
Proof.
  unfold matches_here. destruct (match_here p s); split; congruence.
Qed.

Lemma re_search_matches p s :
  re_search p s = false <-> forall k, matches_here p (skipn k s) = false.
Proof.
  rewrite re_search_none. split; intros H k; apply matches_here_false, H.
Qed.

Lemma guarded_match_intro L t :
  hd_error t <> Some "."%c ->
  match_here (guarded_pat L) (L ++ t) = Some ([], length L + 0).
Proof.
  intros H. unfold guarded_pat. rewrite match_here_Chars_app. simpl.
  destruct t as [|c t]; [reflexivity|]. unfold dot.
  destruct (N.eqb_spec c "."%c) as [->|_]; [now elim H|reflexivity].
Qed.

Lemma guarded_match_inv L s gs n :
  match_here (guarded_pat L) s = Some (gs, n) ->
  exists t, s = L ++ t /\ hd_error t <> Some "."%c
            /\ gs = [] /\ n = length L + 0.
Proof.
  intros H. apply match_here_Chars_inv in H as (t & n' & -> & H & ->).
  apply match_here_NotFollowedBy_inv in H as [H Hg].
  simpl in H. inversion H; subst. exists t. repeat split; auto.
  destruct t as [|c t]; [discriminate|]. simpl. intros E. inversion E; subst.
  discriminate.
Qed.

Lemma glit_inv L R s n r :
  glit L R s = Some (n, r) ->
  exists t, s = L ++ t /\ hd_error t <> Some "."%c
            /\ n = length L /\ r = R.
Proof.
  intros H. apply replaced_by_some in H as (gs & H & ->).
  apply guarded_match_inv in H as (t & -> & Ht & -> & ->).
  exists t. repeat split; auto. simpl. apply app_nil_r.
Qed.

Lemma glit_intro L R t :
  hd_error t <> Some "."%c -> glit L R (L ++ t) = Some (length L, R).
Proof.
  intros H. apply replaced_by_some. exists []. split.
  - rewrite (guarded_match_intro L t H). do 2 f_equal. lia.
  - simpl. now rewrite app_nil_r.
Qed.

Lemma starts_dot_hd l : starts_dot l = true <-> hd_error l = Some "."%c.
Proof.
  destruct l as [|c l]; simpl; [split; discriminate|]. unfold dot.
  destruct (N.eqb_spec c "."%c) as [->|Hne]; split; congruence.
Qed.

Lemma starts_dot_leads L : starts_dot L = true -> leads (guarded_pat L) = true.
Proof. destruct L; [discriminate|reflexivity]. Qed.

Lemma glit_consuming L R : starts_dot L = true -> consuming (glit L R).
Proof. intros H. apply replaced_by_consuming, starts_dot_leads, H. Qed.

Lemma glit_dotted L R :
  starts_dot L = true -> starts_dot R = true -> dotted (glit L R).
Proof.
  intros HL HR s n r H. apply glit_inv in H as (t & -> & _ & _ & ->).
  apply starts_dot_hd in HL, HR. split; [|exact HR].
  destruct L; [discriminate|exact HL].
Qed.

Lemma glit_avoids L R u : clash u R = true -> avoids (glit L R) u.
Proof.
  intros Hc s n r x H. apply glit_inv in H as (t & _ & _ & _ & ->).
  now apply clash_app.
Qed.

Lemma pair_ok_left L R' :
  pair_ok L R' = true ->
  forall k, 1 <= k < length L -> clash (skipn k L) R' = true.
Proof.
  unfold pair_ok. intros H k Hk. apply andb_true_iff in H as [H _].
  rewrite forallb_forall in H. apply H, in_seq. lia.
Qed.

Lemma pair_ok_right L R' :
  pair_ok L R' = true ->
  forall k, k < length R' -> clash L (skipn k R') = true.
Proof.
  unfold pair_ok. intros H k Hk. apply andb_true_iff in H as [_ H].
  rewrite forallb_forall in H. apply H, in_seq. lia.
Qed.

(** From an offset without a match of [m], a guarded literal that matches
    in the output matched in the input. *)
Lemma guarded_copy m L :
  consuming m -> dotted m ->
  (forall k, 1 <= k < length L -> avoids m (skipn k L)) ->
  forall s, m s = None ->
  matches_here (guarded_pat L) s = false ->
  matches_here (guarded_pat L) (sub_scan m 0 s) = false.
Proof.
  intros Hm Hd Hav s E Hs. apply matches_here_false.
  destruct (match_here (guarded_pat L) (sub_scan m 0 s)) as [[gs n]|] eqn:E';
    [|reflexivity].
  exfalso. apply guarded_match_inv in E' as (t' & Hsub & Ht' & _ & _).
  destruct (lockstep0 m Hm L s t' E Hsub Hav) as (t & -> & ->).
  rewrite (sub_scan_hd m Hm t Hd) in Ht'.
  apply matches_here_false in Hs.
  now rewrite (guarded_match_intro L t Ht') in Hs.
Qed.

Lemma guarded_in_replacement L x y :
  clash L x = true -> matches_here (guarded_pat L) (x ++ y) = false.
Proof.
  intros H. apply matches_here_false. simpl.
  now rewrite (clash_strip L x y H).
Qed.

Lemma guarded_preserved L L' R' s :
  starts_dot L = true -> starts_dot L' = true -> starts_dot R' = true ->
  pair_ok L R' = true ->
  (forall i, glit L' R' (skipn i s) = None ->
             matches_here (guarded_pat L) (skipn i s) = false) ->
  re_search (guarded_pat L) (re_sub (guarded_pat L') [TLit R'] s) = false.
Proof.
  intros HL HL' HR' Hok Hq. apply re_search_matches.
  apply (quiet_preserved_le (glit L' R') (glit_consuming L' R' HL')
           (matches_here (guarded_pat L)) (length s)); auto.
  - apply guarded_copy; auto using glit_consuming, glit_dotted.
    intros k Hk. apply glit_avoids. now apply pair_ok_left.
  - intros s0 k r i y H Hi. apply glit_inv in H as (t & _ & _ & _ & ->).
    apply guarded_in_replacement. now apply pair_ok_right.
  - destruct L; [discriminate|reflexivity].
Qed.

(** A guarded rule leaves no match of its own pattern ... *)
Lemma guarded_own L R s :
  starts_dot L = true -> starts_dot R = true -> pair_ok L R = true ->
  re_search (guarded_pat L) (re_sub (guarded_pat L) [TLit R] s) = false.
Proof.
  intros HL HR Hok. apply guarded_preserved; auto.
  intros i H. apply matches_here_false. now apply replaced_by_none in H.
Qed.

(** ... and makes no match of another guarded pattern. *)
Lemma guarded_other L L' R' s :
  starts_dot L = true -> starts_dot L' = true -> starts_dot R' = true ->
  pair_ok L R' = true ->
  re_search (guarded_pat L) s = false ->
  re_search (guarded_pat L) (re_sub (guarded_pat L') [TLit R'] s) = false.
Proof.
  intros HL HL' HR' Hok Hq. apply guarded_preserved; auto.
  intros i _. now apply re_search_matches.
Qed.

(** ** The first rule *)

Lemma first_paren_unique a : forall a' b b',
  forallb not_close_paren a = true -> forallb not_close_paren a' = true ->
  a ++ ")"%c :: b = a' ++ ")"%c :: b' -> a = a' /\ b = b'.
Proof.
  induction a as [|c a IH]; intros [|c' a'] b b' Ha Ha' E; simpl in *.
  - inversion E. auto.
  - inversion E; subst. discriminate.
  - inversion E; subst. discriminate.
  - apply andb_true_iff in Ha as [_ Ha], Ha' as [_ Ha'].
    inversion E; subst. destruct (IH _ _ _ Ha Ha' H1) as [-> ->]. auto.
Qed.

Lemma forallb_skipn {A} (f : A -> bool) k l :
  forallb f l = true -> forallb f (skipn k l) = true.
Proof.
  revert l. induction k as [|k IH]; intros [|a l] H; simpl; auto.
  simpl in H. apply andb_true_iff in H as [_ H]. auto.
Qed.

Lemma span_snd_hd cls s c r : snd (span cls s) = c :: r -> cls c = false.
Proof.
  induction s as [|a s IH]; simpl; [discriminate|].
  destruct (cls a) eqn:E.
  - destruct (span cls s) as [g r']. simpl in *. exact IH.
  - simpl. intros H. inversion H; subst. exact E.
Qed.

Lemma not_close_paren_false c : not_close_paren c = false -> c = ")"%c.
Proof.
  unfold not_close_paren. destruct (N.eqb_spec c ")"%c); auto.
  discriminate.
Qed.

Lemma te_intro X rest :
  X <> [] -> forallb not_close_paren X = true ->
  match_here try_exists_pat (te_head ++ X ++ te_tail ++ rest)
  = Some ([X], length te_head + (length X + (length te_tail + 0))).
Proof.
  intros HX Hn. unfold try_exists_pat. fold te_head. fold te_tail.
  rewrite match_here_Chars_app.
  change (te_tail ++ rest)
    with (")"%c :: (lit ".await.unwrap_or(false)" ++ rest)).
  rewrite match_here_Group_run by (assumption || reflexivity).
  change (")"%c :: (lit ".await.unwrap_or(false)" ++ rest))
    with (te_tail ++ rest).
  rewrite match_here_Chars_app. reflexivity.
Qed.

Lemma te_inv s gs n :
  match_here try_exists_pat s = Some (gs, n) ->
  exists X rest,
    X <> [] /\ forallb not_close_paren X = true
    /\ s = te_head ++ X ++ te_tail ++ rest
    /\ gs = [X] /\ n = length te_head + (length X + (length te_tail + 0)).
Proof.
  unfold try_exists_pat. fold te_head. fold te_tail. intros E.
  apply match_here_Chars_inv in E as (s1 & n1 & -> & E & ->).
  apply match_here_Group_inv in E
    as (X & s2 & gs2 & n2 & HX & Hn & _ & -> & E & -> & ->).
  apply match_here_Chars_inv in E as (rest & n3 & -> & E & ->).
  simpl in E. inversion E; subst. exists X, rest. auto.
Qed.

Lemma te_replaced_inv s n r :
  replaced_by try_exists_pat (expand try_exists_tpl) s = Some (n, r) ->
  exists X rest,
    X <> [] /\ forallb not_close_paren X = true
    /\ s = te_head ++ X ++ te_tail ++ rest
    /\ skipn n s = rest
    /\ r = te_head ++ X ++ te_done.
Proof.
  intros H. apply replaced_by_some in H as (gs & H & ->).
  apply te_inv in H as (X & rest & HX & Hn & -> & -> & ->).
  exists X, rest. split; [exact HX|]. split; [exact Hn|].
  split; [reflexivity|]. split.
  - replace (length te_head + (length X + (length te_tail + 0)))
      with (length (te_head ++ X ++ te_tail) + 0)
      by (rewrite !length_app; lia).
    rewrite !app_assoc, skipn_app, Nat.add_0_r, skipn_all.
    rewrite Nat.sub_diag. reflexivity.
  - unfold expand, try_exists_tpl, group. cbn [flat_map m_groups nth].
    now rewrite app_nil_r.
Qed.

Lemma te_consuming : consuming (replaced_by try_exists_pat (expand try_exists_tpl)).
Proof. now apply replaced_by_consuming. Qed.

Lemma te_dotted : dotted (replaced_by try_exists_pat (expand try_exists_tpl)).
Proof.
  intros s n r H. apply te_replaced_inv in H as (X & rest & _ & _ & -> & _ & ->).
  split; reflexivity.
Qed.

(** After a run without closing parenthesis, a text that departs from
    [te_tail] blocks the first rule. *)
Lemma te_blocked x z y :
  forallb not_close_paren x = true ->
  hd_error z = Some ")"%c -> clash te_tail z = true ->
  matches_here try_exists_pat (x ++ z ++ y) = false.
Proof.
  intros Hx Hz Hc. apply matches_here_false.
  destruct (match_here try_exists_pat (x ++ z ++ y)) as [[gs n]|] eqn:E;
    [|reflexivity].
  exfalso. apply te_inv in E as (X & rest & _ & Hn & E & _ & _).
  destruct z as [|c z]; [discriminate|]. inversion Hz; subst c.
  change (te_head ++ X ++ te_tail ++ rest)
    with ((te_head ++ X)
            ++ ")"%c :: (lit ".await.unwrap_or(false)" ++ rest)) in E.
  rewrite app_assoc in E.
  replace ((x ++ ")"%c :: z) ++ y) with (x ++ ")"%c :: (z ++ y)) in E
    by (now rewrite <- app_assoc).
  apply first_paren_unique in E as [_ E];
    [|exact Hx|rewrite forallb_app; now rewrite Hn].
  assert (E' : te_tail ++ rest = (")"%c :: z) ++ y)
    by (simpl; f_equal; auto).
  revert E'. now apply clash_app.
Qed.

Lemma nodot_avoids m u :
  dotted m -> u <> [] -> starts_dot u = false -> avoids m u.
Proof.
  intros Hd Hu Hs s n r x H E. destruct (Hd _ _ _ H) as [_ Hr].
  destruct u as [|c u]; [congruence|]. destruct r as [|d r]; [discriminate|].
  inversion Hr; subst d. inversion E; subst c. discriminate.
Qed.

(** From an offset without a match of [m], the first rule matches in the
    output only if it matched in the input. *)
Lemma te_copy m :
  consuming m -> dotted m ->
  (forall x1, forallb not_close_paren x1 = true -> avoids m (x1 ++ te_tail)) ->
  (forall k, k < length te_tail ->
     starts_dot (skipn k te_tail) = true -> avoids m (skipn k te_tail)) ->
  forall s, m s = None ->
  matches_here try_exists_pat s = false ->
  matches_here try_exists_pat (sub_scan m 0 s) = false.
Proof.
  intros Hm Hd Hx Ht s E Hs. apply matches_here_false.
  destruct (match_here try_exists_pat (sub_scan m 0 s)) as [[gs n]|] eqn:E';
    [|reflexivity].
  exfalso. apply te_inv in E' as (X & rest' & HX & Hn & Hsub & _ & _).
  destruct (lockstep0 m Hm te_head s _ E Hsub) as (t & -> & Ht').
  { intros k Hk. change (length te_head) with 12 in Hk.
    apply nodot_avoids; auto.
    - intros C. apply (f_equal (@length _)) in C.
      rewrite length_skipn in C. change (length te_head) with 12 in C.
      simpl length in C. lia.
    - do 12 (destruct k as [|k]; [try reflexivity; lia|]). lia. }
  rewrite app_assoc in Ht'. symmetry in Ht'.
  destruct (lockstep m Hm (X ++ te_tail) t rest' Ht') as (rest & -> & _).
  { intros k Hk. rewrite skipn_app.
    destruct (Nat.lt_ge_cases k (length X)) as [Hlt|Hge].
    - replace (k - length X) with 0 by lia. simpl skipn at 2.
      apply Hx. now apply forallb_skipn.
    - rewrite skipn_all2 by exact Hge. simpl app.
      rewrite length_app in Hk.
      destruct (starts_dot (skipn (k - length X) te_tail)) eqn:Es.
      + apply Ht; [lia|exact Es].
      + apply nodot_avoids; auto.
        intros C. apply (f_equal (@length _)) in C.
        rewrite length_skipn in C. change (length (@nil char)) with 0 in C.
        lia. }
  apply matches_here_false in Hs.
  rewrite <- app_assoc in Hs. now rewrite (te_intro X rest HX Hn) in Hs.
Qed.

Lemma te_in_replacement x y :
  clash te_head x = true -> matches_here try_exists_pat (x ++ y) = false.
Proof.
  intros H. apply matches_here_false. unfold try_exists_pat. fold te_head.
  cbn [match_here]. now rewrite (clash_strip te_head x y H).
Qed.

Lemma te_avoids_run x1 :
  forallb not_close_paren x1 = true ->
  avoids (replaced_by try_exists_pat (expand try_exists_tpl)) (x1 ++ te_tail).
Proof.
  intros Hx s n r x H E.
  apply te_replaced_inv in H as (X & rest & _ & Hn & _ & _ & ->).
  remember (sub_scan _ 0 _) as Y eqn:EY. clear EY.
  assert (E' : x1 ++ ")"%c :: (lit ".await.unwrap_or(false)" ++ x)
               = (te_head ++ X)
                   ++ ")"%c :: (lit ".await.map_or(false, |v| v)" ++ Y)).
  { transitivity ((x1 ++ te_tail) ++ x); [now rewrite <- app_assoc|].
    rewrite E. now rewrite <- !app_assoc. }
  apply first_paren_unique in E' as [_ E'];
    [|exact Hx|rewrite forallb_app; now rewrite Hn].
  revert E'. now apply clash_app.
Qed.

Lemma te_avoids_tail k :
  k < length te_tail -> starts_dot (skipn k te_tail) = true ->
  avoids (replaced_by try_exists_pat (expand try_exists_tpl)) (skipn k te_tail).
Proof.
  intros Hk Hs s n r x H E.
  apply te_replaced_inv in H as (X & rest & _ & _ & _ & _ & ->).
  rewrite <- app_assoc in E. revert E. apply clash_app.
  do 24 (destruct k as [|k]; [try reflexivity; discriminate|]).
  change (length te_tail) with 24 in Hk. lia.
Qed.

Lemma skipn_app3 {A} i (a b c : list A) :
  skipn i (a ++ b ++ c)
  = skipn i a ++ skipn (i - length a) b
      ++ skipn (i - length a - length b) c.
Proof. now rewrite !skipn_app. Qed.

(** The first rule leaves no match of its own pattern. *)
Lemma te_own s :
  re_search try_exists_pat (re_sub try_exists_pat try_exists_tpl s) = false.
Proof.
  apply re_search_matches. unfold re_sub.
  apply (quiet_preserved_le _ te_consuming (matches_here try_exists_pat)
           (length s)); auto.
  - apply te_copy; auto using te_consuming, te_dotted, te_avoids_run,
      te_avoids_tail.
  - intros s0 k r i y H Hi.
    apply te_replaced_inv in H as (X & rest & _ & Hn & _ & _ & ->).
    rewrite skipn_app3. change (length te_head) with 12.
    destruct (Nat.lt_ge_cases i 12) as [H12|H12].
    + replace (i - 12) with 0 by lia. simpl skipn at 2 3.
      destruct i as [|i].
      * simpl skipn. rewrite <- !app_assoc, app_assoc.
        apply te_blocked; [rewrite forallb_app; now rewrite Hn| |];
          reflexivity.
      * do 11 (destruct i as [|i]; [reflexivity|]). lia.
    + rewrite (skipn_all2 te_head) by (change (length te_head) with 12; lia).
      simpl app.
      destruct (Nat.lt_ge_cases (i - 12) (length X)) as [HX|HX].
      * replace (i - 12 - length X) with 0 by lia. simpl skipn at 2.
        rewrite <- app_assoc. apply te_blocked;
          [now apply forallb_skipn|reflexivity|reflexivity].
      * rewrite (skipn_all2 X) by exact HX. simpl app.
        rewrite !length_app in Hi. change (length te_head) with 12 in Hi.
        change (length te_done) with 28 in Hi.
        remember (i - 12 - length X) as j eqn:Ej.
        assert (Hj : j < 28) by lia. clear -Hj.
        do 28 (destruct j as [|j]; [reflexivity|]). lia.
  - intros i H. apply matches_here_false. now apply replaced_by_none in H.
Qed.

Lemma te_ok_paren R' :
  te_ok R' = true ->
  exists r0 r1,
    R' = r0 ++ ")"%c :: r1 /\ forallb not_close_paren r0 = true
    /\ (r1 = [] \/ clash (lit ".await.unwrap_or(false)") r1 = true).
Proof.
  unfold te_ok. intros H. apply andb_true_iff in H as [H _].
  apply andb_true_iff in H as [H _].
  pose proof (span_app not_close_paren R') as Hs.
  pose proof (span_all not_close_paren R') as Ha.
  pose proof (span_snd_hd not_close_paren R') as Hh.
  destruct (span not_close_paren R') as [r0 r1]. simpl in *.
  destruct r1 as [|c r1]; [discriminate|].
  pose proof (not_close_paren_false _ (Hh _ _ eq_refl)) as ->.
  exists r0, r1. split; [now symmetry|]. split; [exact Ha|].
  destruct r1 as [|d r1]; [now left|right]. exact H.
Qed.

Lemma te_ok_tail R' k :
  te_ok R' = true -> k < length te_tail ->
  starts_dot (skipn k te_tail) = true -> clash (skipn k te_tail) R' = true.
Proof.
  unfold te_ok. intros H Hk Hs. apply andb_true_iff in H as [H _].
  apply andb_true_iff in H as [_ H]. rewrite forallb_forall in H.
  specialize (H k). rewrite Hs in H. apply H, in_seq. lia.
Qed.

Lemma te_ok_head R' i :
  te_ok R' = true -> i < length R' -> clash te_head (skipn i R') = true.
Proof.
  unfold te_ok. intros H Hi. apply andb_true_iff in H as [_ H].
  rewrite forallb_forall in H. apply H, in_seq. lia.
Qed.

(** A guarded rule makes no match of the first rule's pattern. *)
Lemma te_other L' R' s :
  starts_dot L' = true -> starts_dot R' = true -> te_ok R' = true ->
  re_search try_exists_pat s = false ->
  re_search try_exists_pat (re_sub (guarded_pat L') [TLit R'] s) = false.
Proof.
  intros HL' HR' Hok Hq. apply re_search_matches.
  pose proof (glit_consuming L' R' HL') as Hm.
  pose proof (glit_dotted L' R' HL' HR') as Hd.
  apply (quiet_preserved_le _ Hm (matches_here try_exists_pat) (length s));
    auto.
  - apply te_copy; auto.
    + intros x1 Hx s0 n r x H E.
      apply glit_inv in H as (t & -> & Ht & -> & ->).
      rewrite skipn_app, skipn_all, Nat.sub_diag in E. simpl in E.
      pose proof (sub_scan_hd _ Hm t Hd) as Hhd.
      remember (sub_scan (glit L' R') 0 t) as Y eqn:EY. clear EY.
      destruct (te_ok_paren R' Hok) as (r0 & r1 & -> & Hr0 & Hr1).
      rewrite <- !app_assoc in E.
      change (te_tail ++ x)
        with (")"%c :: (lit ".await.unwrap_or(false)" ++ x)) in E.
      simpl app in E.
      apply first_paren_unique in E as [_ E]; auto.
      destruct Hr1 as [->|Hr1].
      * simpl in E. subst Y. rewrite <- Hhd in Ht. now apply Ht.
      * exact (clash_app _ _ x Y Hr1 E).
    + intros k Hk Hs. apply glit_avoids. now apply te_ok_tail.
  - intros s0 k r i y H Hi. apply glit_inv in H as (t & _ & _ & _ & ->).
    apply te_in_replacement. now apply te_ok_head.
  - intros i _. now apply re_search_matches.
Qed.

(** ** The callback rule's pattern under the other rules *)

Lemma gs_intro A B rest :
  A <> [] -> B <> [] ->
  forallb digit A = true -> forallb digit B = true ->
  matches_here get_slice_pat
    (gs_head ++ A ++ lit ".." ++ B ++ gs_tail ++ rest) = true.
Proof.
  intros HA HB HdA HdB. unfold matches_here, get_slice_pat.
  fold gs_head. fold gs_tail.
  rewrite match_here_Chars_app.
  change (lit ".." ++ B ++ gs_tail ++ rest)
    with ("."%c :: ("."%c :: B ++ gs_tail ++ rest)).
  rewrite match_here_Group_run by (assumption || reflexivity).
  change ("."%c :: "."%c :: B ++ gs_tail ++ rest)
    with (lit ".." ++ B ++ gs_tail ++ rest).
  rewrite match_here_Chars_app.
  change (gs_tail ++ rest) with (")"%c :: (lit ".unwrap_or(&[])" ++ rest)).
  rewrite match_here_Group_run by (assumption || reflexivity).
  change (")"%c :: (lit ".unwrap_or(&[])" ++ rest)) with (gs_tail ++ rest).
  rewrite match_here_Chars_app. reflexivity.
Qed.

Lemma gs_inv s :
  matches_here get_slice_pat s = true ->
  exists A B rest,
    A <> [] /\ B <> []
    /\ forallb digit A = true /\ forallb digit B = true
    /\ s = gs_head ++ A ++ lit ".." ++ B ++ gs_tail ++ rest.
Proof.
  unfold matches_here.
  destruct (match_here get_slice_pat s) as [[gs n]|] eqn:E; [|discriminate].
  intros _. unfold get_slice_pat in E. fold gs_head in E. fold gs_tail in E.
  apply match_here_Chars_inv in E as (s1 & n1 & -> & E & ->).
  apply match_here_Group_inv in E
    as (A & s2 & gs2 & n2 & HA & HdA & _ & -> & E & -> & ->).
  apply match_here_Chars_inv in E as (s3 & n3 & -> & E & ->).
  apply match_here_Group_inv in E
    as (B & s4 & gs4 & n4 & HB & HdB & _ & -> & E & -> & ->).
  apply match_here_Chars_inv in E as (rest & n5 & -> & E & ->).
  exists A, B, rest. auto.
Qed.

Lemma digit_not_dot c : digit c = true -> dot c = false.
Proof.
  unfold dot. destruct (N.eqb_spec c "."%c) as [->|]; [|reflexivity].
  discriminate.
Qed.

Lemma dot2_avoids m c u :
  second_char_ok m ->
  dot c = true \/ digit c = true \/ c = "u"%c ->
  avoids m ("."%c :: c :: u).
Proof.
  intros Hm Hc s n r x H E.
  destruct (Hm _ _ _ H) as (a & c' & r' & -> & H1 & H2 & H3).
  inversion E; subst c'. destruct Hc as [Hc|[Hc|Hc]]; congruence.
Qed.

Section ClassRun.

Variable m : text -> option (nat * text).
Hypothesis Hm : consuming m.
Hypothesis Hd : dotted m.

(** A run of characters other than the dot is copied. *)
Lemma lockstep_run u : forall s t',
  forallb (fun c => negb (dot c)) u = true ->
  sub_scan m 0 s = u ++ t' ->
  exists t, s = u ++ t /\ t' = sub_scan m 0 t.
Proof.
  induction u as [|a u IH]; intros s t' Hu Hs; [exists s; auto|].
  simpl in Hu. apply andb_true_iff in Hu as [Ha Hu].
  destruct s as [|c s1]; [discriminate|].
  destruct (m (c :: s1)) as [[n r]|] eqn:E.
  - exfalso. rewrite (sub_scan_match _ _ _ _ Hm E) in Hs.
    destruct (Hd _ _ _ E) as [_ Hr]. destruct r as [|d r]; [discriminate|].
    inversion Hr; subst d. inversion Hs; subst a. discriminate.
  - rewrite sub_scan_copy in Hs by exact E. inversion Hs; subst.
    destruct (IH s1 t' Hu H1) as (t & -> & ->). exists t. auto.
Qed.

Lemma gs_copy :
  second_char_ok m ->
  forall s, m s = None ->
  matches_here get_slice_pat s = false ->
  matches_here get_slice_pat (sub_scan m 0 s) = false.
Proof.
  intros H2 s E Hs.
  destruct (matches_here get_slice_pat (sub_scan m 0 s)) eqn:E';
    [|reflexivity].
  exfalso. apply gs_inv in E'
    as (A & B & rest' & HA & HB & HdA & HdB & Hsub).
  destruct (lockstep0 m Hm gs_head s _ E Hsub) as (t1 & -> & Ht1).
  { intros k Hk. change (length gs_head) with 5 in Hk.
    apply nodot_avoids; auto;
      do 5 (destruct k as [|k]; [try discriminate; try reflexivity; lia|]);
      lia. }
  symmetry in Ht1.
  assert (HnA : forallb (fun c => negb (dot c)) A = true).
  { rewrite forallb_forall in HdA |- *. intros c Hc.
    now rewrite (digit_not_dot c (HdA c Hc)). }
  destruct (lockstep_run A t1 _ HnA Ht1) as (t2 & -> & Ht2).
  destruct B as [|d B]; [congruence|].
  simpl in HdB. apply andb_true_iff in HdB as [Hd0 HdB].
  symmetry in Ht2.
  change (lit ".." ++ (d :: B) ++ gs_tail ++ rest')
    with (["."%c; "."%c; d] ++ B ++ gs_tail ++ rest') in Ht2.
  destruct (lockstep m Hm _ t2 _ Ht2) as (t3 & -> & Ht3).
  { intros k Hk. destruct k as [|[|[|k]]]; simpl skipn.
    - apply dot2_avoids; auto.
    - apply dot2_avoids; auto.
    - apply nodot_avoids; auto; [discriminate|].
      simpl. now apply digit_not_dot.
    - simpl in Hk. lia. }
  symmetry in Ht3.
  assert (HnB : forallb (fun c => negb (dot c)) B = true).
  { rewrite forallb_forall in HdB |- *. intros c Hc.
    now rewrite (digit_not_dot c (HdB c Hc)). }
  destruct (lockstep_run B t3 _ HnB Ht3) as (t4 & -> & Ht4).
  symmetry in Ht4.
  destruct (lockstep m Hm gs_tail t4 rest' Ht4) as (rest & -> & _).
  { intros k Hk. change (length gs_tail) with 16 in Hk.
    destruct k as [|[|k]].
    - apply nodot_avoids; auto. discriminate.
    - apply dot2_avoids; auto.
    - apply nodot_avoids; auto;
        do 14 (destruct k as [|k]; [try discriminate; try reflexivity|]);
        lia. }
  assert (HdB' : forallb digit (d :: B) = true) by (simpl; now rewrite Hd0).
  pose proof (gs_intro A (d :: B) rest HA HB HdA HdB') as G.
  assert (Hs' : matches_here get_slice_pat
                  (gs_head ++ A ++ lit ".." ++ (d :: B) ++ gs_tail ++ rest)
                = false) by exact Hs.
  congruence.
Qed.

End ClassRun.

Lemma gs_in_replacement x y :
  clash gs_head x = true -> matches_here get_slice_pat (x ++ y) = false.
Proof.
  intros H. apply matches_here_false. unfold get_slice_pat. fold gs_head.
  cbn [match_here]. now rewrite (clash_strip gs_head x y H).
Qed.

Lemma gs_ok_second L' R' : gs_ok R' = true -> second_char_ok (glit L' R').
Proof.
  unfold gs_ok. intros H s n r E. apply glit_inv in E as (_ & _ & _ & _ & ->).
  apply andb_true_iff in H as [H _].
  destruct R' as [|a [|c R']]; try discriminate.
  apply andb_true_iff in H as [H H3]. apply andb_true_iff in H as [H1 H2].
  exists a, c, R'. repeat split.
  - now destruct (dot c).
  - now destruct (digit c).
  - intros ->. discriminate.
Qed.

(** A guarded rule makes no match of the callback rule's pattern. *)
Lemma gs_other L' R' s :
  starts_dot L' = true -> starts_dot R' = true -> gs_ok R' = true ->
  re_search get_slice_pat s = false ->
  re_search get_slice_pat (re_sub (guarded_pat L') [TLit R'] s) = false.
Proof.
  intros HL' HR' Hok Hq. apply re_search_matches.
  pose proof (glit_consuming L' R' HL') as Hm.
  pose proof (glit_dotted L' R' HL' HR') as Hd.
  apply (quiet_preserved_le _ Hm (matches_here get_slice_pat) (length s));
    auto.
  - apply gs_copy; auto. now apply gs_ok_second.
  - intros s0 k r i y H Hi. apply glit_inv in H as (t & _ & _ & _ & ->).
    apply gs_in_replacement. unfold gs_ok in Hok.
    apply andb_true_iff in Hok as [_ Hok]. rewrite forallb_forall in Hok.
    apply Hok, in_seq. lia.
  - intros i _. now apply re_search_matches.
Qed.

(** ** The catalogue as a whole *)

Lemma PATTERNS_shape :
  PATTERNS = Rule2 try_exists_pat try_exists_tpl
               :: map guarded_rule guarded_literals
               ++ [Rule3 get_slice_pat get_slice_fn true].
Proof. reflexivity. Qed.

Lemma catalogue_ok_true : catalogue_ok = true.
Proof. vm_compute. reflexivity. Qed.

Lemma catalogue_facts LR :
  In LR guarded_literals ->
  starts_dot (fst LR) = true /\ starts_dot (snd LR) = true
  /\ te_ok (snd LR) = true /\ gs_ok (snd LR) = true
  /\ forall LR', In LR' guarded_literals -> pair_ok (fst LR') (snd LR) = true.
Proof.
  intros H. pose proof catalogue_ok_true as Hok. unfold catalogue_ok in Hok.
  rewrite forallb_forall in Hok. specialize (Hok LR H).
  repeat (apply andb_true_iff in Hok as [Hok ?]).
  repeat split; auto. intros LR' H'.
  match goal with Hf : forallb _ guarded_literals = true |- _ =>
    rewrite forallb_forall in Hf; now apply Hf end.
Qed.

Lemma apply_rule_Rule2_fst original content fixes p t :
  fst (apply_rule original (content, fixes) (Rule2 p t)) = re_sub p t content.
Proof.
  cbn [apply_rule]. destruct (text_eqb (re_sub p t content) content) eqn:E;
    [|reflexivity].
  apply text_eqb_eq in E. now rewrite E.
Qed.

Lemma re_finditer_nil p s :
  leads p = true -> re_finditer p s = [] -> re_search p s = false.
Proof.
  intros Hp. unfold re_finditer. rewrite re_search_none. generalize 0 at 1.
  induction s as [|c t IH]; intros pos H k.
  - rewrite skipn_nil.
    destruct p as [|[[|a l]|cls|cls] p]; try discriminate. reflexivity.
  - simpl in H. destruct (match_at p pos (c :: t)) as [mt|] eqn:E;
      [discriminate|].
    destruct k as [|k]; [now apply match_at_none in E|].
    simpl. eapply IH. exact H.
Qed.

(** Running guarded rules one after the other: the first rule's pattern
    stays without match, and so does the pattern of every guarded rule that
    has run. *)
Lemma guarded_run original : forall todo done content fixes,
  incl todo guarded_literals -> incl done guarded_literals ->
  re_search try_exists_pat content = false ->
  (forall LR, In LR done -> re_search (guarded_pat (fst LR)) content = false) ->
  re_search try_exists_pat
    (fst (fold_left (apply_rule original) (map guarded_rule todo)
                    (content, fixes))) = false
  /\ forall LR, In LR (todo ++ done) ->
       re_search (guarded_pat (fst LR))
         (fst (fold_left (apply_rule original) (map guarded_rule todo)
                         (content, fixes))) = false.
Proof.
  induction todo as [|LR todo IH]; intros done content fixes Ht Hd Hte Hg.
  - simpl. auto.
  - cbn [map fold_left].
    pose proof (apply_rule_Rule2_fst original content fixes
                  (guarded_pat (fst LR)) [TLit (snd LR)]) as E.
    fold (guarded_rule LR) in E.
    destruct (apply_rule original (content, fixes) (guarded_rule LR))
      as [c1 n1]. simpl in E. subst c1.
    assert (HLR : In LR guarded_literals) by (apply Ht; now left).
    destruct (catalogue_facts LR HLR) as (D1 & D2 & D3 & D4 & D5).
    destruct (IH (LR :: done)
                 (re_sub (guarded_pat (fst LR)) [TLit (snd LR)] content) n1)
      as [I1 I2].
    + intros x Hx. apply Ht. now right.
    + intros x [<-|Hx]; auto.
    + now apply te_other.
    + intros x [<-|Hx].
      * now apply guarded_own; auto.
      * assert (Hx' : In x guarded_literals) by now apply Hd.
        destruct (catalogue_facts x Hx') as (X1 & _).
        apply guarded_other; auto.
    + split; [exact I1|]. intros x Hx. apply I2.
      simpl in Hx. rewrite in_app_iff in *. simpl. tauto.
Qed.

(** The text before the callback rule's turn holds no match of the first
    fourteen rules. *)
Lemma settled_before_callback content :
  re_search try_exists_pat (fst (state_before content 14)) = false
  /\ forall LR, In LR guarded_literals ->
       re_search (guarded_pat (fst LR)) (fst (state_before content 14))
       = false.
Proof.
  unfold state_before.
  change (firstn 14 PATTERNS)
    with (Rule2 try_exists_pat try_exists_tpl
            :: map guarded_rule guarded_literals).
  cbn [fold_left].
  pose proof (apply_rule_Rule2_fst content content 0
                try_exists_pat try_exists_tpl) as E.
  destruct (apply_rule content (content, 0)
              (Rule2 try_exists_pat try_exists_tpl)) as [c1 n1].
  simpl in E. subst c1.
  destruct (guarded_run content guarded_literals []
              (re_sub try_exists_pat try_exists_tpl content) n1)
    as [I1 I2];
    [apply incl_refl|apply incl_nil_l|apply te_own|intros LR []|].
  split; [exact I1|]. intros LR H. apply I2. now rewrite app_nil_r.
Qed.

Lemma fix_content_callback content :
  fix_content content
  = apply_rule content (state_before content 14)
      (Rule3 get_slice_pat get_slice_fn true).
Proof.
  unfold fix_content, state_before.
  change PATTERNS
    with (firstn 14 PATTERNS ++ [Rule3 get_slice_pat get_slice_fn true]) at 1.
  now rewrite fold_left_app.
Qed.

(** C2, the counterexample: the callback rule's replacement starts with a
    brace, so it frees a guarded occurrence that a dot protected in the first
    pass; the second pass rewrites it. *)
Lemma second_pass_rewrites_again :
  fix_content (lit "x.unwrap_or(0).get(0..16).unwrap_or(&[])")
  = (lit "x.unwrap_or(0){match .get(0..16) { Some(slice) => slice, None => &[], }", 1)
  /\ fix_content
       (fst (fix_content (lit "x.unwrap_or(0).get(0..16).unwrap_or(&[])")))
     = (lit "x.map_or(0, |v| v){match .get(0..16) { Some(slice) => slice, None => &[], }", 1).
Proof. vm_compute. split; reflexivity. Qed.

(** ** One occurrence in a file *)

Lemma leads_nil p : leads p = true -> match_here p [] = None.
Proof. destruct p as [|[[|a l]|cls|cls] p]; try discriminate. reflexivity. Qed.

Lemma no_match_except_spec s p0 :
  no_match_except s p0 = true ->
  forall r i, In r PATTERNS -> i <> p0 ->
    match_here (rule_pattern r) (skipn i s) = None.
Proof.
  unfold no_match_except. intros H r i Hr Hi.
  rewrite forallb_forall in H. specialize (H r Hr).
  destruct (Nat.lt_ge_cases i (length s)) as [Hlt|Hge].
  - rewrite forallb_forall in H. specialize (H i).
    apply Nat.eqb_neq in Hi. rewrite Hi in H. simpl in H.
    apply matches_here_false, negb_true_iff, H, in_seq. lia.
  - rewrite skipn_all2 by exact Hge. apply leads_nil, PATTERNS_lead, Hr.
Qed.

Lemma sub_scan_app_quiet m A y :
  (forall i, i < length A -> m (skipn i (A ++ y)) = None) ->
  sub_scan m 0 (A ++ y) = A ++ sub_scan m 0 y.
Proof.
  induction A as [|a A IH]; intros H; [reflexivity|].
  simpl app. rewrite sub_scan_copy by (apply (H 0); simpl; lia).
  f_equal. apply IH. intros i Hi. apply (H (S i)). simpl. lia.
Qed.

Lemma scan_app_quiet pm A : forall pos y,
  (forall i, i < length A -> pm (pos + i) (skipn i (A ++ y)) = None) ->
  scan pm pos 0 (A ++ y) = scan pm (pos + length A) 0 y.
Proof.
  induction A as [|a A IH]; intros pos y H.
  - simpl. now rewrite Nat.add_0_r.
  - simpl app. rewrite scan_copy.
    + rewrite IH; [f_equal; simpl; lia|].
      intros i Hi. replace (S pos + i) with (pos + S i) by lia.
      apply (H (S i)). simpl. lia.
    + specialize (H 0). rewrite Nat.add_0_r in H. apply H. simpl. lia.
Qed.

Section OneOccurrence.

Variables pre post : text.

Let A : text := pre ++ lit "let x = opt".
Let M : text := lit ".unwrap_or(0)".
Let R : text := lit ".map_or(0, |v| v)".
Let B : text := ";"%c :: post.
Let s : text := pre ++ lit "let x = opt.unwrap_or(0);" ++ post.

Hypothesis Hs : no_match_except s (length pre + 11) = true.

Lemma one_shape : s = A ++ M ++ B /\ length A = length pre + 11.
Proof.
  unfold s, A, M, B. split.
  - now rewrite <- app_assoc.
  - now rewrite length_app.
Qed.

Lemma one_elsewhere r i :
  In r PATTERNS -> i <> length A ->
  match_here (rule_pattern r) (skipn i (A ++ M ++ B)) = None.
Proof.
  destruct one_shape as [E1 E2]. rewrite <- E1, E2.
  now apply no_match_except_spec.
Qed.

Lemma one_after r k :
  In r PATTERNS -> match_here (rule_pattern r) (skipn k B) = None.
Proof.
  intros Hr.
  replace (skipn k B) with (skipn (length A + length M + k) (A ++ M ++ B)).
  - apply one_elsewhere; [exact Hr|]. change (length M) with 13. lia.
  - replace (length A + length M + k) with (k + length (A ++ M))
      by (rewrite length_app; lia).
    rewrite app_assoc, <- skipn_skipn, skipn_app.
    now rewrite skipn_all, Nat.sub_diag.
Qed.

(** Any rule but the second has no match in the whole text. *)
Lemma one_quiet r :
  In r PATTERNS -> matches_here (rule_pattern r) (M ++ B) = false ->
  re_search (rule_pattern r) (A ++ M ++ B) = false.
Proof.
  intros Hr Hm. apply re_search_none. intros k.
  destruct (Nat.eq_dec k (length A)) as [->|Hk].
  - rewrite skipn_app, skipn_all, Nat.sub_diag. simpl.
    now apply matches_here_false.
  - now apply one_elsewhere.
Qed.

Lemma one_sub :
  re_sub (guarded_pat M) [TLit R] (A ++ M ++ B) = A ++ R ++ B.
Proof.
  assert (H2 : In (guarded_rule (M, R)) PATTERNS) by (right; left; reflexivity).
  unfold re_sub. fold (glit M R).
  rewrite sub_scan_app_quiet.
  - f_equal.
    rewrite (sub_scan_match (glit M R) (M ++ B) (length M) R).
    + f_equal. rewrite skipn_app, skipn_all, Nat.sub_diag. simpl app.
      apply quiet_sub. intros k. apply replaced_by_none.
      apply (one_after _ k H2).
    + now apply glit_consuming.
    + apply glit_intro. discriminate.
  - intros i Hi. apply replaced_by_none.
    apply (one_elsewhere _ i H2). lia.
Qed.

Lemma one_findall :
  length (re_findall (guarded_pat M) (A ++ M ++ B)) = 1.
Proof.
  assert (H2 : In (guarded_rule (M, R)) PATTERNS) by (right; left; reflexivity).
  unfold re_findall. rewrite length_map. unfold re_finditer.
  rewrite scan_app_quiet.
  - destruct (match_at (guarded_pat M) (0 + length A) (M ++ B)) as [mt|] eqn:E.
    + rewrite (scan_match _ _ _ _
                 (match_at_consuming (guarded_pat M) eq_refl) E).
      unfold match_at in E.
      rewrite (guarded_match_intro M B) in E by discriminate.
      injection E as <-. cbn [m_end].
      match goal with
      | |- context [skipn ?n (M ++ B)] =>
          replace n with (length M)
            by (try change (length M) with 13; lia)
      end.
      rewrite skipn_app, skipn_all, Nat.sub_diag. simpl app.
      rewrite scan_quiet; [reflexivity|].
      intros k. apply (one_after _ k H2).
    + apply match_at_none in E.
      rewrite (guarded_match_intro M B) in E by discriminate. discriminate.
  - intros i Hi. apply match_at_none. apply (one_elsewhere _ i H2). lia.
Qed.

Lemma one_fix_content : fix_content s = (A ++ R ++ B, 1).
Proof.
  destruct one_shape as [E1 _]. rewrite E1. unfold fix_content.
  change PATTERNS
    with (Rule2 try_exists_pat try_exists_tpl
            :: guarded_rule (M, R)
            :: map guarded_rule (tl guarded_literals)
            ++ [Rule3 get_slice_pat get_slice_fn true]).
  cbn [fold_left].
  rewrite apply_rule_quiet
    by (apply (one_quiet (Rule2 try_exists_pat try_exists_tpl));
        [now left|reflexivity]).
  change (guarded_rule (M, R)) with (Rule2 (guarded_pat M) [TLit R]).
  cbn [apply_rule]. rewrite one_sub, one_findall.
  assert (Hne : text_eqb (A ++ R ++ B) (A ++ M ++ B) = false).
  { apply text_eqb_neq. intros C. apply app_inv_head in C. discriminate. }
  rewrite Hne. apply fold_apply_rule_quiet.
  rewrite <- one_sub.
  intros r Hr. apply in_app_iff in Hr as [Hr|[<-|[]]].
  - apply in_map_iff in Hr as (LR & <- & HLR).
    assert (HLR' : In LR guarded_literals) by (right; exact HLR).
    destruct (catalogue_facts LR HLR') as (D1 & _).
    destruct (catalogue_facts (M, R) (or_introl eq_refl))
      as (E2 & E3 & _ & _ & E5).
    apply guarded_other; auto.
    apply (one_quiet (guarded_rule LR)).
    + rewrite PATTERNS_shape. right. apply in_or_app. left.
      now apply in_map.
    + simpl in HLR. clear -HLR.
      repeat (destruct HLR as [<-|HLR]; [reflexivity|]). contradiction.
  - destruct (catalogue_facts (M, R) (or_introl eq_refl))
      as (E2 & E3 & _ & E4 & _).
    apply gs_other; auto.
    apply (one_quiet (Rule3 get_slice_pat get_slice_fn true));
      [|reflexivity].
    rewrite PATTERNS_shape. right. apply in_or_app. right. now left.
Qed.

End OneOccurrence.

(** C1, the counterexample: a file with the line and one more occurrence
    gets the count 2. *)
Lemma two_occurrences_two_fixes :
  fix_content
    (lit "let x = opt.unwrap_or(0);" ++ newline
       :: lit "let y = opt.unwrap_or(0);")
  = (lit "let x = opt.map_or(0, |v| v);" ++ newline
       :: lit "let y = opt.map_or(0, |v| v);", 2)
  /\ fix_file (lit "a.rs")
       (single_file true (lit "a.rs")
          (lit "let x = opt.unwrap_or(0);" ++ newline
             :: lit "let y = opt.unwrap_or(0);"))
     = Returns 2
         (print (fixed_line 2 (lit "a.rs"))
            (write_text (lit "a.rs")
               (lit "let x = opt.map_or(0, |v| v);" ++ newline
                  :: lit "let y = opt.map_or(0, |v| v);")
               (single_file true (lit "a.rs")
                  (lit "let x = opt.unwrap_or(0);" ++ newline
                     :: lit "let y = opt.unwrap_or(0);")))).
Proof. split; vm_compute; reflexivity. Qed.

(** ** Chained calls *)

Lemma glit_ctx_some L R x w n r :
  x <> [] -> hd_error w = Some "."%c ->
  (forall j, 1 <= j < length L -> strip_prefix (skipn j L) w = None) ->
  glit L R (x ++ w) = Some (n, r) ->
  exists c l, x = L ++ c :: l /\ c <> "."%c /\ n = length L /\ r = R.
Proof.
  intros Hx Hw Hb H. apply glit_inv in H as (t & E & Ht & -> & ->).
  apply app_eq_app in E as [l [[-> ->]|[-> ->]]].
  - destruct l as [|c l]; [now rewrite app_nil_l in Ht|].
    exists c, l. repeat split; auto. intros ->. now apply Ht.
  - exfalso. destruct l as [|c l].
    + simpl in Hw. now rewrite Hw in Ht.
    + specialize (Hb (length x)).
      rewrite skipn_app, skipn_all, Nat.sub_diag in Hb. simpl in Hb.
      rewrite length_app in Hb.
      assert (C : strip_prefix (c :: l) ((c :: l) ++ t) = None).
      { apply Hb. destruct x; [congruence|]. simpl. lia. }
      now rewrite strip_prefix_app in C.
Qed.

(** Before a dot, what a guarded rule does to a text does not depend on
    what follows the dot. *)
Lemma glit_ctx_eq L R x y z :
  x <> [] -> hd_error y = Some "."%c -> hd_error z = Some "."%c ->
  (forall j, 1 <= j < length L -> strip_prefix (skipn j L) y = None) ->
  (forall j, 1 <= j < length L -> strip_prefix (skipn j L) z = None) ->
  glit L R (x ++ y) = glit L R (x ++ z)
  /\ forall n r, glit L R (x ++ y) = Some (n, r) -> n <= length x.
Proof.
  intros Hx Hy Hz By Bz.
  assert (G : forall w w' n r,
            hd_error w = Some "."%c ->
            (forall j, 1 <= j < length L -> strip_prefix (skipn j L) w = None) ->
            glit L R (x ++ w) = Some (n, r) ->
            glit L R (x ++ w') = Some (n, r) /\ n <= length x).
  { intros w w' n r Hw Bw H.
    destruct (glit_ctx_some L R x w n r Hx Hw Bw H)
      as (c & l & -> & Hc & -> & ->).
    split; [|rewrite length_app; lia].
    rewrite <- app_assoc. apply glit_intro. simpl. congruence. }
  split.
  - destruct (glit L R (x ++ y)) as [[n r]|] eqn:E.
    + symmetry. now apply (G y z n r).
    + destruct (glit L R (x ++ z)) as [[n r]|] eqn:E'; [|reflexivity].
      destruct (G z y n r Hz Bz E') as [C _]. congruence.
  - intros n r H. now apply (G y y n r).
Qed.

Lemma sub_scan_ctx_le m y z k :
  consuming m ->
  forall pre, length pre <= k ->
  (forall i, i < length pre ->
     m (skipn i pre ++ y) = m (skipn i pre ++ z)
     /\ forall n r, m (skipn i pre ++ y) = Some (n, r) ->
                    n <= length pre - i) ->
  exists pre',
    sub_scan m 0 (pre ++ y) = pre' ++ sub_scan m 0 y
    /\ sub_scan m 0 (pre ++ z) = pre' ++ sub_scan m 0 z.
Proof.
  intros Hm. induction k as [|k IH]; intros [|a pre] Hk H;
    try (exists []; split; reflexivity); [simpl length in Hk; lia|].
  destruct (H 0 (Nat.lt_0_succ _)) as [E0 B0]. simpl skipn in E0, B0.
  destruct (m ((a :: pre) ++ y)) as [[n r]|] eqn:E.
  - specialize (B0 n r eq_refl). destruct (Hm _ _ _ E) as [N1 _].
    symmetry in E0.
    rewrite (sub_scan_match _ _ _ _ Hm E), (sub_scan_match _ _ _ _ Hm E0).
    rewrite !skipn_app.
    replace (n - length (a :: pre)) with 0 by lia. simpl skipn at 2 4.
    destruct (IH (skipn n (a :: pre))) as (p' & P1 & P2).
    + rewrite length_skipn. simpl length in *. lia.
    + intros i Hi. rewrite length_skipn in Hi. rewrite skipn_skipn.
      destruct (H (i + n)) as [Q1 Q2]; [lia|].
      split; [exact Q1|]. intros n' r' Hn'. rewrite length_skipn.
      specialize (Q2 n' r' Hn'). lia.
    + exists (r ++ p'). now rewrite P1, P2, <- !app_assoc.
  - symmetry in E0. simpl app in *.
    rewrite (sub_scan_copy _ _ _ E), (sub_scan_copy _ _ _ E0).
    destruct (IH pre) as (p' & P1 & P2).
    + simpl length in Hk. lia.
    + intros i Hi. destruct (H (S i)) as [Q1 Q2]; [simpl; lia|].
      split; [exact Q1|]. intros n' r' Hn'. specialize (Q2 n' r' Hn').
      simpl length in Q2. lia.
    + exists (a :: p'). now rewrite P1, P2.
Qed.

Lemma chain_ok_all :
  forallb (fun LR => chain_ok (fst LR)) guarded_literals = true.
Proof. vm_compute. reflexivity. Qed.

Lemma chain_ok_spec L j :
  chain_ok L = true -> 1 <= j < length L ->
  clash (skipn j L) L = true /\ strip_prefix (skipn j L) ["."%c] = None.
Proof.
  unfold chain_ok. intros H Hj. apply andb_true_iff in H as [_ H].
  rewrite forallb_forall in H.
  specialize (H j). apply andb_true_iff in H as [H1 H2]; [|apply in_seq; lia].
  split; [exact H1|].
  destruct (strip_prefix (skipn j L) ["."%c]); [discriminate|reflexivity].
Qed.

Lemma guarded_in_catalogue L R :
  In (Rule2 (guarded_pat L) [TLit R]) PATTERNS -> In (L, R) guarded_literals.
Proof.
  rewrite PATTERNS_shape. intros [H|H]; [discriminate|].
  apply in_app_iff in H as [H|[H|[]]]; [|discriminate].
  apply in_map_iff in H as ([L' R'] & E & H). unfold guarded_rule in E.
  simpl in E. inversion E; subst. exact H.
Qed.

(** C4: for every guarded rule of the catalogue, an occurrence of its
    literal followed by a dot is no match of its pattern, and the
    substitution carries it over as it is: what comes before is rewritten
    as it would be before a lone dot, what comes after (the dot first) as it
    would be on its own. *)
Theorem guarded_rule_skips_chained (L R pre post : text) :
  In (Rule2 (guarded_pat L) [TLit R]) PATTERNS ->
  match_here (guarded_pat L) (L ++ "."%c :: post) = None
  /\ exists pre',
       re_sub (guarded_pat L) [TLit R] (pre ++ ["."%c])
       = pre' ++ ["."%c]
       /\ re_sub (guarded_pat L) [TLit R] (pre ++ L ++ "."%c :: post)
          = pre' ++ L
              ++ re_sub (guarded_pat L) [TLit R] ("."%c :: post)
       /\ hd_error (re_sub (guarded_pat L) [TLit R] ("."%c :: post))
          = Some "."%c.
Proof.
  intros Hin. apply guarded_in_catalogue in Hin.
  destruct (catalogue_facts (L, R) Hin) as (HL & HR & _).
  simpl fst in HL. simpl snd in HR.
  assert (Hc : chain_ok L = true).
  { pose proof chain_ok_all as H. rewrite forallb_forall in H.
    exact (H (L, R) Hin). }
  pose proof (glit_consuming L R HL) as Hm.
  pose proof (glit_dotted L R HL HR) as Hd.
  assert (Hhere : match_here (guarded_pat L) (L ++ "."%c :: post) = None).
  { unfold guarded_pat. rewrite match_here_Chars_app. reflexivity. }
  split; [exact Hhere|].
  assert (Hy : hd_error (L ++ "."%c :: post) = Some "."%c).
  { apply starts_dot_hd in HL. destruct L; [discriminate|exact HL]. }
  destruct (sub_scan_ctx_le (glit L R) (L ++ "."%c :: post) ["."%c]
              (length pre) Hm pre (le_n _)) as (pre' & P1 & P2).
  { intros i Hi.
    assert (Hx : skipn i pre <> []).
    { intros C. apply (f_equal (@length _)) in C.
      rewrite length_skipn in C. simpl in C. lia. }
    destruct (glit_ctx_eq L R (skipn i pre) (L ++ "."%c :: post)
                ["."%c] Hx Hy eq_refl) as [Q1 Q2].
    - intros j Hj. apply clash_strip. now apply chain_ok_spec.
    - intros j Hj. now apply chain_ok_spec.
    - split; [exact Q1|]. intros n r Hn. specialize (Q2 n r Hn).
      now rewrite length_skipn in Q2. }
  exists pre'. unfold re_sub. fold (glit L R).
  assert (Hdot : sub_scan (glit L R) 0 ["."%c] = ["."%c]).
  { apply quiet_sub. intros [|k]; simpl skipn.
    - destruct (glit L R ["."%c]) as [[n r]|] eqn:E; [|reflexivity].
      exfalso. apply glit_inv in E as (t & E & _).
      apply (f_equal (@length _)) in E. rewrite length_app in E.
      unfold chain_ok in Hc. apply andb_true_iff in Hc as [Hc _].
      apply Nat.ltb_lt in Hc. simpl in E. lia.
    - rewrite skipn_nil. apply replaced_by_none, leads_nil.
      now apply starts_dot_leads. }
  split; [now rewrite P2, Hdot|]. split.
  - rewrite P1. f_equal.
    assert (Hq : forall i, i < length L ->
                   glit L R (skipn i (L ++ "."%c :: post)) = None).
    { intros i Hi. apply replaced_by_none. destruct i as [|i].
      - exact Hhere.
      - unfold guarded_pat. cbn [match_here].
        rewrite skipn_app. replace (S i - length L) with 0 by lia.
        simpl skipn at 2.
        rewrite clash_strip; [reflexivity|].
        pose proof (chain_ok_spec L (S i) Hc) as [C _]; [lia|].
        now rewrite clash_sym. }
    now apply sub_scan_app_quiet.
  - now rewrite (sub_scan_hd _ Hm _ Hd).
Qed.

(** ** Replacements are longer than what they replace *)

Section Growth.

Variable m : text -> option (nat * text).
Hypothesis Hm : consuming m.
Hypothesis Hg : growing m.

Lemma sub_scan_grows_le k : forall s, length s <= k ->
  length s <= length (sub_scan m 0 s).
Proof.
  induction k as [|k IH]; intros [|c t] Hk;
    [simpl; lia|simpl in Hk; lia|simpl; lia|].
  destruct (m (c :: t)) as [[n r]|] eqn:E.
  - rewrite (sub_scan_match _ _ _ _ Hm E), length_app.
    destruct (Hm _ _ _ E) as [H1 H2]. pose proof (Hg _ _ _ E) as H3.
    assert (H4 : length (skipn n (c :: t))
                 <= length (sub_scan m 0 (skipn n (c :: t))))
      by (apply IH; rewrite length_skipn; simpl length in *; lia).
    rewrite length_skipn in H4 at 1. simpl length in *. lia.
  - rewrite sub_scan_copy by exact E. cbn [length] in *.
    specialize (IH t). lia.
Qed.

Lemma sub_scan_grows s : length s <= length (sub_scan m 0 s).
Proof. now apply (sub_scan_grows_le (length s)). Qed.

Lemma sub_scan_same_length s :
  length (sub_scan m 0 s) = length s -> quiet m s.
Proof.
  induction s as [|c t IH]; intros H.
  - intros k. rewrite skipn_nil.
    destruct (m []) as [[n r]|] eqn:E; [|reflexivity].
    destruct (Hm _ _ _ E). simpl in *. lia.
  - destruct (m (c :: t)) as [[n r]|] eqn:E.
    + exfalso. rewrite (sub_scan_match _ _ _ _ Hm E), length_app in H.
      destruct (Hm _ _ _ E) as [H1 H2]. pose proof (Hg _ _ _ E) as H3.
      pose proof (sub_scan_grows (skipn n (c :: t))) as H4.
      rewrite length_skipn in H4 at 1. simpl length in *. lia.
    + rewrite sub_scan_copy in H by exact E. simpl length in H.
      apply quiet_cons; [exact E|]. apply IH. lia.
Qed.

End Growth.

Section GrowthAt.

Variable p : regex.
Variable f : Match -> text.
Hypothesis Hp : leads p = true.
Hypothesis Hg : growing_at p f.

Lemma sub_scan_at_grows_le k : forall s pos, length s <= k ->
  length s <= length (sub_scan_at (match_at p) f pos 0 s).
Proof.
  pose proof (match_at_consuming p Hp) as Hm.
  induction k as [|k IH]; intros [|c t] pos Hk;
    [simpl; lia|simpl in Hk; lia|simpl; lia|].
  destruct (match_at p pos (c :: t)) as [mt|] eqn:E.
  - rewrite (sub_scan_at_match _ _ _ _ _ Hm E), length_app.
    destruct (Hm _ _ _ E) as (H0 & H1 & H2).
    assert (H3 : m_end mt - pos < length (f mt)).
    { unfold match_at in E.
      destruct (match_here p (c :: t)) as [[gs n]|] eqn:E'; [|discriminate].
      inversion E; subst mt. cbn [m_end].
      replace (pos + n - pos) with n by lia. now apply Hg. }
    assert (H4 : length (skipn (m_end mt - pos) (c :: t))
                 <= length (sub_scan_at (match_at p) f (m_end mt) 0
                              (skipn (m_end mt - pos) (c :: t))))
      by (apply IH; rewrite length_skipn; simpl length in *; lia).
    rewrite length_skipn in H4 at 1. simpl length in *. lia.
  - rewrite sub_scan_at_copy by exact E. cbn [length] in *.
    specialize (IH t (S pos)). lia.
Qed.

Lemma sub_scan_at_same_length s : forall pos,
  length (sub_scan_at (match_at p) f pos 0 s) = length s ->
  forall k, match_here p (skipn k s) = None.
Proof.
  pose proof (match_at_consuming p Hp) as Hm.
  induction s as [|c t IH]; intros pos H k.
  - rewrite skipn_nil. now apply leads_nil.
  - destruct (match_at p pos (c :: t)) as [mt|] eqn:E.
    + exfalso. rewrite (sub_scan_at_match _ _ _ _ _ Hm E), length_app in H.
      destruct (Hm _ _ _ E) as (H0 & H1 & H2).
      assert (H3 : m_end mt - pos < length (f mt)).
      { unfold match_at in E.
        destruct (match_here p (c :: t)) as [[gs n]|] eqn:E'; [|discriminate].
        inversion E; subst mt. cbn [m_end].
        replace (pos + n - pos) with n by lia. now apply Hg. }
      pose proof (sub_scan_at_grows_le
                    (length (skipn (m_end mt - pos) (c :: t)))
                    (skipn (m_end mt - pos) (c :: t)) (m_end mt) (le_n _))
        as H4.
      rewrite length_skipn in H4 at 1. simpl length in *. lia.
    + rewrite sub_scan_at_copy in H by exact E. simpl length in H.
      destruct k as [|k]; [now apply match_at_none in E|].
      simpl skipn. apply (IH (S pos)). lia.
Qed.

End GrowthAt.

Lemma te_growing : growing (replaced_by try_exists_pat (expand try_exists_tpl)).
Proof.
  intros s n r H. apply replaced_by_some in H as (gs & H & ->).
  apply te_inv in H as (X & rest & _ & _ & _ & -> & ->).
  unfold expand, try_exists_tpl, group. cbn [flat_map m_groups nth].
  rewrite !length_app. simpl. lia.
Qed.

Lemma gs_growing : growing_at get_slice_pat get_slice_fn.
Proof.
  intros s gs n pos E. unfold get_slice_pat in E.
  apply match_here_Chars_inv in E as (s1 & n1 & -> & E & ->).
  apply match_here_Group_inv in E
    as (A & s2 & gs2 & n2 & _ & _ & _ & -> & E & -> & ->).
  apply match_here_Chars_inv in E as (s3 & n3 & -> & E & ->).
  apply match_here_Group_inv in E
    as (B & s4 & gs4 & n4 & _ & _ & _ & -> & E & -> & ->).
  apply match_here_Chars_inv in E as (rest & n5 & -> & E & ->).
  simpl in E. inversion E; subst.
  unfold get_slice_fn, group. cbn [m_groups nth].
  rewrite !length_app. simpl. lia.
Qed.

Lemma guarded_longer :
  forallb (fun LR => length (fst LR) <? length (snd LR)) guarded_literals
  = true.
Proof. vm_compute. reflexivity. Qed.

Lemma PATTERNS_grow r : In r PATTERNS -> rule_grows r.
Proof.
  rewrite PATTERNS_shape. intros [<-|H].
  - split; [reflexivity|exact te_growing].
  - apply in_app_iff in H as [H|[<-|[]]].
    + apply in_map_iff in H as (LR & <- & HLR).
      destruct (catalogue_facts LR HLR) as (D1 & _).
      split; [now apply starts_dot_leads|].
      intros s n r' E. apply glit_inv in E as (_ & _ & _ & -> & ->).
      pose proof guarded_longer as G. rewrite forallb_forall in G.
      now apply Nat.ltb_lt, G.
    + split; [reflexivity|exact gs_growing].
Qed.

(** ** One rule, then all of them *)

Lemma re_finditer_some p s :
  leads p = true -> re_search p s = true -> 1 <= length (re_finditer p s).
Proof.
  intros Hp Hs. destruct (re_finditer p s) eqn:E; [|simpl; lia].
  apply re_finditer_nil in E; [congruence|exact Hp].
Qed.

Lemma apply_rule_step original content fixes r :
  rule_grows r ->
  length content <= length (fst (apply_rule original (content, fixes) r))
  /\ fixes <= snd (apply_rule original (content, fixes) r)
  /\ (length (fst (apply_rule original (content, fixes) r)) = length content ->
      re_search (rule_pattern r) content = false)
  /\ (re_search (rule_pattern r) content = true -> original = content ->
      fixes < snd (apply_rule original (content, fixes) r)).
Proof.
  destruct r as [p t|p f [|]]; intros [Hp Hg]; cbn [rule_pattern].
  - pose proof (replaced_by_consuming p (expand t) Hp) as Hm.
    assert (Hq : length (re_sub p t content) = length content ->
                 re_search p content = false).
    { intros H. apply (quiet_replaced_by p (expand t)).
      now apply sub_scan_same_length. }
    cbn [apply_rule].
    destruct (text_eqb (re_sub p t content) content) eqn:E; cbn [fst snd].
    + apply text_eqb_eq in E. rewrite E in Hq.
      split; [lia|]. split; [lia|]. split; [exact Hq|].
      intros Hs _. rewrite Hq in Hs by reflexivity. discriminate.
    + split; [now apply sub_scan_grows|]. split; [lia|].
      split; [exact Hq|].
      intros Hs ->. unfold re_findall. rewrite length_map.
      pose proof (re_finditer_some p content Hp Hs). lia.
  - cbn [apply_rule]. unfold re_finditer.
    rewrite (splice_scan _ _ (match_at_consuming p Hp)). cbn [fst snd].
    fold (re_finditer p content).
    split; [now apply (sub_scan_at_grows_le p f Hp Hg (length content))|].
    split; [lia|]. split.
    + intros H. apply re_search_none.
      now apply (sub_scan_at_same_length p f Hp Hg content 0).
    + intros Hs _. pose proof (re_finditer_some p content Hp Hs). lia.
  - assert (Hq : length (re_sub_fn p f content) = length content ->
                 re_search p content = false).
    { intros H. apply re_search_none.
      now apply (sub_scan_at_same_length p f Hp Hg content 0). }
    cbn [apply_rule].
    destruct (text_eqb (re_sub_fn p f content) content) eqn:E; cbn [fst snd].
    + apply text_eqb_eq in E. rewrite E in Hq.
      split; [lia|]. split; [lia|]. split; [exact Hq|].
      intros Hs _. rewrite Hq in Hs by reflexivity. discriminate.
    + split; [now apply (sub_scan_at_grows_le p f Hp Hg (length content))|].
      split; [lia|]. split; [exact Hq|].
      intros Hs ->. unfold re_findall. rewrite length_map.
      pose proof (re_finditer_some p content Hp Hs). lia.
Qed.

Lemma run_steps original rs : forall content fixes,
  (forall r, In r rs -> rule_grows r) ->
  length content
  <= length (fst (fold_left (apply_rule original) rs (content, fixes)))
  /\ fixes <= snd (fold_left (apply_rule original) rs (content, fixes))
  /\ (length (fst (fold_left (apply_rule original) rs (content, fixes)))
      = length content ->
      forall r, In r rs -> re_search (rule_pattern r) content = false).
Proof.
  induction rs as [|r rs IH]; intros content fixes H.
  - cbn [fold_left fst snd]. split; [apply le_n|]. split; [apply le_n|].
    intros _ r [].
  - cbn [fold_left].
    destruct (apply_rule_step original content fixes r (H r (or_introl eq_refl)))
      as (S1 & S2 & S3 & _).
    destruct (apply_rule original (content, fixes) r) as [c1 n1] eqn:E.
    rewrite ?E in S1, S2, S3. cbn [fst snd] in *.
    destruct (IH c1 n1 (fun r' Hr' => H r' (or_intror Hr'))) as (I1 & I2 & I3).
    split; [exact (Nat.le_trans _ _ _ S1 I1)|].
    split; [exact (Nat.le_trans _ _ _ S2 I2)|].
    intros Hlen r' Hin.
    assert (Hc1 : length c1 = length content)
      by (apply Nat.le_antisymm; [rewrite <- Hlen; exact I1|exact S1]).
    assert (Hq : re_search (rule_pattern r) content = false)
      by (apply S3; exact Hc1).
    destruct Hin as [<-|Hr']; [exact Hq|].
    assert (E2 : (c1, n1) = (content, fixes))
      by (rewrite <- E; exact (apply_rule_quiet original content fixes r Hq)).
    inversion E2; subst c1 n1. apply I3; [exact Hlen|exact Hr'].
Qed.

(** When the text has changed at the end, the count is at least 1: the
    first rule that changes the text still sees the original text, where
    its matches are counted. *)
Lemma run_counts content rs : forall fixes,
  (forall r, In r rs -> rule_grows r) ->
  fst (fold_left (apply_rule content) rs (content, fixes)) <> content ->
  fixes < snd (fold_left (apply_rule content) rs (content, fixes)).
Proof.
  induction rs as [|r rs IH]; intros fixes H Hne.
  - simpl in Hne. congruence.
  - cbn [fold_left] in *.
    destruct (re_search (rule_pattern r) content) eqn:Hs.
    + destruct (apply_rule_step content content fixes r
                  (H r (or_introl eq_refl))) as (_ & _ & _ & S4).
      specialize (S4 Hs eq_refl).
      destruct (apply_rule content (content, fixes) r) as [c1 n1] eqn:E.
      assert (S4' : fixes < n1) by exact S4.
      destruct (run_steps content rs c1 n1
                  (fun r' Hr' => H r' (or_intror Hr'))) as (_ & I2 & _).
      exact (Nat.lt_le_trans _ _ _ S4' I2).
    + rewrite (apply_rule_quiet content content fixes r Hs) in *.
      apply IH; [|exact Hne]. intros r' Hr'. apply H. now right.
Qed.

(** ** A match depends on the text it covers and on one more character *)

Lemma firstn_app_prefix {A} (l : list A) : forall k s t,
  firstn (length l + k) s = l ++ t ->
  exists s1, s = l ++ s1 /\ firstn k s1 = t.
Proof.
  induction l as [|a l IH]; intros k s t H; [exists s; auto|].
  destruct s as [|b s]; [discriminate|]. simpl in H. inversion H; subst b.
  destruct (IH k s t H2) as (s1 & -> & Ht). exists s1. auto.
Qed.

Lemma span_stop (cls : char -> bool) (g s1 : text) :
  forallb cls g = true ->
  match s1 with [] => True | c :: _ => cls c = false end ->
  span cls (g ++ s1) = (g, s1).
Proof.
  intros Hg Hs. destruct s1 as [|c r].
  - rewrite app_nil_r. clear Hs. induction g as [|a g IH]; [reflexivity|].
    simpl in *. apply andb_true_iff in Hg as [Ha Hg]. now rewrite Ha, IH.
  - now apply span_run.
Qed.

Lemma firstn_S_hd {A} (s s' : list A) n :
  firstn (S n) s' = firstn (S n) s -> hd_error s' = hd_error s.
Proof. destruct s, s'; simpl; congruence. Qed.

Lemma match_here_local p : forall s s' gs n,
  match_here p s = Some (gs, n) ->
  firstn (S n) s' = firstn (S n) s ->
  match_here p s' = Some (gs, n).
Proof.
  induction p as [|a p IH]; intros s s' gs n H E.
  - simpl in *. exact H.
  - destruct a as [l|cls|cls].
    + apply match_here_Chars_inv in H as (s1 & n1 & -> & H & ->).
      replace (S (length l + n1)) with (length l + S n1) in E by lia.
      rewrite firstn_app_2 in E.
      apply firstn_app_prefix in E as (s1' & -> & E).
      rewrite match_here_Chars_app. now rewrite (IH _ _ _ _ H E).
    + apply match_here_Group_inv in H
        as (g & s1 & gs1 & n1 & Hg & Ha & Hsp & -> & H & -> & ->).
      replace (S (length g + n1)) with (length g + S n1) in E by lia.
      rewrite firstn_app_2 in E.
      apply firstn_app_prefix in E as (s1' & -> & E).
      cbn [match_here].
      assert (Hst : span cls (g ++ s1') = (g, s1')).
      { apply span_stop; [exact Ha|].
        pose proof (firstn_S_hd _ _ _ E) as Hh.
        pose proof (span_app cls (g ++ s1)) as Happ.
        pose proof (span_snd_hd cls (g ++ s1)) as Hsnd.
        rewrite Hsp in Hsnd. cbn [snd] in Hsnd.
        destruct s1' as [|c r]; [exact I|].
        destruct s1 as [|d r1]; [discriminate|]. simpl in Hh.
        inversion Hh; subst d. now apply (Hsnd c r1). }
      rewrite Hst. destruct g as [|c g]; [congruence|].
      now rewrite (IH _ _ _ _ H E).
    + apply match_here_NotFollowedBy_inv in H as [H Hc].
      pose proof (firstn_S_hd _ _ _ E) as Hh.
      cbn [match_here].
      destruct s' as [|c' r']; destruct s as [|c r]; try discriminate.
      * now apply (IH _ _ _ _ H).
      * simpl in Hh. inversion Hh; subst c'. rewrite Hc.
        now apply (IH _ _ _ _ H).
Qed.

Lemma firstn_firstn_S {A} (s s' : list A) n :
  firstn (S n) s' = firstn (S n) s -> firstn n s' = firstn n s.
Proof.
  intros H. apply (f_equal (firstn n)) in H.
  rewrite !firstn_firstn in H. now replace (Nat.min n (S n)) with n in H by lia.
Qed.

Lemma replaced_by_local p f s s' n r :
  replaced_by p f s = Some (n, r) ->
  firstn (S n) s' = firstn (S n) s ->
  replaced_by p f s' = Some (n, r).
Proof.
  intros H E. apply replaced_by_some in H as (gs & H & ->).
  apply replaced_by_some. exists gs.
  split; [now apply (match_here_local p s)|].
  now rewrite (firstn_firstn_S _ _ _ E).
Qed.

(** ** Segments no match touches *)

Section Carry.

Variable p : regex.
Variable f : Match -> text.
Hypothesis Hp : leads p = true.

Let m := replaced_by p f.

Variable W : text.
Hypothesis HW : W <> [].

(** A match that starts before [W] ends before [W]. *)
Hypothesis Hover : forall x y n r,
  m (x ++ W ++ y) = Some (n, r) -> n <= length x.

Lemma carry_same x y y' : m (x ++ W ++ y) = m (x ++ W ++ y').
Proof.
  assert (G : forall y y' n r,
            m (x ++ W ++ y) = Some (n, r) -> m (x ++ W ++ y') = Some (n, r)).
  { intros z z' n r H. pose proof (Hover _ _ _ _ H) as Hn.
    apply (replaced_by_local p f (x ++ W ++ z)); [exact H|].
    destruct W as [|c W1]; [congruence|].
    rewrite !firstn_app. f_equal.
    destruct (Nat.eq_dec n (length x)) as [->|Hne].
    - replace (S (length x) - length x) with 1 by lia. reflexivity.
    - replace (S n - length x) with 0 by lia. reflexivity. }
  destruct (m (x ++ W ++ y)) as [[n r]|] eqn:E.
  - symmetry. now apply (G y y').
  - destruct (m (x ++ W ++ y')) as [[n r]|] eqn:E'; [|reflexivity].
    rewrite (G y' y n r E') in E. discriminate.
Qed.

Lemma carry_pre_le k : forall pre, length pre <= k ->
  exists pre', forall post,
    sub_scan m 0 (pre ++ W ++ post) = pre' ++ sub_scan m 0 (W ++ post).
Proof.
  pose proof (replaced_by_consuming p f Hp) as Hm. fold m in Hm.
  induction k as [|k IH]; intros [|a pre] Hk;
    try (exists []; intros post; reflexivity); [simpl length in Hk; lia|].
  destruct (m ((a :: pre) ++ W ++ [])) as [[n r]|] eqn:E.
  - pose proof (Hover _ _ _ _ E) as Hn. destruct (Hm _ _ _ E) as [N1 _].
    destruct (IH (skipn n (a :: pre))) as (pre' & Hpre').
    { rewrite length_skipn. simpl length in *. lia. }
    exists (r ++ pre'). intros post.
    assert (E' : m ((a :: pre) ++ W ++ post) = Some (n, r))
      by (rewrite <- E; apply carry_same).
    rewrite (sub_scan_match _ _ _ _ Hm E'), skipn_app.
    replace (n - length (a :: pre)) with 0 by lia. simpl skipn at 2.
    now rewrite Hpre', <- app_assoc.
  - destruct (IH pre) as (pre' & Hpre'); [simpl length in Hk; lia|].
    exists (a :: pre'). intros post.
    assert (E' : m ((a :: pre) ++ W ++ post) = None)
      by (rewrite <- E; apply carry_same).
    simpl app in *. rewrite (sub_scan_copy _ _ _ E'). now rewrite Hpre'.
Qed.

(** When moreover the substitution turns [W] at the head of a text into
    [W'] and goes on after it, [W] is carried to [W']. *)
Lemma carry W' :
  (forall post, sub_scan m 0 (W ++ post) = W' ++ sub_scan m 0 post) ->
  carries m W W'.
Proof.
  intros Hin pre. destruct (carry_pre_le (length pre) pre (le_n _))
    as (pre' & H).
  exists pre'. intros post. now rewrite H, Hin.
Qed.

End Carry.

(** ** The text after each rule *)

Lemma sub_scan_reads_groups p f s : reads_groups f -> forall pos,
  sub_scan (replaced_by p f) 0 s = sub_scan_at (match_at p) f pos 0 s.
Proof.
  intros Hf.
  assert (G : forall k s pos,
            sub_scan (replaced_by p f) k s
            = sub_scan_at (match_at p) f pos k s).
  { intros k s0. revert k. induction s0 as [|c u IH]; intros k pos;
      [reflexivity|].
    destruct k as [|k]; [|simpl; apply IH].
    cbn [sub_scan sub_scan_at]. unfold replaced_by, match_at.
    destruct (match_here p (c :: u)) as [[gs n]|].
    - cbn [m_end]. replace (pos + n - pos) with n by lia.
      rewrite Nat.add_0_l. f_equal; [apply Hf|apply IH].
    - f_equal. apply IH. }
  intros pos. apply G.
Qed.

Lemma expand_reads_groups t : reads_groups (expand t).
Proof. intros a b a' b' gs. reflexivity. Qed.

Lemma get_slice_fn_reads_groups : reads_groups get_slice_fn.
Proof. intros a b a' b' gs. reflexivity. Qed.

Lemma PATTERNS_read_groups r :
  In r PATTERNS -> reads_groups (rule_replacement r).
Proof.
  rewrite PATTERNS_shape. intros [<-|H]; [apply expand_reads_groups|].
  apply in_app_iff in H as [H|[<-|[]]].
  - apply in_map_iff in H as (LR & <- & _). apply expand_reads_groups.
  - apply get_slice_fn_reads_groups.
Qed.

Lemma apply_rule_text original content fixes r :
  leads (rule_pattern r) = true -> reads_groups (rule_replacement r) ->
  fst (apply_rule original (content, fixes) r)
  = sub_scan (rule_matcher r) 0 content.
Proof.
  intros Hp Hf. unfold rule_matcher.
  destruct r as [pt t|pt f [|]]; cbn [rule_pattern rule_replacement] in *.
  - apply apply_rule_Rule2_fst.
  - cbn [apply_rule]. unfold re_finditer.
    rewrite (splice_scan _ _ (match_at_consuming pt Hp)). cbn [fst].
    symmetry. now apply sub_scan_reads_groups.
  - cbn [apply_rule]. fold (re_sub_fn pt f content).
    rewrite (sub_scan_reads_groups pt f content Hf 0).
    fold (re_sub_fn pt f content).
    destruct (text_eqb (re_sub_fn pt f content) content) eqn:E; [|reflexivity].
    apply text_eqb_eq in E. cbn [fst]. now rewrite E.
Qed.

Lemma fold_apply_rule_text original rs : forall content fixes,
  (forall r, In r rs -> leads (rule_pattern r) = true
                        /\ reads_groups (rule_replacement r)) ->
  fst (fold_left (apply_rule original) rs (content, fixes))
  = run_rules rs content.
Proof.
  induction rs as [|r rs IH]; intros content fixes H; [reflexivity|].
  cbn [fold_left run_rules].
  destruct (H r (or_introl eq_refl)) as [Hp Hf].
  pose proof (apply_rule_text original content fixes r Hp Hf) as E.
  destruct (apply_rule original (content, fixes) r) as [c n].
  cbn [fst] in E. subst c. apply IH. intros r' Hr'. apply H. now right.
Qed.

Lemma fix_content_text content :
  fst (fix_content content) = run_rules PATTERNS content.
Proof.
  apply fold_apply_rule_text. intros r Hr.
  split; [now apply PATTERNS_lead|now apply PATTERNS_read_groups].
Qed.

Lemma run_rules_app rs1 rs2 content :
  run_rules (rs1 ++ rs2) content = run_rules rs2 (run_rules rs1 content).
Proof. apply fold_left_app. Qed.

(** Rules that carry a segment, one after the other. *)
Lemma run_rules_carry rs W : 
  (forall r, In r rs -> carries (rule_matcher r) W W) ->
  forall pre, exists pre', forall post,
    run_rules rs (pre ++ W ++ post) = pre' ++ W ++ run_rules rs post.
Proof.
  induction rs as [|r rs IH]; intros H pre.
  - exists pre. reflexivity.
  - destruct (H r (or_introl eq_refl) pre) as (pre1 & H1).
    destruct (IH (fun r' Hr' => H r' (or_intror Hr')) pre1) as (pre2 & H2).
    exists pre2. intros post. cbn [run_rules fold_left].
    rewrite H1. apply H2.
Qed.

(** ** Guarded literal rules and a segment *)

Lemma clear_of_left L W k :
  clear_of L W = true -> k < length L -> clash (skipn k L) W = true.
Proof.
  unfold clear_of. intros H Hk. apply andb_true_iff in H as [H _].
  rewrite forallb_forall in H. apply H, in_seq. lia.
Qed.

Lemma clear_of_right L W i :
  clear_of L W = true -> i < length W -> clash L (skipn i W) = true.
Proof.
  unfold clear_of. intros H Hk. apply andb_true_iff in H as [_ H].
  rewrite forallb_forall in H. apply H, in_seq. lia.
Qed.

Lemma clash_nil_r a : clash a [] = false.
Proof. now destruct a. Qed.

Lemma clear_of_nonempty L W : clear_of L W = true -> L <> [] -> W <> [].
Proof.
  intros H HL ->. destruct L as [|c L]; [congruence|].
  pose proof (clear_of_left _ _ 0 H (Nat.lt_0_succ _)) as C.
  simpl in C. discriminate.
Qed.

(** A literal whose suffixes do not fit the start of [W] ends before [W]. *)
Lemma literal_over L W x y t :
  (forall k, k < length L -> clash (skipn k L) W = true) ->
  x ++ W ++ y = L ++ t -> length L <= length x.
Proof.
  intros H E. destruct (Nat.le_gt_cases (length L) (length x)) as [Hle|Hgt];
    [exact Hle|exfalso].
  apply (f_equal (skipn (length x))) in E.
  rewrite skipn_app, skipn_all, Nat.sub_diag in E. simpl in E.
  rewrite skipn_app in E. replace (length x - length L) with 0 in E by lia.
  simpl skipn in E. symmetry in E. revert E. apply clash_app. now apply H.
Qed.

Lemma glit_over L R W x y n r :
  (forall k, k < length L -> clash (skipn k L) W = true) ->
  glit L R (x ++ W ++ y) = Some (n, r) -> n <= length x.
Proof.
  intros H E. apply glit_inv in E as (t & E & _ & -> & _).
  now apply (literal_over L W x y t).
Qed.

Lemma glit_in L R W post i :
  (forall i, i < length W -> clash L (skipn i W) = true) ->
  i < length W -> glit L R (skipn i (W ++ post)) = None.
Proof.
  intros H Hi. rewrite skipn_app. replace (i - length W) with 0 by lia.
  simpl skipn. apply replaced_by_none. unfold guarded_pat. cbn [match_here].
  now rewrite (clash_strip L _ post (H i Hi)).
Qed.

Lemma guarded_carries L R W :
  starts_dot L = true -> clear_of L W = true -> carries (glit L R) W W.
Proof.
  intros HL Hc. assert (HW : W <> []).
  { apply (clear_of_nonempty L W Hc). now destruct L. }
  apply (carry (guarded_pat L) (expand [TLit R]) (starts_dot_leads L HL) W HW).
  - intros x y n r. apply glit_over. intros k Hk. now apply clear_of_left.
  - intros post. apply sub_scan_app_quiet. intros i Hi.
    apply glit_in; [|exact Hi]. intros j Hj. now apply clear_of_right.
Qed.

(** The rule's own literal inside a segment, where a character other than
    the dot follows it: the literal is replaced. *)
Lemma guarded_rewrites_segment L R A c B :
  starts_dot L = true -> dot c = false ->
  (forall k, k < length L -> clash (skipn k L) (A ++ L ++ c :: B) = true) ->
  (forall i, i < length A -> clash L (skipn i (A ++ L ++ c :: B)) = true) ->
  (forall i, i < S (length B) -> clash L (skipn i (c :: B)) = true) ->
  A <> [] ->
  carries (glit L R) (A ++ L ++ c :: B) (A ++ R ++ c :: B).
Proof.
  intros HL Hc H1 H2 H3 HA.
  pose proof (glit_consuming L R HL) as Hm.
  apply (carry (guarded_pat L) (expand [TLit R]) (starts_dot_leads L HL)).
  - destruct A; [congruence|discriminate].
  - intros x y n r. now apply glit_over.
  - intros post. fold (glit L R). rewrite <- !app_assoc.
    rewrite sub_scan_app_quiet.
    + f_equal. rewrite (sub_scan_match (glit L R) _ (length L) R Hm).
      * f_equal. rewrite skipn_app, skipn_all, Nat.sub_diag. simpl skipn.
        simpl app.
        change (c :: B ++ post) with ((c :: B) ++ post).
        apply sub_scan_app_quiet. intros i Hi.
        apply glit_in; [|exact Hi]. exact H3.
      * apply glit_intro. simpl. intros E. inversion E; subst c.
        discriminate.
    + intros i Hi.
      replace (A ++ L ++ (c :: B) ++ post) with ((A ++ L ++ c :: B) ++ post)
        by (now rewrite <- !app_assoc).
      rewrite skipn_app.
      replace (i - length (A ++ L ++ c :: B)) with 0
        by (rewrite length_app; lia).
      simpl skipn. apply replaced_by_none. unfold guarded_pat.
      cbn [match_here]. now rewrite (clash_strip L _ post (H2 i Hi)).
Qed.

(** ** The first rule and a segment *)

Lemma te_clear_paren W :
  te_clear W = true ->
  exists w0 z, W = w0 ++ z /\ forallb not_close_paren w0 = true
               /\ hd_error z = Some ")"%c /\ clash te_tail z = true.
Proof.
  unfold te_clear. intros H. apply andb_true_iff in H as [H _].
  apply andb_true_iff in H as [H _].
  pose proof (span_app not_close_paren W) as Hs.
  pose proof (span_all not_close_paren W) as Ha.
  pose proof (span_snd_hd not_close_paren W) as Hh.
  destruct (span not_close_paren W) as [w0 z]. cbn [fst snd] in *.
  exists w0, z. split; [now symmetry|]. split; [exact Ha|].
  split; [|exact H]. destruct z as [|c z]; [discriminate|].
  now rewrite (not_close_paren_false c (Hh c z eq_refl)).
Qed.

Lemma te_clear_tail W k :
  te_clear W = true -> 1 <= k < length te_tail ->
  clash (skipn k te_tail) W = true.
Proof.
  unfold te_clear. intros H Hk. apply andb_true_iff in H as [H _].
  apply andb_true_iff in H as [_ H]. rewrite forallb_forall in H.
  apply H, in_seq. lia.
Qed.

Lemma te_clear_head W i :
  te_clear W = true -> i < length W -> clash te_head (skipn i W) = true.
Proof.
  unfold te_clear. intros H Hi. apply andb_true_iff in H as [_ H].
  rewrite forallb_forall in H. apply H, in_seq. lia.
Qed.

Lemma te_over W x y n r :
  te_clear W = true ->
  replaced_by try_exists_pat (expand try_exists_tpl) (x ++ W ++ y)
  = Some (n, r) ->
  n <= length x.
Proof.
  intros Hc E. destruct (te_clear_paren W Hc) as (w0 & z & -> & Hw0 & Hz & Hcz).
  apply replaced_by_some in E as (gs & E & _).
  pose proof E as E0.
  apply te_inv in E as (X & rest & HX & Hn & E & _ & ->).
  rewrite (app_assoc te_head) in E.
  apply app_eq_app in E as [l [[Ex El]|[Ex El]]].
  - (* the run of the match ends inside [x] *)
    destruct (Nat.le_gt_cases (length te_tail) (length l)) as [Hle|Hgt].
    + rewrite Ex, !length_app in *. lia.
    + exfalso.
      assert (Hl : l <> []).
      { intros ->. simpl in El. rewrite app_nil_r in Ex. subst x.
        assert (M : matches_here try_exists_pat
                      ((te_head ++ X) ++ (w0 ++ z) ++ y) = true)
          by (unfold matches_here; now rewrite E0).
        rewrite <- !app_assoc in M. rewrite !app_assoc in M.
        rewrite <- (app_assoc _ z y) in M.
        rewrite te_blocked in M; [discriminate| |exact Hz|exact Hcz].
        rewrite !forallb_app. now rewrite Hn, Hw0. }
      apply (f_equal (skipn (length l))) in El.
      rewrite (skipn_app (length l) l), (skipn_app _ te_tail) in El.
      rewrite skipn_all, Nat.sub_diag in El.
      replace (length l - length te_tail) with 0 in El by lia.
      cbn [skipn app] in El. revert El. apply clash_app.
      apply te_clear_tail; [exact Hc|]. destruct l; [congruence|].
      simpl length in *. lia.
  - (* [x] lies inside the run: no closing parenthesis before [z] *)
    exfalso.
    assert (M : matches_here try_exists_pat (x ++ (w0 ++ z) ++ y) = true)
      by (unfold matches_here; now rewrite E0).
    rewrite <- app_assoc, app_assoc in M.
    rewrite te_blocked in M; [discriminate| |exact Hz|exact Hcz].
    assert (Hx : forallb not_close_paren (x ++ l) = true).
    { rewrite <- Ex, forallb_app. now rewrite Hn. }
    rewrite forallb_app in Hx. apply andb_true_iff in Hx as [Hx _].
    rewrite forallb_app. now rewrite Hx, Hw0.
Qed.

Lemma te_carries W :
  te_clear W = true ->
  carries (replaced_by try_exists_pat (expand try_exists_tpl)) W W.
Proof.
  intros Hc. assert (HW : W <> []).
  { destruct (te_clear_paren W Hc) as (w0 & z & -> & _ & Hz & _).
    destruct z; [discriminate|]. now destruct w0. }
  apply (carry try_exists_pat (expand try_exists_tpl) eq_refl W HW).
  - intros x y n r. now apply te_over.
  - intros post. apply sub_scan_app_quiet. intros i Hi.
    rewrite skipn_app. replace (i - length W) with 0 by lia. simpl skipn.
    apply replaced_by_none, matches_here_false, te_in_replacement.
    now apply te_clear_head.
Qed.

(** ** The callback rule and a segment *)

Lemma gs_alphabet s gs n :
  match_here get_slice_pat s = Some (gs, n) ->
  forallb gs_char (firstn n s) = true.
Proof.
  intros E. unfold get_slice_pat in E. fold gs_head in E. fold gs_tail in E.
  apply match_here_Chars_inv in E as (s1 & n1 & -> & E & ->).
  apply match_here_Group_inv in E
    as (A & s2 & gs2 & n2 & HA & HdA & _ & -> & E & -> & ->).
  apply match_here_Chars_inv in E as (s3 & n3 & -> & E & ->).
  apply match_here_Group_inv in E
    as (B & s4 & gs4 & n4 & HB & HdB & _ & -> & E & -> & ->).
  apply match_here_Chars_inv in E as (rest & n5 & -> & E & ->).
  simpl in E. inversion E; subst gs4 n5; clear E.
  replace (length gs_head + (length A + (length (lit "..")
             + (length B + (length gs_tail + 0)))))
    with (length (gs_head ++ A ++ lit ".." ++ B ++ gs_tail) + 0)
    by (rewrite !length_app; lia).
  rewrite !app_assoc, firstn_app_2. simpl firstn. rewrite app_nil_r.
  rewrite !forallb_app.
  assert (Hd : forall g, forallb digit g = true -> forallb gs_char g = true).
  { intros g Hg. rewrite forallb_forall in *. intros c Hc. unfold gs_char.
    now rewrite (Hg c Hc). }
  rewrite (Hd A HdA), (Hd B HdB). reflexivity.
Qed.

Lemma gs_over W x y n r :
  gs_clear W = true ->
  replaced_by get_slice_pat get_slice_fn (x ++ W ++ y) = Some (n, r) ->
  n <= length x.
Proof.
  unfold gs_clear. intros Hc E. apply andb_true_iff in Hc as [Hc _].
  destruct W as [|c W]; [discriminate|].
  apply replaced_by_some in E as (gs & E & _).
  apply gs_alphabet in E.
  destruct (Nat.le_gt_cases n (length x)) as [Hle|Hgt]; [exact Hle|exfalso].
  rewrite firstn_app, forallb_app in E. apply andb_true_iff in E as [_ E].
  destruct (n - length x) as [|k] eqn:Ek; [lia|].
  simpl in E. apply andb_true_iff in E as [E _]. now rewrite E in Hc.
Qed.

Lemma gs_carries W :
  gs_clear W = true -> carries (replaced_by get_slice_pat get_slice_fn) W W.
Proof.
  intros Hc. assert (HW : W <> []).
  { unfold gs_clear in Hc. intros ->. discriminate. }
  apply (carry get_slice_pat get_slice_fn eq_refl W HW).
  - intros x y n r. now apply gs_over.
  - intros post. apply sub_scan_app_quiet. intros i Hi.
    rewrite skipn_app. replace (i - length W) with 0 by lia. simpl skipn.
    apply replaced_by_none, matches_here_false, gs_in_replacement.
    unfold gs_clear in Hc. apply andb_true_iff in Hc as [_ Hc].
    rewrite forallb_forall in Hc. apply Hc, in_seq. lia.
Qed.

(** ** The line [let x = opt.unwrap_or(0);] in any file *)

Lemma rule_matcher_guarded LR :
  rule_matcher (guarded_rule LR) = glit (fst LR) (snd LR).
Proof. reflexivity. Qed.

Lemma old_line_first_rule :
  te_clear (lit "let x = opt.unwrap_or(0);") = true.
Proof. vm_compute. reflexivity. Qed.

Lemma new_line_clear :
  forallb (fun LR => clear_of (fst LR) (lit "let x = opt.map_or(0, |v| v);"))
          (tl guarded_literals)
  && gs_clear (lit "let x = opt.map_or(0, |v| v);") = true.
Proof. vm_compute. reflexivity. Qed.

Lemma line_carried (pre : text) :
  exists pre', forall post,
    run_rules PATTERNS (pre ++ lit "let x = opt.unwrap_or(0);" ++ post)
    = pre' ++ lit "let x = opt.map_or(0, |v| v);" ++ run_rules PATTERNS post.
Proof.
  pose proof new_line_clear as Hc. apply andb_true_iff in Hc as [Hg Hs].
  rewrite forallb_forall in Hg.
  change PATTERNS
    with ([Rule2 try_exists_pat try_exists_tpl;
           guarded_rule (lit ".unwrap_or(0)", lit ".map_or(0, |v| v)")]
            ++ (map guarded_rule (tl guarded_literals)
                  ++ [Rule3 get_slice_pat get_slice_fn true])).
  destruct (te_carries _ old_line_first_rule pre) as (pre1 & H1).
  destruct (guarded_rewrites_segment (lit ".unwrap_or(0)")
              (lit ".map_or(0, |v| v)") (lit "let x = opt") ";"%c []
              eq_refl eq_refl) with (pre := pre1) as (pre2 & H2).
  { intros k Hk. change (length (lit ".unwrap_or(0)")) with 13 in Hk.
    do 13 (destruct k as [|k]; [reflexivity|]). lia. }
  { intros i Hi. change (length (lit "let x = opt")) with 11 in Hi.
    do 11 (destruct i as [|i]; [reflexivity|]). lia. }
  { intros i Hi. destruct i as [|i]; [reflexivity|]. simpl in Hi. lia. }
  { discriminate. }
  destruct (run_rules_carry
              (map guarded_rule (tl guarded_literals)
                 ++ [Rule3 get_slice_pat get_slice_fn true])
              (lit "let x = opt.map_or(0, |v| v);")) with (pre := pre2)
    as (pre3 & H3).
  { intros r Hr. apply in_app_iff in Hr as [Hr|[<-|[]]].
    - apply in_map_iff in Hr as (LR & <- & HLR).
      rewrite rule_matcher_guarded.
      apply guarded_carries; [|now apply Hg].
      apply (catalogue_facts LR). now right.
    - now apply gs_carries. }
  exists pre3. intros post. rewrite !run_rules_app.
  cbn [run_rules fold_left].
  change (rule_matcher (Rule2 try_exists_pat try_exists_tpl))
    with (replaced_by try_exists_pat (expand try_exists_tpl)).
  rewrite H1. rewrite rule_matcher_guarded. cbn [fst snd].
  change (lit "let x = opt.unwrap_or(0);")
    with (lit "let x = opt" ++ lit ".unwrap_or(0)" ++ [";"%c]).
  rewrite H2.
  change (lit "let x = opt" ++ lit ".map_or(0, |v| v)" ++ [";"%c])
    with (lit "let x = opt.map_or(0, |v| v);").
  apply H3.
Qed.

Lemma re_search_intro p s k :
  matches_here p (skipn k s) = true -> re_search p s = true.
Proof.
  intros H. destruct (re_search p s) eqn:E; [reflexivity|].
  rewrite re_search_matches in E. now rewrite E in H.
Qed.

Lemma unchanged_quiet content r :
  fst (fix_content content) = content -> In r PATTERNS ->
  re_search (rule_pattern r) content = false.
Proof.
  intros H. destruct (run_steps content PATTERNS content 0 PATTERNS_grow)
    as (_ & _ & H3).
  apply H3.
  change (fold_left (apply_rule content) PATTERNS (content, 0))
    with (fix_content content).
  now rewrite H.
Qed.

Lemma line_changes (pre post : text) :
  fst (fix_content (pre ++ lit "let x = opt.unwrap_or(0);" ++ post))
  <> pre ++ lit "let x = opt.unwrap_or(0);" ++ post.
Proof.
  intros C.
  apply (unchanged_quiet _ (guarded_rule (lit ".unwrap_or(0)",
                                          lit ".map_or(0, |v| v)"))) in C.
  - revert C. apply eq_true_false_abs.
    apply (re_search_intro _ _ (length (pre ++ lit "let x = opt"))).
    change (lit "let x = opt.unwrap_or(0);")
      with (lit "let x = opt" ++ lit ".unwrap_or(0)" ++ [";"%c]).
    rewrite !app_assoc, <- (app_assoc _ [";"%c]), <- (app_assoc _ (lit ".unwrap_or(0)")).
    rewrite skipn_app, skipn_all, Nat.sub_diag. simpl skipn. simpl app at 1.
    unfold matches_here.
    change (rule_pattern (guarded_rule (lit ".unwrap_or(0)", lit ".map_or(0, |v| v)")))
      with (guarded_pat (lit ".unwrap_or(0)")).
    reflexivity.
  - right. left. reflexivity.
Qed.

(** C1, as the code has it: in every file that holds the line
    [let x = opt.unwrap_or(0);], whatever stands before and after it, the
    fixer turns the line into [let x = opt.map_or(0, |v| v);]; what follows
    the line is rewritten as it would be on its own, and what precedes it
    without regard to what follows the line.  The count is at least 1; it
    is 1 when the call of the line is the only place of the file where a
    rule's pattern matches, and then the rest of the text is unchanged.  A
    file that can be written is written with the new text, and the count is
    printed and returned. *)
Theorem single_occurrence_fixed (pre : text) :
  exists pre',
    forall post,
      fst (fix_content (pre ++ lit "let x = opt.unwrap_or(0);" ++ post))
      = pre' ++ lit "let x = opt.map_or(0, |v| v);" ++ fst (fix_content post)
      /\ 1 <= snd (fix_content (pre ++ lit "let x = opt.unwrap_or(0);" ++ post))
      /\ (no_match_except (pre ++ lit "let x = opt.unwrap_or(0);" ++ post)
                          (length pre + 11) = true ->
          fix_content (pre ++ lit "let x = opt.unwrap_or(0);" ++ post)
          = (pre ++ lit "let x = opt.map_or(0, |v| v);" ++ post, 1))
      /\ (forall filepath w,
            read_text filepath w
            = Some (pre ++ lit "let x = opt.unwrap_or(0);" ++ post) ->
            w_writable w filepath = true ->
            fix_file filepath w
            = Returns
                (snd (fix_content
                        (pre ++ lit "let x = opt.unwrap_or(0);" ++ post)))
                (print
                   (fixed_line
                      (snd (fix_content
                              (pre ++ lit "let x = opt.unwrap_or(0);" ++ post)))
                      filepath)
                   (write_text filepath
                      (pre' ++ lit "let x = opt.map_or(0, |v| v);"
                         ++ fst (fix_content post))
                      w))).
Proof.
  destruct (line_carried pre) as (pre' & H). exists pre'. intros post.
  assert (F : fst (fix_content (pre ++ lit "let x = opt.unwrap_or(0);" ++ post))
              = pre' ++ lit "let x = opt.map_or(0, |v| v);"
                  ++ fst (fix_content post))
    by (rewrite !fix_content_text; apply H).
  pose proof (line_changes pre post) as Hne.
  split; [exact F|]. split; [|split].
  - pose proof (run_counts _ PATTERNS 0 PATTERNS_grow Hne) as Hc.
    exact Hc.
  - intros Hs. rewrite (one_fix_content pre post Hs). f_equal.
    now rewrite <- app_assoc.
  - intros filepath w Hread Hw. unfold fix_file. rewrite Hread.
    rewrite <- F.
    destruct (fix_content (pre ++ lit "let x = opt.unwrap_or(0);" ++ post))
      as [c n]. cbn [fst snd] in *.
    apply text_eqb_neq in Hne. now rewrite Hne, Hw.
Qed.

(** ** The first rule, whatever stands before the occurrence *)

Lemma clash_app_r a : forall b c, clash a b = true -> clash a (b ++ c) = true.
Proof.
  induction a as [|x a IH]; intros [|y b] c; simpl; try discriminate.
  destruct (N.eqb x y); auto.
Qed.

Lemma te_tail_head k :
  k < length te_tail -> clash (skipn k te_tail) te_head = true.
Proof.
  intros Hk. change (length te_tail) with 24 in Hk.
  do 24 (destruct k as [|k]; [reflexivity|]). lia.
Qed.

Lemma te_shape s n r :
  replaced_by try_exists_pat (expand try_exists_tpl) s = Some (n, r) ->
  exists X rest,
    X <> [] /\ forallb not_close_paren X = true
    /\ s = (te_head ++ X ++ te_tail) ++ rest
    /\ n = length (te_head ++ X ++ te_tail)
    /\ r = te_head ++ X ++ te_done.
Proof.
  intros H. apply replaced_by_some in H as (gs & H & ->).
  apply te_inv in H as (X & rest & HX & Hn & -> & -> & ->).
  exists X, rest. split; [exact HX|]. split; [exact Hn|].
  split; [now rewrite <- !app_assoc|]. split; [rewrite !length_app; lia|].
  unfold expand, try_exists_tpl, group. cbn [flat_map m_groups nth].
  now rewrite app_nil_r.
Qed.

Lemma te_shape_intro X rest :
  X <> [] -> forallb not_close_paren X = true ->
  replaced_by try_exists_pat (expand try_exists_tpl)
    ((te_head ++ X ++ te_tail) ++ rest)
  = Some (length (te_head ++ X ++ te_tail), te_head ++ X ++ te_done).
Proof.
  intros HX Hn. apply replaced_by_some. exists [X]. rewrite <- !app_assoc.
  split.
  - rewrite (te_intro X rest HX Hn). do 2 f_equal. rewrite !length_app. lia.
  - unfold expand, try_exists_tpl, group. cbn [flat_map m_groups nth].
    now rewrite app_nil_r.
Qed.

(** The first rule has no lookahead: its match depends on the text it
    covers only. *)
Lemma te_local s s' n r :
  replaced_by try_exists_pat (expand try_exists_tpl) s = Some (n, r) ->
  firstn n s' = firstn n s ->
  replaced_by try_exists_pat (expand try_exists_tpl) s' = Some (n, r).
Proof.
  intros H E. apply te_shape in H as (X & rest & HX & Hn & -> & -> & ->).
  rewrite firstn_app, firstn_all, Nat.sub_diag, firstn_O, app_nil_r in E.
  rewrite <- (firstn_skipn (length (te_head ++ X ++ te_tail)) s'), E.
  now apply te_shape_intro.
Qed.

Section FirstRule.

Variable X : text.
Hypothesis HX : X <> [].
Hypothesis Hn : forallb not_close_paren X = true.

Let m := replaced_by try_exists_pat (expand try_exists_tpl).
Let occ : text := te_head ++ X ++ te_tail.
Let done : text := te_head ++ X ++ te_done.

Lemma te_here post : m (occ ++ post) = Some (length occ, done).
Proof. now apply te_shape_intro. Qed.

(** A match that starts before the occurrence ends before it, or takes in
    the occurrence and ends where it ends. *)
Lemma te_swallow x y n r :
  m (x ++ occ ++ y) = Some (n, r) ->
  n <= length x \/ (n = length x + length occ /\ r = x ++ done).
Proof.
  intros E. apply te_shape in E as (X' & rest & HX' & Hn' & E & -> & ->).
  replace ((te_head ++ X' ++ te_tail) ++ rest)
    with ((te_head ++ X') ++ te_tail ++ rest) in E
    by (now rewrite <- !app_assoc).
  apply app_eq_app in E as [l [[Ex El]|[Ex El]]].
  - (* the run of the match ends inside [x] *)
    left. destruct (Nat.le_gt_cases (length te_tail) (length l)) as [Hle|Hgt].
    + rewrite Ex, !length_app in *. lia.
    + exfalso. apply (f_equal (skipn (length l))) in El.
      rewrite (skipn_app (length l) l), (skipn_app _ te_tail) in El.
      rewrite skipn_all, Nat.sub_diag in El.
      replace (length l - length te_tail) with 0 in El by lia.
      cbn [skipn app] in El. revert El. unfold occ. apply clash_app.
      apply clash_app_r. now apply te_tail_head.
  - (* the run of the match goes on into the occurrence *)
    right.
    assert (Hl : forallb not_close_paren l = true).
    { assert (H : forallb not_close_paren (x ++ l) = true).
      { rewrite <- Ex, forallb_app. now rewrite Hn'. }
      rewrite forallb_app in H. now apply andb_true_iff in H as [_ H]. }
    unfold occ in El.
    change (te_tail ++ y) with (")"%c :: (lit ".await.unwrap_or(false)" ++ y))
      in El.
    replace ((te_head ++ X ++ te_tail) ++ y)
      with ((te_head ++ X) ++ ")"%c :: (lit ".await.unwrap_or(false)" ++ y))
      in El by (now rewrite <- !app_assoc).
    change (te_tail ++ rest)
      with (")"%c :: (lit ".await.unwrap_or(false)" ++ rest)) in El.
    apply first_paren_unique in El as [El _];
      [|rewrite forallb_app; now rewrite Hn|exact Hl].
    subst l. split.
    + unfold occ. rewrite app_assoc, Ex, !length_app. lia.
    + unfold done. rewrite app_assoc, Ex. now rewrite <- !app_assoc.
Qed.

Lemma te_same x y y' : m (x ++ occ ++ y) = m (x ++ occ ++ y').
Proof.
  assert (G : forall y y' n r,
            m (x ++ occ ++ y) = Some (n, r) -> m (x ++ occ ++ y') = Some (n, r)).
  { intros z z' n r H.
    assert (Hle : n <= length (x ++ occ)).
    { rewrite length_app. destruct (te_swallow _ _ _ _ H) as [H1|[H1 _]]; lia. }
    apply (te_local (x ++ occ ++ z)); [exact H|].
    rewrite !app_assoc, !firstn_app.
    replace (n - length (x ++ occ)) with 0 by lia. reflexivity. }
  destruct (m (x ++ occ ++ y)) as [[n r]|] eqn:E.
  - symmetry. now apply (G y y').
  - destruct (m (x ++ occ ++ y')) as [[n r]|] eqn:E'; [|reflexivity].
    rewrite (G y' y n r E') in E. discriminate.
Qed.

Lemma te_carries_occurrence_le k : forall pre, length pre <= k ->
  exists pre', forall post,
    sub_scan m 0 (pre ++ occ ++ post) = pre' ++ done ++ sub_scan m 0 post.
Proof.
  pose proof te_consuming as Hm. fold m in Hm.
  assert (Base : forall post,
            sub_scan m 0 (occ ++ post) = done ++ sub_scan m 0 post).
  { intros post. rewrite (sub_scan_match _ _ _ _ Hm (te_here post)).
    now rewrite skipn_app, skipn_all, Nat.sub_diag. }
  induction k as [|k IH]; intros [|a pre] Hk;
    try (exists []; exact Base); [simpl length in Hk; lia|].
  destruct (m ((a :: pre) ++ occ ++ [])) as [[n r]|] eqn:E.
  - destruct (Hm _ _ _ E) as [N1 _].
    destruct (te_swallow _ _ _ _ E) as [Hle|[-> ->]].
    + destruct (IH (skipn n (a :: pre))) as (pre' & Hpre').
      { rewrite length_skipn. simpl length in *. lia. }
      exists (r ++ pre'). intros post.
      assert (E' : m ((a :: pre) ++ occ ++ post) = Some (n, r))
        by (rewrite <- E; apply te_same).
      rewrite (sub_scan_match _ _ _ _ Hm E'), skipn_app.
      replace (n - length (a :: pre)) with 0 by lia. rewrite skipn_O.
      now rewrite Hpre', <- app_assoc.
    + exists (a :: pre). intros post.
      assert (E' : m ((a :: pre) ++ occ ++ post)
                   = Some (length (a :: pre) + length occ,
                           (a :: pre) ++ done))
        by (rewrite <- E; apply te_same).
      rewrite (sub_scan_match _ _ _ _ Hm E').
      rewrite (app_assoc (a :: pre)), <- length_app.
      rewrite skipn_app, skipn_all, Nat.sub_diag. simpl skipn.
      now rewrite <- app_assoc.
  - destruct (IH pre) as (pre' & Hpre'); [simpl length in Hk; lia|].
    exists (a :: pre'). intros post.
    assert (E' : m ((a :: pre) ++ occ ++ post) = None)
      by (rewrite <- E; apply te_same).
    simpl app in *. rewrite (sub_scan_copy _ _ _ E'). now rewrite Hpre'.
Qed.

Lemma te_carries_occurrence : carries m occ done.
Proof. intros pre. now apply (te_carries_occurrence_le (length pre)). Qed.

End FirstRule.



(** ** The rewritten occurrence under the later rules *)

Lemma ends_paren_inv L :
  ends_paren L = true ->
  exists l0, L = l0 ++ [")"%c] /\ forallb not_close_paren l0 = true.
Proof.
  unfold ends_paren. intros H. destruct (rev L) as [|c r] eqn:E;
    [discriminate|].
  apply andb_true_iff in H as [Hc Hr]. apply N.eqb_eq in Hc. subst c.
  exists (rev r). split.
  - rewrite <- (rev_involutive L), E. reflexivity.
  - rewrite forallb_forall in *. intros c Hc. apply Hr. now apply in_rev.
Qed.

Lemma digit_noparen g :
  forallb digit g = true -> forallb not_close_paren g = true.
Proof.
  intros H. rewrite forallb_forall in *. intros c Hc.
  specialize (H c Hc). unfold not_close_paren.
  destruct (N.eqb_spec c ")"%c) as [->|]; [discriminate|reflexivity].
Qed.

Lemma gs_matched s gs n :
  match_here get_slice_pat s = Some (gs, n) ->
  exists A B,
    A <> [] /\ B <> [] /\ forallb digit A = true /\ forallb digit B = true
    /\ firstn n s = gs_head ++ A ++ lit ".." ++ B ++ gs_tail.
Proof.
  intros E. unfold get_slice_pat in E. fold gs_head in E. fold gs_tail in E.
  apply match_here_Chars_inv in E as (s1 & n1 & -> & E & ->).
  apply match_here_Group_inv in E
    as (A & s2 & gs2 & n2 & HA & HdA & _ & -> & E & -> & ->).
  apply match_here_Chars_inv in E as (s3 & n3 & -> & E & ->).
  apply match_here_Group_inv in E
    as (B & s4 & gs4 & n4 & HB & HdB & _ & -> & E & -> & ->).
  apply match_here_Chars_inv in E as (rest & n5 & -> & E & ->).
  simpl in E. inversion E; subst gs4 n5; clear E.
  exists A, B. repeat (split; [assumption|]).
  replace (length gs_head + (length A + (length (lit "..")
             + (length B + (length gs_tail + 0)))))
    with (length (gs_head ++ A ++ lit ".." ++ B ++ gs_tail) + 0)
    by (rewrite !length_app; lia).
  rewrite !app_assoc, firstn_app_2, firstn_O. now rewrite app_nil_r.
Qed.

(** A match of the callback rule's pattern that starts before [W] ends
    before [W] when [W] opens with characters other than the closing
    parenthesis followed by a character no match is made of. *)
Lemma gs_over_run h c tl x y n r :
  forallb not_close_paren h = true -> gs_char c = false ->
  replaced_by get_slice_pat get_slice_fn (x ++ (h ++ c :: tl) ++ y)
  = Some (n, r) ->
  n <= length x.
Proof.
  intros Hh Hc E. apply replaced_by_some in E as (gs & E & _).
  pose proof (gs_alphabet _ _ _ E) as Ha.
  apply gs_matched in E as (A & B & _ & _ & _ & _ & E).
  destruct (Nat.le_gt_cases n (length x)) as [Hle|Hgt]; [exact Hle|exfalso].
  rewrite firstn_app in E, Ha. rewrite <- app_assoc in E, Ha.
  rewrite firstn_app in E, Ha.
  destruct (Nat.le_gt_cases (n - length x) (length h)) as [Hs|Hl].
  - (* the match ends inside [h] *)
    replace (n - length x - length h) with 0 in E by lia.
    rewrite firstn_O, app_nil_r in E.
    rewrite (firstn_all2 x) in E by lia.
    assert (Hne : firstn (n - length x) h <> []).
    { intros C. apply (f_equal (@length _)) in C.
      rewrite length_firstn in C. simpl in C. lia. }
    destruct (exists_last Hne) as (h1 & d & Eh). rewrite Eh in E.
    change gs_tail with (lit ").unwrap_or(&[]" ++ [")"%c]) in E.
    rewrite !app_assoc in E. apply app_inj_tail in E as [_ ->].
    assert (Hin : In ")"%c h).
    { rewrite <- (firstn_skipn (n - length x) h), Eh.
      apply in_or_app. left. apply in_or_app. right. now left. }
    rewrite forallb_forall in Hh. specialize (Hh _ Hin). discriminate.
  - (* the match takes [c] in *)
    rewrite !forallb_app in Ha. apply andb_true_iff in Ha as [_ Ha].
    apply andb_true_iff in Ha as [_ Ha].
    destruct (n - length x - length h) as [|k] eqn:Ek; [lia|].
    simpl in Ha. apply andb_true_iff in Ha as [Ha _]. congruence.
Qed.

Section Rewritten.

Variable X : text.
Hypothesis Hn : forallb not_close_paren X = true.

Let done : text := te_head ++ X ++ te_done.

Lemma done_split i post :
  i < length done ->
  (exists u, u <> [] /\ forallb not_close_paren u = true
             /\ skipn i (done ++ post)
                = u ++ ")"%c :: (lit ".await.map_or(false, |v| v)" ++ post))
  \/ (exists j, j < length te_done
                /\ skipn i (done ++ post) = skipn j te_done ++ post).
Proof.
  intros Hi. unfold done in *. rewrite !length_app in Hi.
  destruct (Nat.lt_ge_cases i (length (te_head ++ X))) as [Hlt|Hge].
  - left. exists (skipn i (te_head ++ X)). split; [|split].
    + intros C. apply (f_equal (@length _)) in C.
      rewrite length_skipn in C. change (length (@nil N)) with 0 in C. lia.
    + apply forallb_skipn. rewrite forallb_app. now rewrite Hn.
    + rewrite (app_assoc te_head), <- (app_assoc _ te_done).
      rewrite skipn_app. replace (i - length (te_head ++ X)) with 0 by lia.
      reflexivity.
  - right. exists (i - length (te_head ++ X)). rewrite length_app in *.
    split; [lia|].
    rewrite (app_assoc te_head), <- (app_assoc _ te_done).
    rewrite skipn_app, skipn_all2 by (rewrite length_app; lia).
    rewrite skipn_app. rewrite length_app.
    replace (i - (length te_head + length X) - length te_done) with 0 by lia.
    reflexivity.
Qed.

Lemma guarded_carries_done L R :
  starts_dot L = true -> done_clear L = true -> carries (glit L R) done done.
Proof.
  intros HL Hc. unfold done_clear in Hc.
  apply andb_true_iff in Hc as [Hc He]. apply andb_true_iff in Hc as [H1 H2].
  rewrite forallb_forall in H1, H2.
  apply (carry (guarded_pat L) (expand [TLit R]) (starts_dot_leads L HL)).
  - unfold done. discriminate.
  - intros x y n r. apply glit_over. intros k Hk. unfold done.
    apply clash_app_r. apply H1, in_seq. lia.
  - intros post. apply sub_scan_app_quiet. intros i Hi.
    destruct (done_split i post Hi) as [(u & Hu & Hnu & ->)|(j & Hj & ->)].
    + destruct (replaced_by (guarded_pat L) (expand [TLit R]) _)
        as [[n r]|] eqn:E; [exfalso|reflexivity].
      apply glit_inv in E as (t & E & Ht & _ & _).
      destruct (ends_paren_inv L He) as (l0 & -> & Hl0).
      rewrite <- app_assoc in E. simpl app in E.
      apply first_paren_unique in E as [_ E]; auto.
      subst t. now apply Ht.
    + apply replaced_by_none. unfold guarded_pat. cbn [match_here].
      rewrite clash_strip; [reflexivity|]. apply H2, in_seq. lia.
Qed.

Lemma gs_carries_done :
  carries (replaced_by get_slice_pat get_slice_fn) done done.
Proof.
  apply (carry get_slice_pat get_slice_fn eq_refl).
  - unfold done. discriminate.
  - intros x y n r.
    change done with (lit ".tr" ++ "y"%c :: (lit "_exists(" ++ X ++ te_done)).
    now apply gs_over_run.
  - intros post. apply sub_scan_app_quiet. intros i Hi.
    apply replaced_by_none, matches_here_false.
    destruct (done_split i post Hi) as [(u & Hu & Hnu & ->)|(j & Hj & ->)].
    + destruct (matches_here get_slice_pat _) eqn:E; [exfalso|reflexivity].
      apply gs_inv in E as (A & B & rest & _ & _ & HdA & HdB & E).
      change (gs_tail ++ rest)
        with (")"%c :: (lit ".unwrap_or(&[])" ++ rest)) in E.
      rewrite !app_assoc in E. rewrite <- !app_assoc in E.
      replace (gs_head ++ A ++ lit ".." ++ B ++ ")"%c :: lit ".unwrap_or(&[])" ++ rest)
        with ((gs_head ++ A ++ lit ".." ++ B)
                ++ ")"%c :: (lit ".unwrap_or(&[])" ++ rest)) in E
        by (now rewrite <- !app_assoc).
      apply first_paren_unique in E as [_ E]; auto.
      * revert E. now apply clash_app.
      * rewrite !forallb_app.
        now rewrite (digit_noparen A HdA), (digit_noparen B HdB).
    + apply gs_in_replacement. change (length te_done) with 28 in Hj.
      do 28 (destruct j as [|j]; [reflexivity|]). lia.
Qed.

End Rewritten.

Lemma guarded_done_clear :
  forallb (fun LR => done_clear (fst LR)) guarded_literals = true.
Proof. vm_compute. reflexivity. Qed.

Lemma occurrence_carried (pre X : text) :
  X <> [] -> forallb not_close_paren X = true ->
  exists pre1 pre', forall post,
    sub_scan (replaced_by try_exists_pat (expand try_exists_tpl)) 0
      (pre ++ (te_head ++ X ++ te_tail) ++ post)
    = pre1 ++ (te_head ++ X ++ te_done)
        ++ sub_scan (replaced_by try_exists_pat (expand try_exists_tpl)) 0
             post
    /\ run_rules PATTERNS (pre ++ (te_head ++ X ++ te_tail) ++ post)
       = pre' ++ (te_head ++ X ++ te_done) ++ run_rules PATTERNS post.
Proof.
  intros HX Hn.
  destruct (te_carries_occurrence X HX Hn pre) as (pre1 & H1).
  destruct (run_rules_carry
              (map guarded_rule guarded_literals
                 ++ [Rule3 get_slice_pat get_slice_fn true])
              (te_head ++ X ++ te_done)) with (pre := pre1) as (pre' & H2).
  { intros r Hr. apply in_app_iff in Hr as [Hr|[<-|[]]].
    - apply in_map_iff in Hr as (LR & <- & HLR).
      rewrite rule_matcher_guarded.
      apply guarded_carries_done; [exact Hn| |].
      + now apply (catalogue_facts LR).
      + pose proof guarded_done_clear as G. rewrite forallb_forall in G.
        now apply G.
    - now apply gs_carries_done. }
  exists pre1, pre'. intros post. split; [apply H1|].
  rewrite PATTERNS_shape.
  change (Rule2 try_exists_pat try_exists_tpl
            :: map guarded_rule guarded_literals
                 ++ [Rule3 get_slice_pat get_slice_fn true])
    with ([Rule2 try_exists_pat try_exists_tpl]
            ++ (map guarded_rule guarded_literals
                  ++ [Rule3 get_slice_pat get_slice_fn true])).
  rewrite !run_rules_app. cbn [run_rules fold_left].
  change (rule_matcher (Rule2 try_exists_pat try_exists_tpl))
    with (replaced_by try_exists_pat (expand try_exists_tpl)).
  rewrite H1. apply H2.
Qed.

Lemma state_before_first content :
  fst (state_before content 1)
  = sub_scan (replaced_by try_exists_pat (expand try_exists_tpl)) 0 content.
Proof. apply apply_rule_Rule2_fst. Qed.

(** C9: the first rule has no guard.  Wherever an occurrence
    [.try_exists(ARG).await.unwrap_or(false)] stands, and also when a dot
    follows it, the first step of the loop of [fix_file] puts
    [.try_exists(ARG).await.map_or(false, |v| v)] in its place, the dot
    still following; the later rules leave the rewritten occurrence as it
    is, so that it stands in the text at the end; what follows the
    occurrence (the dot first) is rewritten as it would be on its own. *)
Theorem try_exists_rewritten_before_dot (pre X : text) :
  X <> [] -> forallb not_close_paren X = true ->
  nth_error PATTERNS 0 = Some (Rule2 try_exists_pat try_exists_tpl)
  /\ exists pre1 pre',
       forall post,
         fst (state_before
                (pre ++ lit ".try_exists(" ++ X
                   ++ lit ").await.unwrap_or(false)" ++ "."%c :: post) 1)
         = pre1 ++ lit ".try_exists(" ++ X
             ++ lit ").await.map_or(false, |v| v)"
             ++ fst (state_before ("."%c :: post) 1)
         /\ hd_error (fst (state_before ("."%c :: post) 1)) = Some "."%c
         /\ fst (fix_content
                   (pre ++ lit ".try_exists(" ++ X
                      ++ lit ").await.unwrap_or(false)" ++ "."%c :: post))
            = pre' ++ lit ".try_exists(" ++ X
                ++ lit ").await.map_or(false, |v| v)"
                ++ fst (fix_content ("."%c :: post)).
Proof.
  intros HX Hn. split; [reflexivity|].
  destruct (occurrence_carried pre X HX Hn) as (pre1 & pre' & H).
  exists pre1, pre'. intros post.
  destruct (H ("."%c :: post)) as [H1 H2].
  fold te_head te_tail te_done.
  replace (pre ++ te_head ++ X ++ te_tail ++ "."%c :: post)
    with (pre ++ (te_head ++ X ++ te_tail) ++ "."%c :: post)
    by (now rewrite <- !app_assoc).
  rewrite !state_before_first, !fix_content_text, H1, H2.
  split; [now rewrite <- !app_assoc|].
  split; [|now rewrite <- !app_assoc].
  now rewrite (sub_scan_hd _ te_consuming _ te_dotted).
Qed.

(** ** The text after the callback rule *)

Lemma anywhere_false g s :
  anywhere g s = false <-> forall i, g (skipn i s) = false.
Proof.
  split.
  - induction s as [|c t IH]; simpl; intros H i.
    + rewrite skipn_nil. now apply orb_false_iff in H as [H _].
    + apply orb_false_iff in H as [H0 H]. destruct i as [|i]; [exact H0|].
      simpl. now apply IH.
  - induction s as [|c t IH]; simpl; intros H.
    + pose proof (H 0) as H0. simpl in H0. now rewrite H0.
    + pose proof (H 0) as H0. simpl in H0. rewrite H0. simpl.
      apply IH. intros i. exact (H (S i)).
Qed.

Lemma gs_replaced_inv s n r :
  replaced_by get_slice_pat get_slice_fn s = Some (n, r) ->
  exists A B,
    A <> [] /\ B <> [] /\ forallb digit A = true /\ forallb digit B = true
    /\ firstn n s = gs_head ++ A ++ lit ".." ++ B ++ gs_tail
    /\ r = slice_open ++ A ++ lit ".." ++ B ++ slice_close.
Proof.
  intros H. apply replaced_by_some in H as (gs & E & ->).
  unfold get_slice_pat in E. fold gs_head in E. fold gs_tail in E.
  apply match_here_Chars_inv in E as (s1 & n1 & -> & E & ->).
  apply match_here_Group_inv in E
    as (A & s2 & gs2 & n2 & HA & HdA & _ & -> & E & -> & ->).
  apply match_here_Chars_inv in E as (s3 & n3 & -> & E & ->).
  apply match_here_Group_inv in E
    as (B & s4 & gs4 & n4 & HB & HdB & _ & -> & E & -> & ->).
  apply match_here_Chars_inv in E as (rest & n5 & -> & E & ->).
  simpl in E. inversion E; subst gs4 n5; clear E.
  exists A, B. repeat (split; [assumption|]).
  split; [|reflexivity].
  replace (length gs_head + (length A + (length (lit "..")
             + (length B + (length gs_tail + 0)))))
    with (length (gs_head ++ A ++ lit ".." ++ B ++ gs_tail) + 0)
    by (rewrite !length_app; lia).
  rewrite !app_assoc, firstn_app_2, firstn_O. now rewrite app_nil_r.
Qed.

Lemma gs_consuming : consuming (replaced_by get_slice_pat get_slice_fn).
Proof. now apply replaced_by_consuming. Qed.

(** Every replacement of the callback rule starts with a brace, so a text
    that starts otherwise cannot stand where a replacement stands. *)
Lemma brace_avoids u :
  u <> [] -> hd_error u <> Some "{"%c ->
  avoids (replaced_by get_slice_pat get_slice_fn) u.
Proof.
  intros Hu Hh s n r x H E.
  apply gs_replaced_inv in H as (A & B & _ & _ & _ & _ & _ & ->).
  destruct u as [|c u]; [congruence|]. inversion E; subst c. now apply Hh.
Qed.

Lemma nobrace_avoids u k :
  forallb (fun c => negb (N.eqb c "{"%c)) u = true -> k < length u ->
  avoids (replaced_by get_slice_pat get_slice_fn) (skipn k u).
Proof.
  intros Hu Hk.
  assert (Hs : forallb (fun c => negb (N.eqb c "{"%c)) (skipn k u) = true)
    by now apply forallb_skipn.
  destruct (skipn k u) as [|c v] eqn:E.
  - apply (f_equal (@length _)) in E. rewrite length_skipn in E.
    simpl in E. lia.
  - apply brace_avoids; [discriminate|]. simpl in *. intros C.
    inversion C; subst c. discriminate.
Qed.

(** Where a suffix of a replacement starts with a dot. *)
Lemma slice_suffix A B y i :
  A <> [] -> B <> [] -> forallb digit A = true -> forallb digit B = true ->
  i < length (slice_open ++ A ++ lit ".." ++ B ++ slice_close) ->
  hd_error (skipn i (slice_open ++ A ++ lit ".." ++ B ++ slice_close) ++ y)
    <> Some "."%c
  \/ skipn i (slice_open ++ A ++ lit ".." ++ B ++ slice_close) ++ y
     = gs_head ++ A ++ lit ".." ++ B ++ slice_close ++ y
  \/ exists c t, skipn i (slice_open ++ A ++ lit ".." ++ B ++ slice_close)
                   ++ y = "."%c :: c :: t
                 /\ (c = "."%c \/ digit c = true).
Proof.
  intros HA HB HdA HdB Hi.
  assert (Hdig : forall g j, forallb digit g = true -> j < length g ->
                   forall z, hd_error (skipn j g ++ z) <> Some "."%c).
  { intros g j Hg Hj z.
    pose proof (forallb_skipn digit j g Hg) as Hs.
    destruct (skipn j g) as [|c v] eqn:E.
    - apply (f_equal (@length _)) in E. rewrite length_skipn in E.
      simpl in E. lia.
    - simpl in *. apply andb_true_iff in Hs as [Hc _]. intros C.
      inversion C; subst c. discriminate. }
  rewrite !length_app in Hi. change (length slice_open) with 12 in Hi.
  change (length (lit "..")) with 2 in Hi.
  rewrite skipn_app. change (length slice_open) with 12.
  destruct (Nat.lt_ge_cases i 12) as [H12|H12].
  - replace (i - 12) with 0 by lia. rewrite skipn_O.
    do 7 (destruct i as [|i]; [left; discriminate|]).
    destruct i as [|i].
    + right. left. now rewrite <- !app_assoc.
    + do 4 (destruct i as [|i]; [left; discriminate|]). lia.
  - rewrite (skipn_all2 slice_open) by (change (length slice_open) with 12; lia).
    rewrite app_nil_l, skipn_app.
    destruct (Nat.lt_ge_cases (i - 12) (length A)) as [HlA|HgA].
    + replace (i - 12 - length A) with 0 by lia. rewrite skipn_O.
      left. rewrite <- app_assoc. now apply Hdig.
    + rewrite (skipn_all2 A) by exact HgA. rewrite app_nil_l.
      remember (i - 12 - length A) as j eqn:Ej.
      destruct j as [|[|j]].
      * right. right. exists "."%c, (B ++ slice_close ++ y).
        split; [rewrite skipn_O, <- !app_assoc; reflexivity|now left].
      * right. right. destruct B as [|b B]; [congruence|].
        exists b, (B ++ slice_close ++ y). split.
        -- change (skipn 1 (lit ".." ++ (b :: B) ++ slice_close))
             with ("."%c :: b :: B ++ slice_close).
           cbn [app]. now rewrite <- app_assoc.
        -- right. simpl in HdB. now apply andb_true_iff in HdB as [Hb _].
      * change (skipn (S (S j)) (lit ".." ++ B ++ slice_close))
          with (skipn j (B ++ slice_close)).
        rewrite skipn_app.
        destruct (Nat.lt_ge_cases j (length B)) as [HlB|HgB].
        -- replace (j - length B) with 0 by lia. rewrite skipn_O.
           left. rewrite <- app_assoc. now apply Hdig.
        -- rewrite (skipn_all2 B) by exact HgB. rewrite app_nil_l.
           left. remember (j - length B) as q eqn:Eq.
           assert (Hq : q < 40) by (change (length slice_close) with 40 in Hi; lia).
           clear -Hq. do 40 (destruct q as [|q]; [discriminate|]). lia.
Qed.

(** A literal that starts with a dot and goes on with a character other
    than [g], the dot and the digits fits nowhere in a replacement of the
    callback rule. *)
Lemma literal_in_slice c0 l A B y i :
  c0 <> "g"%c -> c0 <> "."%c -> digit c0 = false ->
  A <> [] -> B <> [] -> forallb digit A = true -> forallb digit B = true ->
  i < length (slice_open ++ A ++ lit ".." ++ B ++ slice_close) ->
  strip_prefix ("."%c :: c0 :: l)
    (skipn i (slice_open ++ A ++ lit ".." ++ B ++ slice_close) ++ y) = None.
Proof.
  intros Hg Hd Hdig HA HB HdA HdB Hi.
  destruct (strip_prefix _ _) as [t|] eqn:E; [exfalso|reflexivity].
  apply strip_prefix_inv in E.
  destruct (slice_suffix A B y i HA HB HdA HdB Hi)
    as [H|[H|(c & t' & H & Hc)]]; rewrite E in H.
  - now apply H.
  - inversion H. congruence.
  - inversion H. subst c. destruct Hc as [Hc|Hc]; congruence.
Qed.

Lemma digit_nobrace g :
  forallb digit g = true ->
  forallb (fun c => negb (N.eqb c "{"%c)) g = true.
Proof.
  intros H. rewrite forallb_forall in *. intros c Hc. specialize (H c Hc).
  destruct (N.eqb_spec c "{"%c) as [->|]; [discriminate|reflexivity].
Qed.

Section AfterCallback.

Let m := replaced_by get_slice_pat get_slice_fn.

(** The callback rule's pattern matches in the output, at an offset the
    scanner passed without a match, only if it matched in the input. *)
Lemma gs_copy_own s :
  m s = None -> matches_here get_slice_pat (sub_scan m 0 s) = false.
Proof.
  intros E.
  destruct (matches_here get_slice_pat (sub_scan m 0 s)) eqn:E';
    [exfalso|reflexivity].
  apply gs_inv in E' as (A & B & rest' & HA & HB & HdA & HdB & Hsub).
  replace (gs_head ++ A ++ lit ".." ++ B ++ gs_tail ++ rest')
    with ((gs_head ++ A ++ lit ".." ++ B ++ gs_tail) ++ rest') in Hsub
    by (now rewrite <- !app_assoc).
  destruct (lockstep0 m gs_consuming _ s rest' E Hsub) as (t & -> & _).
  { intros k Hk. apply nobrace_avoids; [|lia].
    rewrite !forallb_app.
    now rewrite (digit_nobrace A HdA), (digit_nobrace B HdB). }
  apply replaced_by_none, matches_here_false in E.
  rewrite <- !app_assoc in E. now rewrite gs_intro in E.
Qed.

Lemma gs_in_slice s k r i y :
  m s = Some (k, r) -> i < length r ->
  matches_here get_slice_pat (skipn i r ++ y) = false.
Proof.
  intros H Hi. apply gs_replaced_inv in H
    as (A & B & HA & HB & HdA & HdB & _ & ->).
  destruct (matches_here get_slice_pat _) eqn:E; [exfalso|reflexivity].
  apply gs_inv in E as (A' & B' & rest & _ & _ & HdA' & HdB' & E).
  destruct (slice_suffix A B y i HA HB HdA HdB Hi)
    as [H|[H|(c & t' & H & Hc)]]; rewrite E in H.
  - now apply H.
  - change (gs_tail ++ rest)
      with (")"%c :: (lit ".unwrap_or(&[])" ++ rest)) in H.
    change (slice_close ++ y)
      with (")"%c :: (lit " { Some(slice) => slice, None => &[], }" ++ y))
      in H.
    replace (gs_head ++ A' ++ lit ".." ++ B'
               ++ ")"%c :: lit ".unwrap_or(&[])" ++ rest)
      with ((gs_head ++ A' ++ lit ".." ++ B')
              ++ ")"%c :: (lit ".unwrap_or(&[])" ++ rest)) in H
      by (now rewrite <- !app_assoc).
    replace (gs_head ++ A ++ lit ".." ++ B
               ++ ")"%c :: lit " { Some(slice) => slice, None => &[], }" ++ y)
      with ((gs_head ++ A ++ lit ".." ++ B)
              ++ ")"%c :: (lit " { Some(slice) => slice, None => &[], }" ++ y))
      in H by (now rewrite <- !app_assoc).
    apply first_paren_unique in H as [_ H].
    + revert H. now apply clash_app.
    + rewrite !forallb_app.
      now rewrite (digit_noparen A' HdA'), (digit_noparen B' HdB').
    + rewrite !forallb_app.
      now rewrite (digit_noparen A HdA), (digit_noparen B HdB).
  - inversion H. subst c. destruct Hc as [Hc|Hc]; discriminate.
Qed.

(** The callback rule leaves no match of its own pattern. *)
Lemma gs_own s :
  re_search get_slice_pat (sub_scan m 0 s) = false.
Proof.
  apply re_search_matches.
  apply (quiet_preserved_le m gs_consuming (matches_here get_slice_pat)
           (length s)); auto.
  - intros s0 E _. now apply gs_copy_own.
  - apply gs_in_slice.
  - intros i E. apply matches_here_false.
    exact (proj1 (replaced_by_none _ get_slice_fn _) E).
Qed.

(** The first rule's pattern. *)
Lemma te_copy_braced s :
  m s = None ->
  matches_here try_exists_pat s = false ->
  matches_here try_exists_pat (sub_scan m 0 s) = false.
Proof.
  intros E Hs. apply matches_here_false.
  destruct (match_here try_exists_pat (sub_scan m 0 s)) as [[gs n]|] eqn:E';
    [|reflexivity].
  exfalso. apply te_inv in E' as (X & rest' & HX & Hn & Hsub & _ & _).
  destruct (lockstep0 m gs_consuming te_head s _ E Hsub) as (t & -> & Ht').
  { intros k Hk. apply nobrace_avoids; [reflexivity|lia]. }
  rewrite app_assoc in Ht'. symmetry in Ht'.
  destruct (lockstep m gs_consuming (X ++ te_tail) t rest' Ht')
    as (rest & -> & _).
  { intros k Hk. rewrite skipn_app.
    destruct (Nat.lt_ge_cases k (length X)) as [Hlt|Hge].
    - replace (k - length X) with 0 by lia. rewrite skipn_O.
      intros s0 n0 r x H C.
      apply gs_replaced_inv in H as (A & B & _ & _ & HdA & HdB & _ & ->).
      remember (sub_scan m 0 (skipn n0 s0)) as Y eqn:EY. clear EY.
      change te_tail with (")"%c :: lit ".await.unwrap_or(false)") in C.
      change slice_close
        with (")"%c :: lit " { Some(slice) => slice, None => &[], }") in C.
      replace ((skipn k X ++ ")"%c :: lit ".await.unwrap_or(false)") ++ x)
        with (skipn k X ++ ")"%c :: (lit ".await.unwrap_or(false)" ++ x)) in C
        by (now rewrite <- !app_assoc).
      replace ((slice_open ++ A ++ lit ".." ++ B
                  ++ ")"%c :: lit " { Some(slice) => slice, None => &[], }")
                 ++ Y)
        with ((slice_open ++ A ++ lit ".." ++ B)
                ++ ")"%c :: (lit " { Some(slice) => slice, None => &[], }"
                               ++ Y)) in C
        by (now rewrite <- !app_assoc).
      apply first_paren_unique in C as [_ C].
      + revert C. now apply clash_app.
      + now apply forallb_skipn.
      + rewrite !forallb_app.
        now rewrite (digit_noparen A HdA), (digit_noparen B HdB).
    - rewrite skipn_all2 by exact Hge. rewrite app_nil_l.
      rewrite length_app in Hk. apply nobrace_avoids; [reflexivity|lia]. }
  apply matches_here_false in Hs.
  rewrite <- app_assoc in Hs. now rewrite (te_intro X rest HX Hn) in Hs.
Qed.

Lemma te_after_callback s :
  re_search try_exists_pat s = false ->
  re_search try_exists_pat (sub_scan m 0 s) = false.
Proof.
  intros Hq. apply re_search_matches.
  apply (quiet_preserved_le m gs_consuming (matches_here try_exists_pat)
           (length s)); auto.
  - apply te_copy_braced.
  - intros s0 k r i y H Hi. apply gs_replaced_inv in H
      as (A & B & HA & HB & HdA & HdB & _ & ->).
    apply matches_here_false. unfold try_exists_pat. cbn [match_here].
    change (lit ".try_exists(") with ("."%c :: "t"%c :: lit "ry_exists(").
    rewrite literal_in_slice; auto; discriminate.
  - intros i _. now apply re_search_matches.
Qed.

(** The guarded rules: an occurrence of the literal followed by a slice
    access is the one thing the callback rule can free. *)
Lemma guarded_copy_braced L s :
  starts_dot L = true -> brace_ok L = true ->
  m s = None ->
  matches_here (guarded_pat L) s || chained_here L s = false ->
  matches_here (guarded_pat L) (sub_scan m 0 s)
  || chained_here L (sub_scan m 0 s) = false.
Proof.
  intros HL Hb E Hs. apply orb_false_iff in Hs as [Hg Hc].
  unfold brace_ok in Hb. apply andb_true_iff in Hb as [_ Hb].
  destruct (strip_prefix L (sub_scan m 0 s)) as [t'|] eqn:Ep.
  - apply strip_prefix_inv in Ep.
    destruct (lockstep0 m gs_consuming L s t' E Ep) as (t & -> & ->).
    { intros k Hk. apply nobrace_avoids; [exact Hb|lia]. }
    rewrite Ep. unfold chained_here in *. rewrite strip_prefix_app in *.
    apply matches_here_false in Hg.
    assert (Hd : hd_error t = Some "."%c).
    { destruct (hd_error t) as [c|] eqn:Eh.
      - destruct (N.eqb_spec c "."%c) as [->|Hne]; [reflexivity|].
        rewrite guarded_match_intro in Hg; [discriminate|].
        rewrite Eh. congruence.
      - rewrite guarded_match_intro in Hg; [discriminate|].
        rewrite Eh. discriminate. }
    assert (Em : m t = None)
      by (now apply replaced_by_none, matches_here_false).
    destruct t as [|c t1]; [discriminate|]. inversion Hd; subst c.
    apply orb_false_iff. split.
    + apply matches_here_false. unfold guarded_pat.
      rewrite match_here_Chars_app, (sub_scan_copy _ _ _ Em). reflexivity.
    + now apply gs_copy_own.
  - apply orb_false_iff. split.
    + apply matches_here_false. unfold guarded_pat. cbn [match_here].
      now rewrite Ep.
    + unfold chained_here. now rewrite Ep.
Qed.

Lemma guarded_after_callback L s :
  starts_dot L = true -> brace_ok L = true ->
  re_search (guarded_pat L) s = false ->
  anywhere (chained_here L) s = false ->
  re_search (guarded_pat L) (sub_scan m 0 s) = false.
Proof.
  intros HL Hb Hq Hc. rewrite re_search_matches in *.
  rewrite anywhere_false in Hc.
  assert (G : forall j,
            matches_here (guarded_pat L) (skipn j (sub_scan m 0 s))
            || chained_here L (skipn j (sub_scan m 0 s)) = false).
  { apply (quiet_preserved_le m gs_consuming
             (fun x => matches_here (guarded_pat L) x || chained_here L x)
             (length s)); auto.
    - intros s0. now apply guarded_copy_braced.
    - intros s0 k r i y H Hi. apply gs_replaced_inv in H
        as (A & B & HA & HB & HdA & HdB & _ & ->).
      unfold brace_ok in Hb. apply andb_true_iff in Hb as [Hb _].
      destruct L as [|a [|c0 l]]; try discriminate.
      assert (a = "."%c) as ->.
      { simpl in HL. unfold dot in HL. now apply N.eqb_eq in HL. }
      apply andb_true_iff in Hb as [Hb H3]. apply andb_true_iff in Hb as [H1 H2].
      assert (Ep : strip_prefix ("."%c :: c0 :: l)
                     (skipn i (slice_open ++ A ++ lit ".." ++ B ++ slice_close)
                        ++ y) = None).
      { apply literal_in_slice; auto.
        - intros ->. discriminate.
        - intros ->. discriminate.
        - now destruct (digit c0). }
      unfold matches_here, chained_here, guarded_pat. cbn [match_here].
      now rewrite Ep.
    - unfold matches_here, chained_here, guarded_pat. cbn [match_here].
      destruct L; [discriminate|reflexivity].
    - intros i _. now rewrite Hq, Hc. }
  intros j. specialize (G j). now apply orb_false_iff in G as [G _].
Qed.

End AfterCallback.

Lemma guarded_brace_ok :
  forallb (fun LR => brace_ok (fst LR)) guarded_literals = true.
Proof. vm_compute. reflexivity. Qed.

Lemma fix_content_after_callback content :
  fst (fix_content content)
  = sub_scan (replaced_by get_slice_pat get_slice_fn) 0
      (fst (state_before content 14)).
Proof.
  rewrite fix_content_callback.
  destruct (state_before content 14) as [c n]. cbn [fst].
  apply (apply_rule_text content c n (Rule3 get_slice_pat get_slice_fn true));
    [reflexivity|apply get_slice_fn_reads_groups].
Qed.

Lemma chained_slice_false s :
  chained_slice s = false ->
  forall LR, In LR guarded_literals ->
    anywhere (chained_here (fst LR)) s = false.
Proof.
  unfold chained_slice. intros H LR HLR.
  destruct (anywhere (chained_here (fst LR)) s) eqn:E; [|reflexivity].
  assert (C : existsb (fun LR => anywhere (chained_here (fst LR)) s)
                guarded_literals = true)
    by (apply existsb_exists; eauto).
  congruence.
Qed.

(** C2, as the code has it: the one thing that makes a second pass rewrite
    again is a slice access that follows at once an occurrence of a guarded
    rule's literal when the callback rule's turn comes (the dot of the
    slice access then guards the occurrence, and the replacement of the
    slice access starts with a brace).  For every other text, whether it
    holds slice accesses or not, the text that comes out of the fixer holds
    no match of any rule, and running the fixer on it again changes nothing
    and counts nothing. *)
Theorem second_pass_changes_nothing (content : text) :
  chained_slice (fst (state_before content 14)) = false ->
  (forall r, In r PATTERNS ->
     re_search (rule_pattern r) (fst (fix_content content)) = false)
  /\ fix_content (fst (fix_content content)) = (fst (fix_content content), 0).
Proof.
  intros Hc. pose proof (chained_slice_false _ Hc) as Hch.
  destruct (settled_before_callback content) as [Hte Hg].
  assert (Q : forall r, In r PATTERNS ->
                re_search (rule_pattern r) (fst (fix_content content))
                = false).
  { intros r Hr. rewrite fix_content_after_callback.
    rewrite PATTERNS_shape in Hr.
    destruct Hr as [<-|Hr]; [now apply te_after_callback|].
    apply in_app_iff in Hr as [Hr|[<-|[]]]; [|apply gs_own].
    apply in_map_iff in Hr as (LR & <- & HLR).
    apply guarded_after_callback; auto.
    - now apply (catalogue_facts LR).
    - pose proof guarded_brace_ok as G. rewrite forallb_forall in G.
      now apply G. }
  split; [exact Q|]. now apply fold_apply_rule_quiet.
Qed.

(** ** The theorems at concrete inputs *)

(** C1 at the file [fn f() { let x = opt.unwrap_or(0); }]. *)
Lemma single_occurrence_fixed_witness :
  exists pre',
    fst (fix_content
           (lit "fn f() { " ++ lit "let x = opt.unwrap_or(0);" ++ lit " }"))
    = pre' ++ lit "let x = opt.map_or(0, |v| v);" ++ fst (fix_content (lit " }"))
    /\ fix_content
         (lit "fn f() { " ++ lit "let x = opt.unwrap_or(0);" ++ lit " }")
       = (lit "fn f() { " ++ lit "let x = opt.map_or(0, |v| v);" ++ lit " }", 1).
Proof.
  destruct (single_occurrence_fixed (lit "fn f() { ")) as (pre' & H).
  exists pre'. destruct (H (lit " }")) as (H1 & _ & H3 & _).
  split; [exact H1|]. apply H3. vm_compute. reflexivity.
Defined.

(** C2 at a text with an occurrence and, apart from it, a slice access. *)
Lemma second_pass_changes_nothing_witness :
  fix_content
    (fst (fix_content (lit "a.get(0..16).unwrap_or(&[]); b.unwrap_or(0)")))
  = (fst (fix_content (lit "a.get(0..16).unwrap_or(&[]); b.unwrap_or(0)")),
     0).
Proof.
  apply (second_pass_changes_nothing
           (lit "a.get(0..16).unwrap_or(&[]); b.unwrap_or(0)")).
  vm_compute. reflexivity.
Defined.

(** C4 at the rule for [.unwrap_or(0)] and the text
    [a.unwrap_or(0).max(1)]. *)
Lemma guarded_rule_skips_chained_witness :
  match_here (guarded_pat (lit ".unwrap_or(0)"))
    (lit ".unwrap_or(0)" ++ "."%c :: lit "max(1)") = None
  /\ exists pre',
       re_sub (guarded_pat (lit ".unwrap_or(0)")) [TLit (lit ".map_or(0, |v| v)")]
         (lit "a" ++ ["."%c])
       = pre' ++ ["."%c]
       /\ re_sub (guarded_pat (lit ".unwrap_or(0)"))
            [TLit (lit ".map_or(0, |v| v)")]
            (lit "a" ++ lit ".unwrap_or(0)" ++ "."%c :: lit "max(1)")
          = pre' ++ lit ".unwrap_or(0)"
              ++ re_sub (guarded_pat (lit ".unwrap_or(0)"))
                   [TLit (lit ".map_or(0, |v| v)")] ("."%c :: lit "max(1)")
       /\ hd_error
            (re_sub (guarded_pat (lit ".unwrap_or(0)"))
               [TLit (lit ".map_or(0, |v| v)")] ("."%c :: lit "max(1)"))
          = Some "."%c.
Proof.
  apply (guarded_rule_skips_chained (lit ".unwrap_or(0)")
           (lit ".map_or(0, |v| v)") (lit "a") (lit "max(1)")).
  right. left. reflexivity.
Defined.

(** C5 at a text with two slice accesses, for the first of them. *)
Lemma callback_splices_in_reverse_witness :
  apply_rule (lit "a.get(0..16).unwrap_or(&[]) b.get(1..2).unwrap_or(&[])")
    (lit "a.get(0..16).unwrap_or(&[]) b.get(1..2).unwrap_or(&[])", 0)
    (Rule3 get_slice_pat get_slice_fn true)
  = (re_sub_fn get_slice_pat get_slice_fn
       (lit "a.get(0..16).unwrap_or(&[]) b.get(1..2).unwrap_or(&[])"),
     0 + length (re_finditer get_slice_pat
                   (lit "a.get(0..16).unwrap_or(&[]) b.get(1..2).unwrap_or(&[])"))).
Proof.
  exact (proj1 (callback_splices_in_reverse
                  (lit "a.get(0..16).unwrap_or(&[]) b.get(1..2).unwrap_or(&[])")
                  (lit "a.get(0..16).unwrap_or(&[]) b.get(1..2).unwrap_or(&[])")
                  0)).
Defined.

(** C6 at a file without any occurrence. *)
Lemma fix_file_no_match_witness :
  fix_content (lit "fn main() { run().await; }")
  = (lit "fn main() { run().await; }", 0)
  /\ fix_file (lit "a.rs")
       (single_file true (lit "a.rs") (lit "fn main() { run().await; }"))
     = Returns 0
         (single_file true (lit "a.rs") (lit "fn main() { run().await; }")).
Proof.
  apply (fix_file_no_match (lit "a.rs")
           (single_file true (lit "a.rs") (lit "fn main() { run().await; }"))
           (lit "fn main() { run().await; }")).
  - reflexivity.
  - intros r Hr.
    assert (F : forallb (fun r => negb (re_search (rule_pattern r)
                                          (lit "fn main() { run().await; }")))
                        PATTERNS = true) by (vm_compute; reflexivity).
    rewrite forallb_forall in F. apply negb_true_iff, F, Hr.
Defined.

(** C7 at a text with one occurrence, for the second rule. *)
Lemma output_differs_only_in_matches_witness :
  rewrites (guarded_pat (lit ".unwrap_or(0)"))
    (expand [TLit (lit ".map_or(0, |v| v)")]) 0
    (lit "x.unwrap_or(0);") (lit "x.map_or(0, |v| v);").
Proof.
  exact (proj1 (proj2 (proj2 (output_differs_only_in_matches
                                (lit "x.unwrap_or(0);"))))
           1 (unwrap_or_rule (lit "0")) eq_refl).
Defined.

(** C8 without the root directory, and with it and one clean file. *)
Lemma main_exit_status_witness :
  main (single_file false (lit "a.rs") [])
  = Exits 1 (print error_line (single_file false (lit "a.rs") []))
  /\ exit_status (main (single_file true (lit "a.rs") (lit "fn f() {}"))) = 0.
Proof.
  split.
  - apply (main_exit_status (single_file false (lit "a.rs") [])).
    + repeat constructor. intros [].
    + reflexivity.
  - apply (main_exit_status (single_file true (lit "a.rs") (lit "fn f() {}"))).
    + repeat constructor. intros [].
    + split; reflexivity.
Defined.

(** C9 at [p.try_exists(&f).await.unwrap_or(false).then(g)]. *)
Lemma try_exists_rewritten_before_dot_witness :
  exists pre',
    fst (fix_content
           (lit "p" ++ lit ".try_exists(" ++ lit "&f"
              ++ lit ").await.unwrap_or(false)" ++ "."%c :: lit "then(g)"))
    = pre' ++ lit ".try_exists(" ++ lit "&f"
        ++ lit ").await.map_or(false, |v| v)"
        ++ fst (fix_content ("."%c :: lit "then(g)")).
Proof.
  destruct (try_exists_rewritten_before_dot (lit "p") (lit "&f"))
    as (_ & pre1 & pre' & H); [discriminate|reflexivity|].
  exists pre'. apply (H (lit "then(g)")).
Defined.

(** C10 at [.get(0..16).unwrap_or(&[])]. *)
Lemma get_slice_replacement_witness :
  exists mt,
    match_at get_slice_pat 1
      (lit ".get(" ++ lit "0" ++ lit ".." ++ lit "16"
         ++ lit ").unwrap_or(&[])" ++ lit ";")
    = Some mt
    /\ group mt 1 = lit "0" /\ group mt 2 = lit "16".
Proof.
  apply (proj1 get_slice_replacement (lit "0") (lit "16") (lit ";") 1);
    (discriminate || reflexivity).
Defined.

(* ================================================================= *)
(** * Further properties of the fixer *)

(** X1: the fixer never shortens a text, and a text it changes gets
    longer. *)
Theorem fix_content_never_shrinks (content : text) :
  length content <= length (fst (fix_content content))
  /\ (length (fst (fix_content content)) = length content ->
      fix_content content = (content, 0)).
Proof.
  destruct (run_steps content PATTERNS content 0 PATTERNS_grow)
    as (H1 & _ & H3).
  split; [exact H1|]. intros Hlen. apply fold_apply_rule_quiet.
  now apply H3.
Qed.

(** X2: the fixer leaves a text as it is exactly when no rule's pattern
    matches in it. *)
Theorem fix_content_unchanged_iff (content : text) :
  fst (fix_content content) = content
  <-> forall r, In r PATTERNS -> re_search (rule_pattern r) content = false.
Proof.
  split.
  - intros H.
    destruct (run_steps content PATTERNS content 0 PATTERNS_grow)
      as (_ & _ & H3).
    apply H3.
    change (fold_left (apply_rule content) PATTERNS (content, 0))
      with (fix_content content).
    now rewrite H.
  - intros H. unfold fix_content. now rewrite fold_apply_rule_quiet.
Qed.

(** X3: what [fix_file] returns when it returns: 0 with the world as it
    was, or a count of at least 1 after writing a text different from the
    one read and printing the line for it. *)
Theorem fix_file_returns (filepath : path) (w w' : world) (n : nat) :
  fix_file filepath w = Returns n w' ->
  (n = 0 /\ w' = w)
  \/ (1 <= n
      /\ exists content,
           read_text filepath w = Some content
           /\ snd (fix_content content) = n
           /\ fst (fix_content content) <> content
           /\ w' = print (fixed_line n filepath)
                     (write_text filepath (fst (fix_content content)) w)).
Proof.
  unfold fix_file.
  destruct (read_text filepath w) as [content|]; [|discriminate].
  pose proof (run_counts content PATTERNS 0 PATTERNS_grow) as Hc.
  fold (fix_content content) in Hc.
  destruct (fix_content content) as [c k] eqn:F. cbn [fst snd] in *.
  destruct (text_eqb c content) eqn:E.
  - intros H. inversion H; subst. now left.
  - apply text_eqb_neq in E. destruct (w_writable w filepath); [|discriminate].
    intros H. inversion H; subst. right. split; [specialize (Hc E); lia|].
    exists content. rewrite F. cbn [fst snd]. auto.
Qed.

(** X3 at a file with one occurrence. *)
Lemma fix_file_returns_witness :
  (1 = 0
   /\ print (fixed_line 1 (lit "a.rs"))
        (write_text (lit "a.rs") (lit "x.map_or(0, |v| v);")
           (single_file true (lit "a.rs") (lit "x.unwrap_or(0);")))
      = single_file true (lit "a.rs") (lit "x.unwrap_or(0);"))
  \/ (1 <= 1
      /\ exists content,
           read_text (lit "a.rs")
             (single_file true (lit "a.rs") (lit "x.unwrap_or(0);"))
           = Some content
           /\ snd (fix_content content) = 1
           /\ fst (fix_content content) <> content
           /\ print (fixed_line 1 (lit "a.rs"))
                (write_text (lit "a.rs") (lit "x.map_or(0, |v| v);")
                   (single_file true (lit "a.rs") (lit "x.unwrap_or(0);")))
              = print (fixed_line 1 (lit "a.rs"))
                  (write_text (lit "a.rs") (fst (fix_content content))
                     (single_file true (lit "a.rs")
                        (lit "x.unwrap_or(0);")))).
Proof.
  apply (fix_file_returns (lit "a.rs")
           (single_file true (lit "a.rs") (lit "x.unwrap_or(0);"))).
  vm_compute. reflexivity.
Defined.
